(** * fugw: unbalanced-OT solvers and the sparse barycenter fitter

    A shallow embedding of [src/fugw/solvers/utils.py] and
    [src/fugw/mappings/sparse_barycenter.py].

    Numeric model.  A torch scalar is a value of [fval]: a real number, or
    one of the three IEEE special values [+inf], [-inf], [nan].  The
    special values propagate as IEEE 754 prescribes (0/0 = nan, x/0 = inf,
    0*inf = nan, inf-inf = nan, log 0 = -inf, ...).  Finite arithmetic is
    exact: rounding, overflow of finite results and the sign of zero are
    not modelled (zero is the positive zero).  The properties proved
    below are those that do not lean on this exactness: control flow,
    shapes, signs, the exceptions raised, equalities between a result and
    the same operations written entry by entry, and facts on the special
    values.  Where the absence of an overflow matters it is a hypothesis
    on the value the program itself computes ([is_finite ...]), which
    holds of every finite real here.

    Tensors.  A vector is a list of scalars, a matrix the list of its rows;
    a sparse tensor is modelled by the dense matrix of its entries.  Torch
    refuses operands whose shapes do not agree; here the elementwise
    operations stop at the shorter operand, so shape agreement is a
    precondition of every function below, as it is in the source.  A
    matrix without rows has no column count here, so the reductions along
    dimension 0 are faithful on matrices with at least one row.

    Python.  A function that may raise returns a [result]; [for] loops
    with [break] are run by [for_loop].  Devices, logging and progress
    bars have no effect on the values computed and are left out.  The
    collaborator [coarse_to_fine.fit] and the user's callback are
    parameters of the fitter; they are taken not to mutate the tensors
    they are handed. *)

From Stdlib Require Import Reals Lra Lia ZArith List Bool String.
Import ListNotations.
Local Open Scope R_scope.

(** ** Scalars *)

Inductive fval : Type :=
| Fin (x : R)
| PInf
| NInf
| NaN.

Definition Rsign (x : R) : comparison :=
  match total_order_T x 0 with
  | inleft (left _) => Lt
  | inleft (right _) => Eq
  | inright _ => Gt
  end.

Definition Rltb (x y : R) : bool := if Rlt_dec x y then true else false.
Definition Reqb (x y : R) : bool := if Req_dec_T x y then true else false.

Definition is_nan (a : fval) : bool :=
  match a with NaN => true | _ => false end.

Definition is_inf (a : fval) : bool :=
  match a with PInf | NInf => true | _ => false end.

Definition is_finite (a : fval) : bool :=
  match a with Fin _ => true | _ => false end.

Definition fneg (a : fval) : fval :=
  match a with
  | Fin x => Fin (- x)
  | PInf => NInf
  | NInf => PInf
  | NaN => NaN
  end.

Definition fadd (a b : fval) : fval :=
  match a, b with
  | NaN, _ | _, NaN => NaN
  | Fin x, Fin y => Fin (x + y)
  | PInf, NInf | NInf, PInf => NaN
  | PInf, _ | _, PInf => PInf
  | NInf, _ | _, NInf => NInf
  end.

Definition fsub (a b : fval) : fval := fadd a (fneg b).

(** The infinity whose sign is that of [c]; [nan] for a zero. *)
Definition inf_of_sign (c : comparison) : fval :=
  match c with Gt => PInf | Lt => NInf | Eq => NaN end.

Definition fsign (a : fval) : comparison :=
  match a with
  | Fin x => Rsign x
  | PInf => Gt
  | NInf => Lt
  | NaN => Eq
  end.

Definition sign_mul (c d : comparison) : comparison :=
  match c, d with
  | Eq, _ | _, Eq => Eq
  | Gt, Gt | Lt, Lt => Gt
  | _, _ => Lt
  end.

Definition fmul (a b : fval) : fval :=
  match a, b with
  | NaN, _ | _, NaN => NaN
  | Fin x, Fin y => Fin (x * y)
  | _, _ => inf_of_sign (sign_mul (fsign a) (fsign b))
  end.

Definition fdiv (a b : fval) : fval :=
  match a, b with
  | NaN, _ | _, NaN => NaN
  | Fin x, Fin y =>
      match Rsign y with
      | Eq => inf_of_sign (Rsign x)
      | _ => Fin (x / y)
      end
  | Fin _, _ => Fin 0
  | _, Fin y =>
      match Rsign y with
      | Lt => fneg a
      | _ => a
      end
  | _, _ => NaN
  end.

Definition fexp (a : fval) : fval :=
  match a with
  | Fin x => Fin (exp x)
  | PInf => PInf
  | NInf => Fin 0
  | NaN => NaN
  end.

Definition flog (a : fval) : fval :=
  match a with
  | Fin x =>
      match Rsign x with
      | Gt => Fin (ln x)
      | Eq => NInf
      | Lt => NaN
      end
  | PInf => PInf
  | NInf | NaN => NaN
  end.

Definition fabs (a : fval) : fval :=
  match a with
  | Fin x => Fin (Rabs x)
  | PInf | NInf => PInf
  | NaN => NaN
  end.

(** [a < b]: false as soon as one side is [nan]. *)
Definition fltb (a b : fval) : bool :=
  match a, b with
  | NaN, _ | _, NaN => false
  | Fin x, Fin y => Rltb x y
  | Fin _, PInf => true
  | Fin _, NInf => false
  | PInf, _ => false
  | NInf, NInf => false
  | NInf, _ => true
  end.

(** [a == b] *)
Definition feqb (a b : fval) : bool :=
  match a, b with
  | Fin x, Fin y => Reqb x y
  | PInf, PInf | NInf, NInf => true
  | _, _ => false
  end.

(** [torch.nan_to_num(a, nan, posinf, neginf)] on one entry. *)
Definition nan_to_num (nan posinf neginf : fval) (a : fval) : fval :=
  match a with
  | Fin x => Fin x
  | PInf => posinf
  | NInf => neginf
  | NaN => nan
  end.

(** ** Tensors *)

Abbreviation vec := (list fval).
Abbreviation mat := (list (list fval)).

Fixpoint map2 {A B C : Type} (f : A -> B -> C) (l : list A) (l' : list B)
  : list C :=
  match l, l' with
  | a :: t, b :: t' => f a b :: map2 f t t'
  | _, _ => []
  end.

(** [t.sum()] *)
Definition tsum (v : vec) : fval := fold_right fadd (Fin 0) v.

(** ** Divergence utilities *)

(* def compute_approx_kl(p, q):
     entropy = torch.nan_to_num(p * (p / q).log(),
                                nan=0.0, posinf=0.0, neginf=0.0).sum() *)
Definition compute_approx_kl (p q : vec) : fval :=
  tsum (map (nan_to_num (Fin 0) (Fin 0) (Fin 0))
            (map2 fmul p (map flog (map2 fdiv p q)))).

(* def compute_kl(p, q):
     return compute_approx_kl(p, q) - p.sum() + q.sum() *)
Definition compute_kl (p q : vec) : fval :=
  fadd (fsub (compute_approx_kl p q) (tsum p)) (tsum q).

(* def compute_quad_kl(mu, nu, alpha, beta) *)
Definition compute_quad_kl (mu nu alpha beta : vec) : fval :=
  let m_mu := tsum mu in
  let m_nu := tsum nu in
  let m_alpha := tsum alpha in
  let m_beta := tsum beta in
  let const := fmul (fsub m_mu m_alpha) (fsub m_nu m_beta) in
  fadd (fadd (fmul m_nu (compute_kl mu alpha)) (fmul m_mu (compute_kl nu beta)))
       const.

(** One term of the entropy sum of [compute_approx_kl], after the
    replacement of the values that are not finite:
    [nan_to_num(p * (p / q).log(), nan=0.0, posinf=0.0, neginf=0.0)] at one
    entry. *)
Definition entropy_entry (a b : fval) : fval :=
  nan_to_num (Fin 0) (Fin 0) (Fin 0) (fmul a (flog (fdiv a b))).

(** The value of [compute_kl] on nonnegative real numbers, in exact
    arithmetic: the sum of [p * log (p / q)], a term with [p = 0] or
    [q = 0] counting for zero, minus the mass of [p] plus the mass of [q].
    It serves to evaluate the divergence at concrete inputs. *)
Definition kl_term (p q : R) : R :=
  if Req_dec_T p 0 then 0
  else if Req_dec_T q 0 then 0
  else p * ln (p / q).

Definition Rsum (l : list R) : R := fold_right Rplus 0 l.

Definition generalizedKL (p q : list R) : R :=
  Rsum (map2 kl_term p q) - Rsum p + Rsum q.

(** ** More scalar operations *)

Definition fsqrt (a : fval) : fval :=
  match a with
  | Fin x =>
      match Rsign x with
      | Lt => NaN
      | _ => Fin (sqrt x)
      end
  | PInf => PInf
  | NInf | NaN => NaN
  end.

Definition is_integer (y : R) : bool := Reqb (IZR (Int_part y)) y.
Definition is_odd_integer (y : R) : bool :=
  is_integer y && Z.odd (Int_part y).

(** [a ** b], with the special cases of the C library's [pow]. *)
Definition fpow (a b : fval) : fval :=
  if feqb b (Fin 0) then Fin 1
  else if feqb a (Fin 1) then Fin 1
  else
    match a, b with
    | NaN, _ | _, NaN => NaN
    | Fin x, Fin y =>
        match Rsign x with
        | Gt => Fin (Rpower x y)
        | Eq => if Rltb 0 y then Fin 0 else PInf
        | Lt =>
            if is_integer y then
              if Z.odd (Int_part y) then Fin (- Rpower (- x) y)
              else Fin (Rpower (- x) y)
            else NaN
        end
    | Fin x, PInf =>
        if Rltb (Rabs x) 1 then Fin 0
        else if Reqb (Rabs x) 1 then Fin 1 else PInf
    | Fin x, NInf =>
        if Rltb (Rabs x) 1 then PInf
        else if Reqb (Rabs x) 1 then Fin 1 else Fin 0
    | PInf, Fin y => if Rltb 0 y then PInf else Fin 0
    | PInf, PInf => PInf
    | PInf, NInf => Fin 0
    | NInf, Fin y =>
        if Rltb 0 y then (if is_odd_integer y then NInf else PInf) else Fin 0
    | NInf, PInf => PInf
    | NInf, NInf => Fin 0
    end.

(** Python's builtin [max(a, b)] on two scalars: [b] when [b > a], else
    [a]; a [nan] in second position is therefore dropped. *)
Definition py_max2 (a b : fval) : fval := if fltb a b then b else a.

(** The binary step of torch's [max] and [min] reductions: a [nan]
    operand wins. *)
Definition fmax2 (a b : fval) : fval :=
  if is_nan a || is_nan b then NaN else if fltb a b then b else a.

Definition fmin2 (a b : fval) : fval :=
  if is_nan a || is_nan b then NaN else if fltb b a then b else a.

(** ** Python values: exceptions, integers, loops *)

(** The exceptions the modelled code raises; [ForeignError] stands for
    whatever the collaborator or a callback may raise besides. *)
Inductive exn : Type :=
| ValueError (msg : string)
| ZeroDivisionError
| RuntimeError
| IndexError
| UnboundLocalError
| ForeignError (msg : string).

Inductive result (A : Type) : Type :=
| Ok (a : A)
| Raise (e : exn).
Arguments Ok {A} a.
Arguments Raise {A} e.

Definition bind {A B : Type} (m : result A) (k : A -> result B) : result B :=
  match m with
  | Ok a => k a
  | Raise e => Raise e
  end.

Declare Scope result_scope.
Delimit Scope result_scope with result.
Notation "x <- m ;; k" := (bind m (fun x => k))
  (at level 61, m at next level, right associativity) : result_scope.
Notation "' p <- m ;; k" := (bind m (fun x => match x with p => k end))
  (at level 61, p pattern, m at next level, right associativity) : result_scope.
Local Open Scope result_scope.

(** [range(n)] *)
Definition range (n : Z) : list Z := map Z.of_nat (seq 0 (Z.to_nat n)).

(** [a % b] on Python integers: the result has the sign of [b], and a zero
    [b] raises. *)
Definition py_mod (a b : Z) : result Z :=
  if (b =? 0)%Z then Raise ZeroDivisionError else Ok (a mod b)%Z.

(** What the body of a [for] loop asks for when it ends. *)
Inductive ctl (S : Type) : Type :=
| Continue (s : S)
| Break (s : S).
Arguments Continue {S} s.
Arguments Break {S} s.

(** [for idx in idxs: body], with [break] and exceptions. *)
Fixpoint for_loop {S : Type} (body : Z -> S -> result (ctl S))
  (idxs : list Z) (s : S) : result S :=
  match idxs with
  | [] => Ok s
  | idx :: rest =>
      match body idx s with
      | Raise e => Raise e
      | Ok (Break s') => Ok s'
      | Ok (Continue s') => for_loop body rest s'
      end
  end.

(** ** Tensor operations *)

Definition zeros_like (v : vec) : vec := map (fun _ => Fin 0) v.
Definition ones_like (v : vec) : vec := map (fun _ => Fin 1) v.

Definition vmap2 (op : fval -> fval -> fval) (v w : vec) : vec := map2 op v w.
Definition mmap (f : fval -> fval) (A : mat) : mat := map (map f) A.
Definition mmap2 (op : fval -> fval -> fval) (A B : mat) : mat :=
  map2 (map2 op) A B.

(** [v[:, None] op A]: entry [i] of [v] against row [i] of [A]. *)
Definition bcast_col (op : fval -> fval -> fval) (v : vec) (A : mat) : mat :=
  map2 (fun a row => map (op a) row) v A.

(** [v[None, :] op A]: [v] against every row of [A]. *)
Definition bcast_row (op : fval -> fval -> fval) (v : vec) (A : mat) : mat :=
  map (fun row => map2 op v row) A.

(** [A op v[:, None]] and [A op v[None, :]]. *)
Definition bcast_col_r (op : fval -> fval -> fval) (A : mat) (v : vec) : mat :=
  map2 (fun row a => map (fun c => op c a) row) A v.
Definition bcast_row_r (op : fval -> fval -> fval) (A : mat) (v : vec) : mat :=
  map (fun row => map2 op row v) A.

(** [v[:, None] op w[None, :]] *)
Definition outer (op : fval -> fval -> fval) (v w : vec) : mat :=
  map (fun a => map (op a) w) v.

Definition ncols (A : mat) : nat :=
  match A with
  | [] => 0
  | row :: _ => List.length row
  end.

Definition col (j : nat) (A : mat) : vec := map (fun row => nth j row NaN) A.

(** [A.T]; a matrix without rows has no columns here. *)
Definition transpose (A : mat) : mat :=
  map (fun j => col j A) (seq 0 (ncols A)).

(** [A.sum(1)], [A.sum(0)] *)
Definition sum_dim1 (A : mat) : vec := map tsum A.
Definition sum_dim0 (A : mat) : vec := map tsum (transpose A).

Definition logsumexp (v : vec) : fval := flog (tsum (map fexp v)).

(** [A.logsumexp(dim=1)], [A.logsumexp(dim=0)] *)
Definition logsumexp_dim1 (A : mat) : vec := map logsumexp A.
Definition logsumexp_dim0 (A : mat) : vec := map logsumexp (transpose A).

Definition dot (v w : vec) : fval := tsum (map2 fmul v w).

(** [A @ v] *)
Definition matvec (A : mat) (v : vec) : vec := map (fun row => dot row v) A.

(** [A @ B.T]: entry [(i, k)] pairs row [i] of [A] with row [k] of [B]. *)
Definition matmul_T (A B : mat) : mat :=
  map (fun a => map (fun b => dot a b) B) A.

(** [v.max()], [v.min()]: a reduction over no entry raises. *)
Definition tmax (v : vec) : result fval :=
  match v with
  | [] => Raise RuntimeError
  | a :: rest => Ok (fold_left fmax2 rest a)
  end.

Definition tmin (v : vec) : result fval :=
  match v with
  | [] => Raise RuntimeError
  | a :: rest => Ok (fold_left fmin2 rest a)
  end.

(** [(v - w).abs().max()] *)
Definition max_abs_diff (v w : vec) : result fval :=
  tmax (map fabs (vmap2 fsub v w)).

(** ** The UOT solver family ([solvers/utils.py]) *)

(** The regularisation parameters reach the solvers as 0-dimensional
    tensors, the iteration budget and the evaluation frequency as Python
    integers. *)

(* tau_x = 1 if torch.isinf(rho_x) else rho_x / (rho_x + eps) *)
Definition scaling_tau (rho eps : fval) : fval :=
  if is_inf rho then Fin 1 else fdiv rho (fadd rho eps).

(* vy = -tau_y * ((vx + log_px)[:, None] - cost / eps).logsumexp(dim=0) *)
Definition scaling_update_vy (cost : mat) (log_px : vec) (rho_y eps tau_y : fval)
  (vx vy : vec) : vec :=
  if feqb rho_y (Fin 0) then zeros_like vy
  else
    map (fmul (fneg tau_y))
      (logsumexp_dim0
         (bcast_col fsub (vmap2 fadd vx log_px)
            (mmap (fun c => fdiv c eps) cost))).

(* vx = -tau_x * ((vy + log_py)[None, :] - cost / eps).logsumexp(dim=1) *)
Definition scaling_update_vx (cost : mat) (log_py : vec) (rho_x eps tau_x : fval)
  (vx vy : vec) : vec :=
  if feqb rho_x (Fin 0) then zeros_like vx
  else
    map (fmul (fneg tau_x))
      (logsumexp_dim1
         (bcast_row fsub (vmap2 fadd vy log_py)
            (mmap (fun c => fdiv c eps) cost))).

(** The test that ends an iteration of [solver_scaling] and [solver_mm]:
    [idx % eval_freq == 0 and max((a - a_prev).abs().max(),
    (b - b_prev).abs().max()) < tol]. *)
Definition converged2 (idx eval_freq : Z) (tol : fval)
  (a a_prev b b_prev : vec) : result bool :=
  r <- py_mod idx eval_freq ;;
  if (r =? 0)%Z then
    da <- max_abs_diff a a_prev ;;
    db <- max_abs_diff b b_prev ;;
    Ok (fltb (py_max2 da db) tol)
  else Ok false.

Definition scaling_body (cost : mat) (log_px log_py : vec)
  (rho_x rho_y eps tau_x tau_y tol : fval) (eval_freq : Z)
  (idx : Z) (duals : vec * vec) : result (ctl (vec * vec)) :=
  let '(vx, vy) := duals in
  let vx_prev := vx in
  let vy_prev := vy in
  let vy := scaling_update_vy cost log_px rho_y eps tau_y vx vy in
  let vx := scaling_update_vx cost log_py rho_x eps tau_x vx vy in
  stop <- converged2 idx eval_freq tol vx vx_prev vy vy_prev ;;
  Ok (if stop then Break (vx, vy) else Continue (vx, vy)).

(* pi = pxy * (vx[:, None] + vy[None, :] - cost / eps).exp() *)
Definition scaling_coupling (cost pxy : mat) (eps : fval) (vx vy : vec) : mat :=
  mmap2 fmul pxy
    (mmap fexp
       (mmap2 fsub (outer fadd vx vy) (mmap (fun c => fdiv c eps) cost))).

Definition solver_scaling (cost : mat) (init_duals : vec * vec)
  (uot_params : fval * fval * fval) (tuple_pxy : vec * vec * mat)
  (train_params : Z * fval * Z) : result ((vec * vec) * mat) :=
  let '(log_px, log_py, pxy) := tuple_pxy in
  let '(vx, vy) := init_duals in
  let '(rho_x, rho_y, eps) := uot_params in
  let '(niters, tol, eval_freq) := train_params in
  let tau_x := scaling_tau rho_x eps in
  let tau_y := scaling_tau rho_y eps in
  '(vx, vy) <- for_loop
      (scaling_body cost log_px log_py rho_x rho_y eps tau_x tau_y tol eval_freq)
      (range niters) (vx, vy) ;;
  Ok ((vx, vy), scaling_coupling cost pxy eps vx vy).

(* K = px[:, None] ** (tau_x + r) * py[None, :] ** (tau_y + r)
       * (-cost / sum_param).exp() *)
Definition mm_kernel (cost : mat) (px py : vec) (rho_x rho_y eps : fval) : mat :=
  let sum_param := fadd (fadd rho_x rho_y) eps in
  let tau_x := fdiv rho_x sum_param in
  let tau_y := fdiv rho_y sum_param in
  let r := fdiv eps sum_param in
  mmap2 fmul
    (outer fmul (map (fun c => fpow c (fadd tau_x r)) px)
                (map (fun c => fpow c (fadd tau_y r)) py))
    (mmap fexp (mmap (fun c => fdiv (fneg c) sum_param) cost)).

(* pi = pi ** (tau_x + tau_y) / (pi1[:, None] ** tau_x * pi2[None, :] ** tau_y) * K *)
Definition mm_update (K : mat) (tau_x tau_y : fval) (pi1 pi2 : vec) (pi : mat)
  : mat :=
  mmap2 fmul
    (mmap2 fdiv
       (mmap (fun c => fpow c (fadd tau_x tau_y)) pi)
       (outer fmul (map (fun c => fpow c tau_x) pi1)
                   (map (fun c => fpow c tau_y) pi2)))
    K.

Definition mm_body (K : mat) (tau_x tau_y tol : fval) (eval_freq : Z)
  (idx : Z) (st : vec * vec * mat) : result (ctl (vec * vec * mat)) :=
  let '(pi1, pi2, pi) := st in
  let pi1_old := pi1 in
  let pi2_old := pi2 in
  let pi := mm_update K tau_x tau_y pi1 pi2 pi in
  let pi1 := sum_dim1 pi in
  let pi2 := sum_dim0 pi in
  stop <- converged2 idx eval_freq tol pi1 pi1_old pi2 pi2_old ;;
  Ok (if stop then Break (pi1, pi2, pi) else Continue (pi1, pi2, pi)).

Definition solver_mm (cost init_pi : mat) (uot_params : fval * fval * fval)
  (tuple_pxy : vec * vec) (train_params : Z * fval * Z) : result mat :=
  let '(niters, tol, eval_freq) := train_params in
  let '(px, py) := tuple_pxy in
  let '(rho_x, rho_y, eps) := uot_params in
  let sum_param := fadd (fadd rho_x rho_y) eps in
  let tau_x := fdiv rho_x sum_param in
  let tau_y := fdiv rho_y sum_param in
  let K := mm_kernel cost px py rho_x rho_y eps in
  '(_, _, pi) <- for_loop (mm_body K tau_x tau_y tol eval_freq)
      (range niters) (sum_dim1 init_pi, sum_dim0 init_pi, init_pi) ;;
  Ok pi.

Definition nan_in_coupling : string :=
  "There is NaN in coupling. Please increase eps_base.".

(* tau1 = 1 if rho1 == float("inf") else rho1 / (rho1 + sum_eps) *)
Definition dc_tau (rho sum_eps : fval) : fval :=
  if feqb rho PInf then Fin 1 else fdiv rho (fadd rho sum_eps).

(** The iterate of [solver_dc]: the scaling vectors, the coupling, and the
    row mass as of the last evaluation checkpoint. *)
Definition dc_state : Type := vec * vec * mat * vec.

(** The "IPOT" block of an iteration: the new [u], [v] and [pi]. *)
Definition dc_update (K : mat) (px py : vec)
  (rho1 rho2 tau1 tau2 eps_base sum_eps : fval) (u v : vec) (pi : mat)
  : vec * vec * mat :=
  let G :=
    if feqb (fdiv eps_base sum_eps) (Fin 1) then mmap2 fmul K pi
    else mmap2 fmul K (mmap (fun c => fpow c (fdiv eps_base sum_eps)) pi) in
  let v :=
    if negb (feqb rho2 (Fin 0)) then
      map (fun c => fpow c (fneg tau2)) (matvec (transpose G) (vmap2 fmul u px))
    else ones_like v in
  let u :=
    if negb (feqb rho1 (Fin 0)) then
      map (fun c => fpow c (fneg tau1)) (matvec G (vmap2 fmul v py))
    else ones_like u in
  let pi := bcast_row_r fmul (bcast_col fmul u G) v in
  (u, v, pi).

(** [m1.isnan().any() or m1.isinf().any()] *)
Definition has_nan_or_inf (m1 : vec) : bool :=
  existsb is_nan m1 || existsb is_inf m1.

Definition dc_body (K : mat) (px py : vec)
  (rho1 rho2 tau1 tau2 eps_base sum_eps tol : fval) (eval_freq : Z)
  (idx : Z) (st : dc_state) : result (ctl dc_state) :=
  let '(u, v, pi, m1) := st in
  let m1_prev := m1 in
  let '(u, v, pi) :=
    dc_update K px py rho1 rho2 tau1 tau2 eps_base sum_eps u v pi in
  r <- py_mod idx eval_freq ;;
  if (r =? 0)%Z then
    let m1 := sum_dim1 pi in
    if has_nan_or_inf m1 then Raise (ValueError nan_in_coupling)
    else
      error <- max_abs_diff m1 m1_prev ;;
      if fltb error tol then Ok (Break (u, v, pi, m1))
      else Ok (Continue (u, v, pi, m1))
  else Ok (Continue (u, v, pi, m1)).

Definition solver_dc (cost init_pi : mat) (init_duals : vec * vec)
  (uot_params : fval * fval * fval) (tuple_pxy : vec * vec * mat)
  (train_params : Z * fval * Z) (eps_base : fval)
  : result ((vec * vec) * mat) :=
  let '(niters, tol, eval_freq) := train_params in
  let '(rho1, rho2, eps) := uot_params in
  let '(px, py, pxy) := tuple_pxy in
  let '(u, v) := init_duals in
  let m1 := sum_dim1 init_pi in
  let pi := init_pi in
  let sum_eps := fadd eps_base eps in
  let tau1 := dc_tau rho1 sum_eps in
  let tau2 := dc_tau rho2 sum_eps in
  let K := mmap fexp (mmap (fun c => fdiv (fneg c) sum_eps) cost) in
  '(u, v, pi, _) <- for_loop
      (dc_body K px py rho1 rho2 tau1 tau2 eps_base sum_eps tol eval_freq)
      (range niters) (u, v, pi, m1) ;;
  Ok ((u, v), mmap2 fmul pi pxy).

(** ** The barycenter fitter ([mappings/sparse_barycenter.py]) *)

Fixpoint mapM {A B : Type} (f : A -> result B) (l : list A) : result (list B) :=
  match l with
  | [] => Ok []
  | a :: t => b <- f a ;; bs <- mapM f t ;; Ok (b :: bs)
  end.

(** Modelled from the spec: [_make_tensor] of [fugw.utils] is not among the
    sources; it coerces an array to a tensor on the device and keeps its
    entries, so features, weights and plans are tensors throughout and the
    guard [features is not None] of the update holds. *)
Definition _make_tensor {T : Type} (x : T) : T := x.

(* weight = 1 / len(features_list)
   pi_sum = torch.sparse.sum(pi, dim=0).to_dense().reshape(-1, 1) + 1e-16
   acc = weight * pi.T @ f.T / pi_sum *)
Definition feature_acc (n_individuals : nat) (pi features : mat) : mat :=
  let f := _make_tensor features in
  let weight := Fin (1 / INR n_individuals) in
  let pi_sum := map (fun c => fadd c (Fin 1e-16)) (sum_dim0 pi) in
  bcast_col_r fdiv (matmul_T (mmap (fmul weight) (transpose pi)) f) pi_sum.

(** The loop of [update_barycenter_features] over
    [enumerate(zip(plans, features_list))]; [None] is the accumulator not
    yet bound. *)
Fixpoint accumulate_features (n_individuals : nat) (i : nat)
  (items : list (mat * mat)) (barycenter_features : option mat)
  : result (option mat) :=
  match items with
  | [] => Ok barycenter_features
  | (pi, features) :: rest =>
      let acc := feature_acc n_individuals pi features in
      if (i =? 0)%nat then
        accumulate_features n_individuals (S i) rest (Some acc)
      else
        match barycenter_features with
        | None => Raise UnboundLocalError
        | Some b =>
            accumulate_features n_individuals (S i) rest
              (Some (mmap2 fadd b acc))
        end
  end.

(* min_val = barycenter_features.min(dim=0, keepdim=True).values
   max_val = barycenter_features.max(dim=0, keepdim=True).values
   barycenter_features = (
       2 * (barycenter_features - min_val) / (max_val - min_val) - 1) *)
Definition normalize_features (barycenter_features : mat) : result mat :=
  match barycenter_features with
  | [] => Raise IndexError
  | _ =>
      min_val <- mapM tmin (transpose barycenter_features) ;;
      max_val <- mapM tmax (transpose barycenter_features) ;;
      Ok (mmap (fun c => fsub c (Fin 1))
            (bcast_row_r fdiv
               (mmap (fmul (Fin 2)) (bcast_row_r fsub barycenter_features min_val))
               (vmap2 fsub max_val min_val)))
  end.

Definition update_barycenter_features (plans features_list : list mat)
  : result mat :=
  acc <- accumulate_features (List.length features_list) 0
           (combine plans features_list) None ;;
  match acc with
  | None => Raise UnboundLocalError
  | Some barycenter_features =>
      normalized <- normalize_features barycenter_features ;;
      Ok (transpose normalized)
  end.

(** The update as the specification words it: the sum over the individuals
    of [acc_i], from a zero accumulator of the barycenter's shape, rescaled
    to [-1, 1] along each feature dimension; entry [(b, k)] of the sum is
    the sum over [i] of [acc_i (b, k)]. *)
Definition aggregated_features (plans features_list : list mat) : mat :=
  let accs :=
    map (fun '(pi, features) => feature_acc (List.length features_list) pi features)
        (combine plans features_list) in
  match accs with
  | [] => []
  | acc0 :: _ =>
      fold_left (mmap2 fadd) accs (map (map (fun _ => Fin 0)) acc0)
  end.

Definition fine_plan_nan : string := "Fine plan contains NaN values".

Section BarycenterModel.

(** What the fitter treats as opaque: the sparsity mask, the three loss
    records of a fine mapping, and everything it forwards unchanged to the
    coarse-to-fine collaborator (the coarse and fine mapping
    hyper-parameters, the geometry embedding used as source and as target,
    the mesh sample, the solver and its parameters, the selection radius,
    the device and the verbosity). *)
Variables Mask Loss Steps Times Settings : Type.

(** The arguments of one call to [coarse_to_fine.fit] that vary. *)
Record c2f_args : Type := {
  source_features : mat;
  target_features : mat;
  source_weights : vec;
  target_weights : vec;
  init_plan : option mat;
  sparsity_mask : option Mask;
  settings : Settings
}.

(** The fields the fitter reads from the fine mapping after the call. *)
Record FUGWSparse : Type := {
  pi : mat;
  loss : Loss;
  loss_steps : Steps;
  loss_times : Times
}.

Definition loss_record : Type := (Loss * Steps * Times)%type.

(** [coarse_to_fine.fit]: an external collaborator.  It fills the fine
    mapping and returns, third, a sparsity mask (possibly Python's [None]);
    it may raise. *)
Variable coarse_to_fine_fit : c2f_args -> result (FUGWSparse * option Mask).

(** One call to the collaborator, as observed from the fitter. *)
Record c2f_event : Type := {
  ev_individual : nat;
  ev_args : c2f_args;
  ev_result : result (FUGWSparse * option Mask)
}.

(* init_plan=plans[i] if plans is not None else None *)
Definition warm_start (plans : option (list mat)) (i : nat)
  : result (option mat) :=
  match plans with
  | None => Ok None
  | Some l =>
      match nth_error l i with
      | Some p => Ok (Some p)
      | None => Raise IndexError
      end
  end.

(** The loop of [compute_all_ot_plans] over
    [enumerate(zip(features_list, weights_list))], with the calls it makes. *)
Fixpoint ot_plans_loop (plans : option (list mat)) (cfg : Settings)
  (barycenter_weights : vec) (barycenter_features : mat)
  (i : nat) (items : list (mat * vec))
  (new_plans : list mat) (new_losses : list loss_record)
  (mask : option Mask)
  : list c2f_event * result (list mat * list loss_record * option Mask) :=
  match items with
  | [] => ([], Ok (new_plans, new_losses, mask))
  | (features, weights) :: rest =>
      match warm_start plans i with
      | Raise e => ([], Raise e)
      | Ok init =>
          let args :=
            {| source_features := features;
               target_features := barycenter_features;
               source_weights := weights;
               target_weights := barycenter_weights;
               init_plan := init;
               sparsity_mask := mask;
               settings := cfg |} in
          let out := coarse_to_fine_fit args in
          let ev :=
            {| ev_individual := i; ev_args := args; ev_result := out |} in
          match out with
          | Raise e => ([ev], Raise e)
          | Ok (fine_mapping, mask') =>
              if existsb (existsb is_nan) (pi fine_mapping) then
                ([ev], Raise (ValueError fine_plan_nan))
              else
                let '(evs, r) :=
                  ot_plans_loop plans cfg barycenter_weights
                    barycenter_features (S i) rest
                    (new_plans ++ [pi fine_mapping])
                    (new_losses ++
                       [(loss fine_mapping, loss_steps fine_mapping,
                         loss_times fine_mapping)])
                    mask' in
                (ev :: evs, r)
          end
      end
  end.

Definition compute_all_ot_plans (plans : option (list mat))
  (weights_list : list vec) (features_list : list mat) (cfg : Settings)
  (barycenter_weights : vec) (barycenter_features : mat)
  (mask : option Mask)
  : list c2f_event * result (list mat * list loss_record * option Mask) :=
  ot_plans_loop plans cfg barycenter_weights barycenter_features 0
    (combine features_list weights_list) [] [] mask.

(** The local variables of [fit] a callback is handed at the end of a
    round. *)
Record fit_locals : Type := {
  l_idx : Z;
  l_plans : list mat;
  l_losses : list loss_record;
  l_sparsity_mask : option Mask;
  l_barycenter_weights : vec;
  l_barycenter_features : mat;
  l_losses_each_bar_step : list (list loss_record)
}.

(** What the rounds of [fit] carry over: [plans], [sparsity_mask],
    [losses_each_bar_step] and [barycenter_features]. *)
Definition fit_state : Type :=
  (option (list mat) * option Mask * list (list loss_record) * mat)%type.

Definition tag_round (idx : Z) (evs : list c2f_event) : list (Z * c2f_event) :=
  map (fun ev => (idx, ev)) evs.

(** The body of the loop over [range(nits_barycenter)]. *)
Definition fit_round (weights_list : list vec) (features_list : list mat)
  (cfg : Settings) (barycenter_weights : vec)
  (callback_barycenter : option (fit_locals -> result unit))
  (idx : Z) (st : fit_state) : list (Z * c2f_event) * result fit_state :=
  let '(plans, mask, losses_each_bar_step, barycenter_features) := st in
  let '(evs, r) :=
    compute_all_ot_plans plans weights_list features_list cfg
      barycenter_weights barycenter_features mask in
  (tag_round idx evs,
   '(plans, losses, mask) <- r ;;
   let losses_each_bar_step := losses_each_bar_step ++ [losses] in
   barycenter_features <- update_barycenter_features plans features_list ;;
   _ <- match callback_barycenter with
        | None => Ok tt
        | Some callback =>
            callback
              {| l_idx := idx;
                 l_plans := plans;
                 l_losses := losses;
                 l_sparsity_mask := mask;
                 l_barycenter_weights := barycenter_weights;
                 l_barycenter_features := barycenter_features;
                 l_losses_each_bar_step := losses_each_bar_step |}
        end ;;
   Ok (Some plans, mask, losses_each_bar_step, barycenter_features)).

Fixpoint fit_loop (weights_list : list vec) (features_list : list mat)
  (cfg : Settings) (barycenter_weights : vec)
  (callback_barycenter : option (fit_locals -> result unit))
  (idxs : list Z) (st : fit_state) : list (Z * c2f_event) * result fit_state :=
  match idxs with
  | [] => ([], Ok st)
  | idx :: rest =>
      let '(evs, r) :=
        fit_round weights_list features_list cfg barycenter_weights
          callback_barycenter idx st in
      match r with
      | Raise e => (evs, Raise e)
      | Ok st' =>
          let '(evs', r') :=
            fit_loop weights_list features_list cfg barycenter_weights
              callback_barycenter rest st' in
          (evs ++ evs', r')
      end
  end.

(* barycenter_size = weights_list[0].shape[0] *)
Definition default_barycenter_size (weights_list : list vec) : result nat :=
  match weights_list with
  | [] => Raise IndexError
  | w :: _ => Ok (List.length w)
  end.

(* (torch.ones(barycenter_size) / barycenter_size) *)
Definition uniform_weights (barycenter_size : nat) : vec :=
  map (fun c => fdiv c (Fin (INR barycenter_size)))
      (repeat (Fin 1) barycenter_size).

(* torch.ones((features_list[0].shape[0], barycenter_size)), each row
   divided by its norm *)
Definition uniform_features (features_list : list mat) (barycenter_size : nat)
  : result mat :=
  match features_list with
  | [] => Raise IndexError
  | f0 :: _ =>
      let ones := repeat (repeat (Fin 1) barycenter_size) (List.length f0) in
      let norm := map (fun row => fsqrt (tsum (map (fun c => fmul c c) row))) ones in
      Ok (bcast_col_r fdiv ones norm)
  end.

Definition fit (weights_list : list vec) (features_list : list mat)
  (cfg : Settings) (barycenter_size : option nat)
  (init_barycenter_weights : option vec)
  (init_barycenter_features : option mat)
  (nits_barycenter : Z)
  (callback_barycenter : option (fit_locals -> result unit))
  : list (Z * c2f_event) *
    result (vec * mat * option (list mat) * list (list loss_record)) :=
  let init :=
    barycenter_size <-
      match barycenter_size with
      | None => default_barycenter_size weights_list
      | Some b => Ok b
      end ;;
    let barycenter_weights :=
      match init_barycenter_weights with
      | None => uniform_weights barycenter_size
      | Some w => _make_tensor w
      end in
    barycenter_features <-
      match init_barycenter_features with
      | None => uniform_features features_list barycenter_size
      | Some f => Ok (_make_tensor f)
      end ;;
    Ok (barycenter_weights, barycenter_features) in
  match init with
  | Raise e => ([], Raise e)
  | Ok (barycenter_weights, barycenter_features) =>
      let '(evs, r) :=
        fit_loop weights_list features_list cfg barycenter_weights
          callback_barycenter (range nits_barycenter)
          (None, None, [], barycenter_features) in
      (evs,
       '(plans, _, losses_each_bar_step, barycenter_features) <- r ;;
       Ok (barycenter_weights, barycenter_features, plans,
           losses_each_bar_step))
  end.

End BarycenterModel.

Arguments source_features {Mask Settings} _.
Arguments target_features {Mask Settings} _.
Arguments source_weights {Mask Settings} _.
Arguments target_weights {Mask Settings} _.
Arguments init_plan {Mask Settings} _.
Arguments sparsity_mask {Mask Settings} _.
Arguments settings {Mask Settings} _.
Arguments pi {Loss Steps Times} _.
Arguments loss {Loss Steps Times} _.
Arguments loss_steps {Loss Steps Times} _.
Arguments loss_times {Loss Steps Times} _.
Arguments ev_individual {Mask Loss Steps Times Settings} _.
Arguments ev_args {Mask Loss Steps Times Settings} _.
Arguments ev_result {Mask Loss Steps Times Settings} _.
Arguments compute_all_ot_plans {Mask Loss Steps Times Settings} _ _ _ _ _ _ _ _.
Arguments ot_plans_loop {Mask Loss Steps Times Settings} _ _ _ _ _ _ _ _ _ _.
Arguments fit_round {Mask Loss Steps Times Settings} _ _ _ _ _ _ _ _.
Arguments fit_loop {Mask Loss Steps Times Settings} _ _ _ _ _ _ _ _.
Arguments fit {Mask Loss Steps Times Settings} _ _ _ _ _ _ _ _ _.
Arguments tag_round {Mask Loss Steps Times Settings} _ _.
Arguments warm_start _ _ : clear implicits.

(** ** Specification-level definitions

    What follows is not translated from the source: these are the
    quantities in which the properties below are stated. *)

(** The divergence as the specification words it, with the convention
    [0 * log 0 = 0] alone: a term with [p = 0] counts for zero, every
    other term is [p * log (p / q)] as it comes. *)
Definition stated_entry (a b : fval) : fval :=
  if feqb a (Fin 0) then Fin 0 else fmul a (flog (fdiv a b)).

Definition generalizedKL_stated (p q : vec) : fval :=
  fadd (fsub (tsum (map2 stated_entry p q)) (tsum p)) (tsum q).

(** *** Tensors by their entries *)

Definition entry (A : mat) (i j : nat) : fval := nth j (nth i A []) NaN.

(** Every row of [A] has the length of the first. *)
Definition rectangular (A : mat) : Prop :=
  Forall (fun row => List.length row = ncols A) A.

Definition has_shape (r c : nat) (A : mat) : Prop :=
  List.length A = r /\ Forall (fun row => List.length row = c) A.

(** Entry [(b, k)] of an individual's term, as the specification words it:
    [(1/N) * sum_s pi[s, b] * features[k, s] / (sum_s pi[s, b] + 1e-16)]. *)
Definition acc_entry (N : nat) (pi features : mat) (b k : nat) : fval :=
  fdiv
    (tsum (map (fun s => fmul (fmul (Fin (1 / INR N)) (entry pi s b))
                              (entry features k s))
               (seq 0 (List.length pi))))
    (fadd (tsum (map (fun s => entry pi s b) (seq 0 (List.length pi))))
          (Fin 1e-16)).

(** The vector of length [n] with entries [f 0 .. f (n-1)], and the [n] by
    [m] matrix with entries [f i j]: the form in which the specification
    writes its formulas. *)
Definition mk_vec (n : nat) (f : nat -> fval) : vec := map f (seq 0 n).
Definition mk_mat (n m : nat) (f : nat -> nat -> fval) : mat :=
  map (fun i => mk_vec m (f i)) (seq 0 n).

(** *** The barycenter feature update *)

(** The min-max rescaling of one column of barycenter features (one
    feature dimension over the barycenter points), as the specification
    words it. *)
Definition reduce_min (c : vec) : fval :=
  match c with
  | [] => NaN
  | a :: rest => fold_left fmin2 rest a
  end.

Definition reduce_max (c : vec) : fval :=
  match c with
  | [] => NaN
  | a :: rest => fold_left fmax2 rest a
  end.

Definition rescale (mn mx c : fval) : fval :=
  fsub (fdiv (fmul (Fin 2) (fsub c mn)) (fsub mx mn)) (Fin 1).

Definition rescale_column (c : vec) : vec :=
  map (rescale (reduce_min c) (reduce_max c)) c.

(** *** The calls the fitter makes *)

Section CallLog.

Context {Mask Loss Steps Times Settings : Type}.

Local Abbreviation event := (c2f_event Mask Loss Steps Times Settings).

(** The plan a call handed back, when it returned. *)
Definition ev_pi (e : event) : mat :=
  match ev_result e with
  | Ok (fine_mapping, _) => pi fine_mapping
  | Raise _ => []
  end.

Definition ev_loss (e : event) : option (loss_record Loss Steps Times) :=
  match ev_result e with
  | Ok (fm, _) => Some (loss fm, loss_steps fm, loss_times fm)
  | Raise _ => None
  end.

Definition ev_ok (e : event) : Prop :=
  exists fine_mapping mask, ev_result e = Ok (fine_mapping, mask).

(** The sparsity mask is threaded through the calls in the order they are
    made: each call receives what the call before it returned, the first
    one [m]; a call that raises is the last. *)
Fixpoint mask_chain (m : option Mask) (evs : list event) : Prop :=
  match evs with
  | [] => True
  | e :: rest =>
      sparsity_mask (ev_args e) = m /\
      match ev_result e with
      | Ok (_, m') => mask_chain m' rest
      | Raise _ => rest = []
      end
  end.

(** The mask in hand after the calls [evs], all of which returned. *)
Fixpoint chain_out (m : option Mask) (evs : list event) : option Mask :=
  match evs with
  | [] => m
  | e :: rest =>
      match ev_result e with
      | Ok (_, m') => chain_out m' rest
      | Raise _ => m
      end
  end.

(** What holds of every call of a round of [fit] that starts from the plans
    [plans] and the barycenter features [bf]. *)
Definition call_in_round
  (coarse_to_fine_fit :
     c2f_args Mask Settings -> result (FUGWSparse Loss Steps Times * option Mask))
  (weights_list : list vec) (features_list : list mat) (cfg : Settings)
  (barycenter_weights : vec)
  (plans : option (list mat)) (bf : mat) (e : event) : Prop :=
  ev_result e = coarse_to_fine_fit (ev_args e) /\
  target_weights (ev_args e) = barycenter_weights /\
  target_features (ev_args e) = bf /\
  settings (ev_args e) = cfg /\
  warm_start plans (ev_individual e) = Ok (init_plan (ev_args e)) /\
  nth_error (combine features_list weights_list) (ev_individual e)
  = Some (source_features (ev_args e), source_weights (ev_args e)).

End CallLog.

(** A collaborator to run the fitter with: it hands back the warm-start
    plan it was given, or else a plan of ones with one row per source
    point and one column, and numbers the masks it returns, starting from
    [0] when it is given none. *)
Definition demo_c2f (args : c2f_args nat unit)
  : result (FUGWSparse unit unit unit * option nat) :=
  Ok ({| pi := match init_plan args with
               | Some p => p
               | None => map (fun _ => [Fin 1]) (hd [] (source_features args))
               end;
         loss := tt; loss_steps := tt; loss_times := tt |},
      match sparsity_mask args with
      | None => Some 0%nat
      | Some k => Some (S k)
      end).

(** Two individuals, of one and two points, with one feature each. *)
Definition demo_weights : list vec := [[Fin 1]; [Fin 1; Fin 1]].
Definition demo_features : list mat := [[[Fin 3]]; [[Fin 5; Fin 6]]].

(** *** The solvers *)

(** [(a - b).abs().max()] on vectors with an entry. *)
Definition max_abs_change (a b : vec) : fval :=
  reduce_max (map fabs (vmap2 fsub a b)).

(** The test of [solver_scaling] and [solver_mm], at a checkpoint that
    does not raise. *)
Definition converged_spec (idx eval_freq : Z) (tol : fval)
  (a a_prev b b_prev : vec) : bool :=
  ((idx mod eval_freq) =? 0)%Z &&
  fltb (py_max2 (max_abs_change a a_prev) (max_abs_change b b_prev)) tol.

(** The alternating update as the specification words it, entry by entry:
    [vy_j <- - tau_y * logsumexp over the source points i of
    ((vx_i + log_px_i) - C_ij / eps)], then [vx_i <- - tau_x * logsumexp
    over the target points j of ((vy_j + log_py_j) - C_ij / eps)], a dual
    whose [rho] is zero being set to zero. *)
Definition scaling_vy_spec (n m : nat) (cost : mat) (log_px : vec)
  (rho_y eps : fval) (vx : vec) : vec :=
  mk_vec m (fun j =>
    if feqb rho_y (Fin 0) then Fin 0
    else
      fmul (fneg (scaling_tau rho_y eps))
        (logsumexp
           (mk_vec n (fun i =>
              fsub (fadd (nth i vx NaN) (nth i log_px NaN))
                   (fdiv (entry cost i j) eps))))).

Definition scaling_vx_spec (n m : nat) (cost : mat) (log_py : vec)
  (rho_x eps : fval) (vy : vec) : vec :=
  mk_vec n (fun i =>
    if feqb rho_x (Fin 0) then Fin 0
    else
      fmul (fneg (scaling_tau rho_x eps))
        (logsumexp
           (mk_vec m (fun j =>
              fsub (fadd (nth j vy NaN) (nth j log_py NaN))
                   (fdiv (entry cost i j) eps))))).

Definition scaling_step_spec (n m : nat) (cost : mat) (log_px log_py : vec)
  (rho_x rho_y eps : fval) (duals : vec * vec) : vec * vec :=
  let vy := scaling_vy_spec n m cost log_px rho_y eps (fst duals) in
  let vx := scaling_vx_spec n m cost log_py rho_x eps vy in
  (vx, vy).

(** [pi_ij = pxy_ij * exp (vx_i + vy_j - C_ij / eps)] *)
Definition scaling_coupling_spec (n m : nat) (cost pxy : mat) (eps : fval)
  (vx vy : vec) : mat :=
  mk_mat n m (fun i j =>
    fmul (entry pxy i j)
         (fexp (fsub (fadd (nth i vx NaN) (nth j vy NaN))
                     (fdiv (entry cost i j) eps)))).

(** The convergence test of the iteration [idx] that takes [duals] to its
    successor. *)
Definition scaling_stop (n m : nat) (cost : mat) (log_px log_py : vec)
  (rho_x rho_y eps tol : fval) (eval_freq : Z)
  (idx : Z) (duals : vec * vec) : bool :=
  let duals' := scaling_step_spec n m cost log_px log_py rho_x rho_y eps duals in
  converged_spec idx eval_freq tol
    (fst duals') (fst duals) (snd duals') (snd duals).

(** The quantities of the specification: [S = rho_x + rho_y + eps],
    [tau_x = rho_x / S], [tau_y = rho_y / S], [r = eps / S]. *)
Definition mm_S (rho_x rho_y eps : fval) : fval := fadd (fadd rho_x rho_y) eps.
Definition mm_tau (rho rho_x rho_y eps : fval) : fval :=
  fdiv rho (mm_S rho_x rho_y eps).
Definition mm_r (rho_x rho_y eps : fval) : fval :=
  fdiv eps (mm_S rho_x rho_y eps).

(** [K_ij = px_i ^ (tau_x + r) * py_j ^ (tau_y + r) * exp (- C_ij / S)] *)
Definition mm_kernel_spec (n m : nat) (cost : mat) (px py : vec)
  (rho_x rho_y eps : fval) : mat :=
  mk_mat n m (fun i j =>
    fmul (fmul (fpow (nth i px NaN)
                     (fadd (mm_tau rho_x rho_x rho_y eps) (mm_r rho_x rho_y eps)))
               (fpow (nth j py NaN)
                     (fadd (mm_tau rho_y rho_x rho_y eps) (mm_r rho_x rho_y eps))))
         (fexp (fdiv (fneg (entry cost i j)) (mm_S rho_x rho_y eps)))).

(** The row and column mass vectors of a coupling. *)
Definition row_mass (n m : nat) (pi : mat) : vec :=
  mk_vec n (fun i => tsum (mk_vec m (fun j => entry pi i j))).
Definition col_mass (n m : nat) (pi : mat) : vec :=
  mk_vec m (fun j => tsum (mk_vec n (fun i => entry pi i j))).

(** [pi_ij <- pi_ij ^ (tau_x + tau_y) / (row_i ^ tau_x * col_j ^ tau_y) *
    K_ij] *)
Definition mm_step_spec (n m : nat) (cost : mat) (px py : vec)
  (rho_x rho_y eps : fval) (pi : mat) : mat :=
  mk_mat n m (fun i j =>
    fmul (fdiv (fpow (entry pi i j)
                     (fadd (mm_tau rho_x rho_x rho_y eps)
                           (mm_tau rho_y rho_x rho_y eps)))
               (fmul (fpow (nth i (row_mass n m pi) NaN)
                           (mm_tau rho_x rho_x rho_y eps))
                     (fpow (nth j (col_mass n m pi) NaN)
                           (mm_tau rho_y rho_x rho_y eps))))
         (entry (mm_kernel_spec n m cost px py rho_x rho_y eps) i j)).

(** The convergence test of iteration [idx], which takes [pi] to its
    successor: at a checkpoint, the largest absolute change of the row
    masses and that of the column masses, the larger of the two below
    [tol]. *)
Definition mm_stop (n m : nat) (cost : mat) (px py : vec)
  (rho_x rho_y eps tol : fval) (eval_freq : Z) (idx : Z) (pi : mat) : bool :=
  let pi' := mm_step_spec n m cost px py rho_x rho_y eps pi in
  converged_spec idx eval_freq tol
    (row_mass n m pi') (row_mass n m pi) (col_mass n m pi') (col_mass n m pi).

(** The iterate of the loop, from the coupling alone. *)
Definition mm_state (n m : nat) (pi : mat) : vec * vec * mat :=
  (row_mass n m pi, col_mass n m pi, pi).

(** *** Loops that may raise *)

(** [continues body idxs s s']: the iterations [idxs], run from [s], all
    end normally without a [break], and leave the state [s']. *)
Inductive continues {St : Type} (body : Z -> St -> result (ctl St))
  : list Z -> St -> St -> Prop :=
| continues_nil s : continues body [] s s
| continues_cons idx rest s s' s'' :
    body idx s = Ok (Continue s') ->
    continues body rest s' s'' ->
    continues body (idx :: rest) s s''.

(** The body of the loop of [solver_dc], with the kernel and the exponents
    the solver computes before the loop. *)
Definition dc_loop_body (cost : mat) (px py : vec) (rho1 rho2 eps eps_base : fval)
  (tol : fval) (eval_freq : Z) : Z -> dc_state -> result (ctl dc_state) :=
  dc_body (mmap fexp (mmap (fun c => fdiv (fneg c) (fadd eps_base eps)) cost))
    px py rho1 rho2
    (dc_tau rho1 (fadd eps_base eps)) (dc_tau rho2 (fadd eps_base eps))
    eps_base (fadd eps_base eps) tol eval_freq.

(** The scaling vectors and the coupling after one more iteration. *)
Definition dc_advance (cost : mat) (px py : vec) (rho1 rho2 eps eps_base : fval)
  (st : dc_state) : vec * vec * mat :=
  let '(u, v, pi, _) := st in
  dc_update (mmap fexp (mmap (fun c => fdiv (fneg c) (fadd eps_base eps)) cost))
    px py rho1 rho2
    (dc_tau rho1 (fadd eps_base eps)) (dc_tau rho2 (fadd eps_base eps))
    eps_base (fadd eps_base eps) u v pi.

(** The row mass of that coupling: what a checkpoint recomputes. *)
Definition dc_mass_after (cost : mat) (px py : vec) (rho1 rho2 eps eps_base : fval)
  (st : dc_state) : vec :=
  sum_dim1 (snd (dc_advance cost px py rho1 rho2 eps eps_base st)).

(** The row mass kept from the last checkpoint (from the initial coupling
    before the first). *)
Definition dc_last_mass (st : dc_state) : vec := snd st.

(** *** Signs, shapes and outcomes *)

(** [a < 0] is false: [a] is a nonnegative number, [+inf] or [nan]. *)
Definition never_negative (a : fval) : Prop := fltb a (Fin 0) = false.

Definition mat_never_negative (A : mat) : Prop :=
  Forall (Forall never_negative) A.

(** What every iteration of the dc loop keeps on an [n] by [m] problem. *)
Definition dc_shaped (n m : nat) (st : dc_state) : Prop :=
  List.length (fst (fst (fst st))) = n /\
  List.length (snd (fst (fst st))) = m /\
  has_shape n m (snd (fst st)) /\
  List.length (snd st) = n.

(** *** How a call of the fitter ends *)

(** [torch.isnan(plan).any()] is false. *)
Definition nan_free (plan : mat) : Prop :=
  existsb (existsb is_nan) plan = false.

Section CallOutcome.

Context {Mask Loss Steps Times Settings : Type}.

(** The exception a call to the collaborator makes [compute_all_ot_plans]
    raise, if any: the one the collaborator raised, or the [ValueError] of
    the check of the plan it returned. *)
Definition call_failure (e : c2f_event Mask Loss Steps Times Settings)
  : option exn :=
  match ev_result e with
  | Raise err => Some err
  | Ok (fine_mapping, _) =>
      if existsb (existsb is_nan) (pi fine_mapping)
      then Some (ValueError fine_plan_nan)
      else None
  end.

End CallOutcome.

Arguments l_idx {Mask Loss Steps Times} _.
Arguments l_plans {Mask Loss Steps Times} _.
Arguments l_barycenter_weights {Mask Loss Steps Times} _.
Arguments l_barycenter_features {Mask Loss Steps Times} _.
Arguments l_losses_each_bar_step {Mask Loss Steps Times} _.

(** A collaborator that raises on every call. *)
Definition failing_c2f (args : c2f_args nat unit)
  : result (FUGWSparse unit unit unit * option nat) :=
  Raise (ForeignError "coarse_to_fine.fit failed").

(** A callback that returns on every call. *)
Definition quiet_callback (locals : fit_locals nat unit unit unit)
  : result unit := Ok tt.

(** A collaborator that returns the same plan, free of [nan], on every
    call. *)
Definition constant_c2f (args : c2f_args nat unit)
  : result (FUGWSparse unit unit unit * option nat) :=
  Ok ({| pi := [[Fin 1]]; loss := tt; loss_steps := tt; loss_times := tt |},
      None).

(** ** Facts on scalars *)

Lemma Rsign_pos x : 0 < x -> Rsign x = Gt.
Proof.
  intros H. unfold Rsign.
  destruct (total_order_T x 0) as [[Hlt | Heq] | Hgt]; trivial; lra.
Qed.

Lemma Rsign_neg x : x < 0 -> Rsign x = Lt.
Proof.
  intros H. unfold Rsign.
  destruct (total_order_T x 0) as [[Hlt | Heq] | Hgt]; trivial; lra.
Qed.

Lemma Rsign_zero : Rsign 0 = Eq.
Proof.
  unfold Rsign.
  destruct (total_order_T 0 0) as [[Hlt | Heq] | Hgt]; trivial; lra.
Qed.

Lemma Rsign_nonzero x : x <> 0 -> Rsign x <> Eq.
Proof.
  intros H. unfold Rsign.
  destruct (total_order_T x 0) as [[Hlt | Heq] | Hgt]; congruence.
Qed.

Lemma Rsign_spec x :
  (x < 0 /\ Rsign x = Lt) \/ (x = 0 /\ Rsign x = Eq) \/ (0 < x /\ Rsign x = Gt).
Proof.
  unfold Rsign.
  destruct (total_order_T x 0) as [[Hlt | Heq] | Hgt]; auto.
Qed.

Lemma Rltb_true x y : x < y -> Rltb x y = true.
Proof. intros H. unfold Rltb. destruct (Rlt_dec x y); trivial; lra. Qed.

Lemma Rltb_false x y : y <= x -> Rltb x y = false.
Proof. intros H. unfold Rltb. destruct (Rlt_dec x y); trivial; lra. Qed.

Lemma Rltb_spec x y : Rltb x y = true <-> x < y.
Proof. unfold Rltb. destruct (Rlt_dec x y); split; intros; congruence || lra. Qed.

Lemma Reqb_refl x : Reqb x x = true.
Proof. unfold Reqb. destruct (Req_dec_T x x); congruence. Qed.

Lemma Reqb_neq x y : x <> y -> Reqb x y = false.
Proof. intros H. unfold Reqb. destruct (Req_dec_T x y); congruence. Qed.

Lemma tsum_Fin (l : list R) : tsum (map Fin l) = Fin (Rsum l).
Proof.
  unfold tsum, Rsum.
  induction l as [| x l IH]; cbn [map fold_right]; trivial.
  rewrite IH. reflexivity.
Qed.

(** One entry of the entropy sum, on finite nonnegative operands: the IEEE
    special values reproduce the case analysis of [kl_term]. *)
Lemma entropy_term (p q : R) :
  0 <= p -> 0 <= q ->
  nan_to_num (Fin 0) (Fin 0) (Fin 0) (fmul (Fin p) (flog (fdiv (Fin p) (Fin q))))
  = Fin (kl_term p q).
Proof.
  intros Hp Hq. unfold kl_term.
  destruct (Req_dec_T p 0) as [-> | Hp0].
  - cbn [fdiv].
    destruct (Rsign_spec q) as [[H E] | [[H E] | [H E]]]; rewrite E; try lra.
    + rewrite Rsign_zero. reflexivity.
    + cbn [inf_of_sign]. unfold Rdiv. rewrite Rmult_0_l.
      cbn [flog]. rewrite Rsign_zero. cbn.
      rewrite Rsign_zero. reflexivity.
  - assert (0 < p) as Hpos by lra.
    destruct (Req_dec_T q 0) as [-> | Hq0].
    + cbn [fdiv]. rewrite Rsign_zero, (Rsign_pos p Hpos). cbn.
      rewrite (Rsign_pos p Hpos). reflexivity.
    + assert (0 < q) as Hqpos by lra.
      cbn [fdiv]. rewrite (Rsign_pos q Hqpos).
      assert (0 < p / q) as Hr by (apply Rdiv_lt_0_compat; assumption).
      cbn [flog]. rewrite (Rsign_pos _ Hr). reflexivity.
Qed.

Lemma compute_approx_kl_Fin (p q : list R) :
  Forall (fun x => 0 <= x) p -> Forall (fun x => 0 <= x) q ->
  compute_approx_kl (map Fin p) (map Fin q) = Fin (Rsum (map2 kl_term p q)).
Proof.
  unfold compute_approx_kl. intros Hp. revert q.
  induction Hp as [| x p Hx Hp IH]; intros q Hq; [reflexivity |].
  destruct Hq as [| y q Hy Hq]; [reflexivity |].
  cbn [map map2 tsum fold_right].
  rewrite entropy_term by assumption.
  specialize (IH q Hq). unfold tsum in IH. rewrite IH. reflexivity.
Qed.

Lemma compute_kl_Fin (p q : list R) :
  Forall (fun x => 0 <= x) p -> Forall (fun x => 0 <= x) q ->
  compute_kl (map Fin p) (map Fin q) = Fin (generalizedKL p q).
Proof.
  intros Hp Hq. unfold compute_kl, generalizedKL.
  rewrite compute_approx_kl_Fin, !tsum_Fin by assumption.
  cbn. f_equal.
Qed.

(** ** The generalized KL divergence *)

(** The entropy sum runs over the entries of [p] and [q] side by side. *)
Lemma compute_approx_kl_entries (p q : vec) :
  compute_approx_kl p q = tsum (map2 entropy_entry p q).
Proof.
  unfold compute_approx_kl. f_equal. revert q.
  induction p as [| a p IH]; intros [| b q]; cbn [map map2]; trivial.
  now rewrite IH.
Qed.

Lemma entropy_entry_finite (a b : fval) : is_finite (entropy_entry a b) = true.
Proof.
  unfold entropy_entry. now destruct (fmul a (flog (fdiv a b))).
Qed.

(** A term with [p = 0] counts for zero, whatever [q]: the quotient is
    zero or [nan], its logarithm [-inf] or [nan], and the product with
    zero is [nan]. *)
Lemma entropy_entry_zero (b : fval) : entropy_entry (Fin 0) b = Fin 0.
Proof.
  unfold entropy_entry. destruct b as [y | | |]; cbn [fdiv].
  - destruct (Rsign_spec y) as [[H E] | [[H E] | [H E]]]; rewrite E.
    + replace (0 / y) with 0 by (unfold Rdiv; ring).
      cbn [flog]. rewrite Rsign_zero. cbn. now rewrite Rsign_zero.
    + rewrite Rsign_zero. reflexivity.
    + replace (0 / y) with 0 by (unfold Rdiv; ring).
      cbn [flog]. rewrite Rsign_zero. cbn. now rewrite Rsign_zero.
  - cbn. rewrite Rsign_zero. reflexivity.
  - cbn. rewrite Rsign_zero. reflexivity.
  - reflexivity.
Qed.

(** A term with [q = 0 < p] counts for zero too: [p * log (p / 0)] is
    [+inf]. *)
Lemma entropy_entry_dropped (a : R) : 0 < a -> entropy_entry (Fin a) (Fin 0) = Fin 0.
Proof.
  intros Ha. unfold entropy_entry. cbn [fdiv].
  rewrite Rsign_zero, (Rsign_pos a Ha). cbn. now rewrite (Rsign_pos a Ha).
Qed.

(** C7, as amended.  On [p] and [q] of equal shape [compute_kl] returns
    the sum of the terms [p_i * log (p_i / q_i)], minus the sum of [p],
    plus the sum of [q], where every term that is not finite is replaced
    by zero before the summation: the terms with [p_i = 0] (zero times the
    logarithm of zero, zero over zero), and also the terms with
    [q_i = 0 < p_i], which are [+inf]; a term that is finite is kept.
    Every term that enters the sum is finite. *)
Theorem compute_kl_terms (p q : vec) :
  List.length p = List.length q ->
  compute_kl p q
  = fadd (fsub (tsum (map2 entropy_entry p q)) (tsum p)) (tsum q) /\
  Forall (fun t => is_finite t = true) (map2 entropy_entry p q) /\
  (forall b, entropy_entry (Fin 0) b = Fin 0) /\
  (forall a, 0 < a -> entropy_entry (Fin a) (Fin 0) = Fin 0) /\
  (forall a b, is_finite (fmul a (flog (fdiv a b))) = true ->
     entropy_entry a b = fmul a (flog (fdiv a b))).
Proof.
  intros _. split; [| split; [| split; [| split]]].
  - unfold compute_kl. now rewrite compute_approx_kl_entries.
  - revert q. induction p as [| a p IH]; intros [| b q]; cbn [map2];
      constructor; [apply entropy_entry_finite | apply IH].
  - exact entropy_entry_zero.
  - exact entropy_entry_dropped.
  - intros a b H. unfold entropy_entry.
    now destruct (fmul a (flog (fdiv a b))).
Qed.

Lemma compute_kl_terms_witness :
  compute_kl [Fin 1; Fin 0; Fin 2] [Fin 3; Fin 0; Fin 0]
  = fadd (fsub (tsum (map2 entropy_entry [Fin 1; Fin 0; Fin 2]
                        [Fin 3; Fin 0; Fin 0]))
               (tsum [Fin 1; Fin 0; Fin 2]))
         (tsum [Fin 3; Fin 0; Fin 0]) /\
  Forall (fun t => is_finite t = true)
    (map2 entropy_entry [Fin 1; Fin 0; Fin 2] [Fin 3; Fin 0; Fin 0]).
Proof.
  destruct (compute_kl_terms [Fin 1; Fin 0; Fin 2] [Fin 3; Fin 0; Fin 0]
              eq_refl) as [H1 [H2 _]].
  split; [exact H1 | exact H2].
Defined.

(** C7 as stated fails where [q] has a zero that [p] has not: the term
    [1 * log (1 / 0)] is [+inf] and does not come from a zero-over-zero
    ratio, so the value the claim words is [+inf]; the code replaces the
    term by zero and returns [-1]. *)
Lemma stated_formula_counterexample :
  compute_kl [Fin 1] [Fin 0] = Fin (-1) /\
  generalizedKL_stated [Fin 1] [Fin 0] = PInf /\
  compute_kl [Fin 1] [Fin 0] <> generalizedKL_stated [Fin 1] [Fin 0].
Proof.
  assert (compute_kl [Fin 1] [Fin 0] = Fin (-1)) as H1.
  { change [Fin 1] with (map Fin [1]). change [Fin 0] with (map Fin [0]).
    rewrite compute_kl_Fin by (repeat constructor; lra).
    f_equal. unfold generalizedKL, kl_term. cbn.
    destruct (Req_dec_T 1 0); [lra |]. destruct (Req_dec_T 0 0); lra. }
  assert (generalizedKL_stated [Fin 1] [Fin 0] = PInf) as H2.
  { unfold generalizedKL_stated, stated_entry. cbn [map2 feqb].
    rewrite Reqb_neq by lra. cbn [fdiv].
    rewrite Rsign_zero, (Rsign_pos 1) by lra. cbn.
    rewrite (Rsign_pos 1) by lra. reflexivity. }
  split; [exact H1 |]. split; [exact H2 |]. rewrite H1, H2. discriminate.
Qed.

Lemma kl_term_self (x : R) : kl_term x x = 0.
Proof.
  unfold kl_term. destruct (Req_dec_T x 0) as [-> | Hx]; trivial.
  destruct (Req_dec_T x 0); [contradiction |].
  replace (x / x) with 1 by (field; exact Hx). rewrite ln_1. ring.
Qed.

Lemma kl_term_disjoint (a b : R) : a = 0 \/ b = 0 -> kl_term a b = 0.
Proof.
  unfold kl_term. intros [-> | ->].
  - destruct (Req_dec_T 0 0); [reflexivity | contradiction].
  - destruct (Req_dec_T a 0); trivial.
    destruct (Req_dec_T 0 0); [reflexivity | contradiction].
Qed.

Lemma Rsum_pos (p : list R) :
  p <> [] -> Forall (fun x => 0 < x) p -> 0 < Rsum p.
Proof.
  intros Hne H. destruct H as [| x p Hx Hp]; [congruence |].
  unfold Rsum. cbn [fold_right].
  assert (0 <= fold_right Rplus 0 p) as Hrest.
  { clear Hne Hx. induction Hp as [| y p Hy _ IH]; cbn [fold_right]; lra. }
  lra.
Qed.

(** C2, as amended.  For every nonnegative finite [p] whose sum is finite
    [compute_kl p p] is exactly zero.  The divergence is neither
    nonnegative nor zero only at [p = q]: on nonnegative finite [p] and
    [q] of equal shape with disjoint supports ([p_i = 0] or [q_i = 0] at
    every [i]) every term of the entropy sum is replaced by zero and
    [compute_kl p q] is [(0 - sum p) + sum q]; it is negative when [q] is
    zero throughout and [p] positive throughout. *)
Theorem compute_kl_self_and_disjoint (p q : list R) :
  Forall (fun x => 0 <= x) p -> Forall (fun x => 0 <= x) q ->
  List.length p = List.length q ->
  (is_finite (tsum (map Fin p)) = true ->
   compute_kl (map Fin p) (map Fin p) = Fin 0) /\
  (Forall2 (fun a b => a = 0 \/ b = 0) p q ->
   compute_kl (map Fin p) (map Fin q)
   = fadd (fsub (Fin 0) (tsum (map Fin p))) (tsum (map Fin q))) /\
  (p <> [] -> Forall (fun x => 0 < x) p ->
   fltb (compute_kl (map Fin p) (map (fun _ => Fin 0) p)) (Fin 0) = true).
Proof.
  intros Hp Hq _. split; [| split].
  - intros _. rewrite compute_kl_Fin by assumption. f_equal.
    unfold generalizedKL.
    assert (Rsum (map2 kl_term p p) = 0) as ->; [| lra].
    clear. induction p as [| x p IH]; [reflexivity |].
    cbn [map2]. unfold Rsum in *. cbn [fold_right].
    rewrite kl_term_self, IH. lra.
  - intros Hdis. rewrite compute_kl_Fin, !tsum_Fin by assumption.
    cbn. f_equal. unfold generalizedKL.
    assert (Rsum (map2 kl_term p q) = 0) as ->; [| lra].
    clear Hp Hq. induction Hdis as [| a b p q Hab _ IH]; [reflexivity |].
    cbn [map2]. unfold Rsum in *. cbn [fold_right].
    rewrite (kl_term_disjoint a b Hab), IH. lra.
  - intros Hne Hpos.
    replace (map (fun _ : R => Fin 0) p) with (map Fin (map (fun _ => 0) p))
      by now rewrite map_map.
    rewrite compute_kl_Fin; trivial.
    2:{ apply Forall_map, Forall_forall. intros x _. lra. }
    cbn [fltb]. apply Rltb_true. unfold generalizedKL.
    assert (Rsum (map2 kl_term p (map (fun _ => 0) p)) = 0) as ->.
    { clear. induction p as [| x p IH]; [reflexivity |].
      cbn [map map2]. unfold Rsum in *. cbn [fold_right].
      rewrite (kl_term_disjoint x 0 (or_intror eq_refl)), IH. lra. }
    assert (Rsum (map (fun _ => 0) p) = 0) as ->.
    { clear. induction p as [| x p IH]; [reflexivity |].
      cbn [map]. unfold Rsum in *. cbn [fold_right]. rewrite IH. lra. }
    pose proof (Rsum_pos p Hne Hpos). lra.
Qed.

Lemma compute_kl_self_and_disjoint_witness :
  compute_kl (map Fin [1; 0; 2]) (map Fin [1; 0; 2]) = Fin 0 /\
  compute_kl (map Fin [1; 0; 2]) (map Fin [0; 3; 0])
  = fadd (fsub (Fin 0) (tsum (map Fin [1; 0; 2]))) (tsum (map Fin [0; 3; 0])).
Proof.
  destruct (compute_kl_self_and_disjoint [1; 0; 2] [0; 3; 0])
    as [_ [H2 _]]; try reflexivity; try (repeat constructor; lra).
  destruct (compute_kl_self_and_disjoint [1; 0; 2] [1; 0; 2])
    as [H1 _]; try reflexivity; try (repeat constructor; lra).
  split.
  - apply H1. rewrite tsum_Fin. reflexivity.
  - apply H2. repeat constructor; lra.
Defined.

(** C2 as stated fails where [q] has a zero that [p] has not: the entry
    [1 * log (1 / 0)] is [+inf] and is replaced by zero, so the divergence
    of [[1]] from [[0]] is [-1]; and the divergence of [[1; 0]] from
    [[0; 1]] is zero although the two differ. *)
Lemma compute_kl_negative_counterexample :
  compute_kl [Fin 1] [Fin 0] = Fin (-1) /\
  fltb (compute_kl [Fin 1] [Fin 0]) (Fin 0) = true /\
  compute_kl [Fin 1; Fin 0] [Fin 0; Fin 1] = Fin 0 /\
  [Fin 1; Fin 0] <> [Fin 0; Fin 1].
Proof.
  assert (compute_kl [Fin 1] [Fin 0] = Fin (-1)) as H1.
  { change [Fin 1] with (map Fin [1]). change [Fin 0] with (map Fin [0]).
    rewrite compute_kl_Fin by (repeat constructor; lra).
    f_equal. unfold generalizedKL, kl_term. cbn.
    destruct (Req_dec_T 1 0); [lra |]. destruct (Req_dec_T 0 0); lra. }
  split; [exact H1 | split; [| split]].
  - rewrite H1. cbn. apply Rltb_true. lra.
  - change [Fin 1; Fin 0] with (map Fin [1; 0]).
    change [Fin 0; Fin 1] with (map Fin [0; 1]).
    rewrite compute_kl_Fin by (repeat constructor; lra).
    f_equal. unfold generalizedKL, kl_term. cbn.
    destruct (Req_dec_T 1 0); [lra |]. destruct (Req_dec_T 0 0); lra.
  - intros H. injection H as H _. lra.
Qed.

(** ** Indexing lists and matrices *)

Lemma map2_length {A B C} (f : A -> B -> C) l l' :
  List.length (map2 f l l') = Nat.min (List.length l) (List.length l').
Proof.
  revert l'. induction l as [| a l IH]; intros [| b l']; cbn; auto.
Qed.

Lemma nth_map2 {A B C} (f : A -> B -> C) l l' i da db dc :
  (i < List.length l)%nat -> (i < List.length l')%nat ->
  nth i (map2 f l l') dc = f (nth i l da) (nth i l' db).
Proof.
  revert l' i. induction l as [| a l IH]; intros [| b l'] [| i]; cbn;
    intros H H'; try lia; trivial.
  apply IH; lia.
Qed.

Lemma nth_map_in {A B} (f : A -> B) l i da db :
  (i < List.length l)%nat -> nth i (map f l) db = f (nth i l da).
Proof.
  intros H. rewrite (nth_indep _ db (f da)) by (rewrite length_map; exact H).
  apply map_nth.
Qed.

Lemma map2_map_l {A A' B C} (f : A' -> B -> C) (g : A -> A') l l' :
  map2 f (map g l) l' = map2 (fun a b => f (g a) b) l l'.
Proof.
  revert l'. induction l as [| a l IH]; intros [| b l']; cbn; trivial.
  now rewrite IH.
Qed.

Lemma map2_map_r {A B B' C} (f : A -> B' -> C) (g : B -> B') l l' :
  map2 f l (map g l') = map2 (fun a b => f a (g b)) l l'.
Proof.
  revert l'. induction l as [| a l IH]; intros [| b l']; cbn; trivial.
  now rewrite IH.
Qed.

Lemma map_map2 {A B C D} (g : C -> D) (f : A -> B -> C) l l' :
  map g (map2 f l l') = map2 (fun a b => g (f a b)) l l'.
Proof.
  revert l'. induction l as [| a l IH]; intros [| b l']; cbn; trivial.
  now rewrite IH.
Qed.

Lemma map2_ext_in {A B C} (f g : A -> B -> C) l l' :
  (forall a b, In a l -> In b l' -> f a b = g a b) ->
  map2 f l l' = map2 g l l'.
Proof.
  revert l'. induction l as [| a l IH]; intros [| b l'] H; cbn; trivial.
  f_equal; [apply H; now left | apply IH; intros; apply H; now right].
Qed.

(** Two lists of length [n] zipped, entry by entry. *)
Lemma map2_seq {A B C} (f : A -> B -> C) l l' n da db :
  List.length l = n -> List.length l' = n ->
  map2 f l l' = map (fun s => f (nth s l da) (nth s l' db)) (seq 0 n).
Proof.
  intros Hl Hl'.
  apply (nth_ext _ _ (f da db) (f da db)).
  - rewrite map2_length, length_map, length_seq. lia.
  - intros i Hi. rewrite map2_length in Hi.
    rewrite (nth_map2 f l l' i da db) by lia.
    rewrite (nth_map_in _ _ i 0%nat) by (rewrite length_seq; lia).
    rewrite seq_nth by lia. reflexivity.
Qed.

Lemma map_seq_nth {A B} (f : A -> B) l da :
  map f l = map (fun s => f (nth s l da)) (seq 0 (List.length l)).
Proof.
  induction l as [| a l IH]; cbn; trivial.
  f_equal. rewrite IH at 1. rewrite <- seq_shift, map_map. reflexivity.
Qed.

Lemma length_col j A : List.length (col j A) = List.length A.
Proof. apply length_map. Qed.

Lemma length_transpose A : List.length (transpose A) = ncols A.
Proof. unfold transpose. now rewrite length_map, length_seq. Qed.

Lemma nth_transpose A j :
  (j < ncols A)%nat -> nth j (transpose A) [] = col j A.
Proof.
  intros H. unfold transpose.
  rewrite (nth_map_in _ _ j 0%nat) by (rewrite length_seq; exact H).
  now rewrite seq_nth.
Qed.

Lemma nth_col A i j :
  (i < List.length A)%nat -> nth i (col j A) NaN = entry A i j.
Proof.
  intros H. unfold col, entry.
  exact (nth_map_in (fun row => nth j row NaN) A i [] NaN H).
Qed.

Lemma col_seq A j :
  col j A = map (fun s => entry A s j) (seq 0 (List.length A)).
Proof.
  unfold col, entry.
  exact (map_seq_nth (fun row => nth j row NaN) A []).
Qed.

Lemma rectangular_row A row :
  rectangular A -> In row A -> List.length row = ncols A.
Proof. intros H Hin. exact (proj1 (Forall_forall _ _) H row Hin). Qed.

Lemma rectangular_mmap2 op A B :
  rectangular A -> rectangular B -> rectangular (mmap2 op A B).
Proof.
  intros HA HB. destruct A as [| ra A]; [constructor |].
  destruct B as [| rb B]; [constructor |].
  unfold rectangular, mmap2 in *. cbn [ncols map2] in *.
  rewrite map2_length.
  inversion HA as [| ? ? _ HA']; subst. inversion HB as [| ? ? _ HB']; subst.
  constructor; [now rewrite map2_length |].
  clear - HA' HB'. revert B HB'.
  induction HA' as [| r A Hr HA' IH]; intros [| r' B] HB'; cbn; constructor.
  - inversion HB'; subst. rewrite map2_length. congruence.
  - inversion HB'; subst. now apply IH.
Qed.

Lemma ncols_mmap2 op A B :
  ncols (mmap2 op A B) =
  match A, B with
  | ra :: _, rb :: _ => Nat.min (List.length ra) (List.length rb)
  | _, _ => 0%nat
  end.
Proof.
  destruct A as [| ra A], B as [| rb B]; cbn; trivial. apply map2_length.
Qed.

(** ** The barycenter feature update *)

Lemma mapM_ok {A B} (f : A -> result B) (g : A -> B) l :
  (forall a, In a l -> f a = Ok (g a)) -> mapM f l = Ok (map g l).
Proof.
  induction l as [| a l IH]; intros H; cbn; trivial.
  rewrite (H a) by now left. cbn. rewrite IH by (intros; apply H; now right).
  reflexivity.
Qed.

Lemma transpose_columns_nonempty A c :
  A <> [] -> In c (transpose A) -> c <> [].
Proof.
  intros HA Hin Hc. unfold transpose in Hin.
  apply in_map_iff in Hin as [j [<- _]].
  apply (f_equal (@List.length _)) in Hc. rewrite length_col in Hc.
  destruct A; [congruence | discriminate].
Qed.

Lemma tmin_reduce c : c <> [] -> tmin c = Ok (reduce_min c).
Proof. destruct c; [congruence | reflexivity]. Qed.

Lemma tmax_reduce c : c <> [] -> tmax c = Ok (reduce_max c).
Proof. destruct c; [congruence | reflexivity]. Qed.

(** On a matrix with at least one row the normalisation succeeds, and the
    rows of its transpose are the rescaled columns of the input. *)
Lemma normalize_features_columns (A : mat) :
  rectangular A -> A <> [] ->
  exists N, normalize_features A = Ok N /\
            transpose N = map rescale_column (transpose A).
Proof.
  intros Hrect HA.
  set (mins := map reduce_min (transpose A)).
  set (maxs := map reduce_max (transpose A)).
  assert (mapM tmin (transpose A) = Ok mins) as Hmin.
  { apply mapM_ok. intros c Hc. apply tmin_reduce.
    eapply transpose_columns_nonempty; eassumption. }
  assert (mapM tmax (transpose A) = Ok maxs) as Hmax.
  { apply mapM_ok. intros c Hc. apply tmax_reduce.
    eapply transpose_columns_nonempty; eassumption. }
  unfold normalize_features. destruct A as [| row0 A']; [congruence |].
  set (A := row0 :: A') in *.
  rewrite Hmin. cbn [bind]. rewrite Hmax. cbn [bind].
  eexists. split; [reflexivity |].
  set (w := ncols A).
  assert (List.length mins = w) as Lmins
    by (unfold mins; now rewrite length_map, length_transpose).
  assert (List.length maxs = w) as Lmaxs
    by (unfold maxs; now rewrite length_map, length_transpose).
  set (rowfun := fun row : vec =>
    map (fun c => fsub c (Fin 1))
      (map2 fdiv (map (fmul (Fin 2)) (map2 fsub row mins)) (map2 fsub maxs mins))).
  assert (forall row, List.length row = w -> List.length (rowfun row) = w) as Lrow.
  { intros row Hr. unfold rowfun.
    rewrite length_map, map2_length, length_map, !map2_length. lia. }
  assert (forall row j, List.length row = w -> (j < w)%nat ->
            nth j (rowfun row) NaN
            = rescale (nth j mins NaN) (nth j maxs NaN) (nth j row NaN)) as Hnth.
  { intros row j Hr Hj. unfold rowfun, rescale.
    rewrite (nth_map_in _ _ j NaN)
      by (rewrite map2_length, length_map, !map2_length; lia).
    rewrite (nth_map2 fdiv _ _ j NaN NaN)
      by (rewrite ?length_map, !map2_length; lia).
    rewrite (nth_map_in _ _ j NaN) by (rewrite map2_length; lia).
    rewrite !(nth_map2 fsub _ _ j NaN NaN) by lia.
    reflexivity. }
  unfold mmap, bcast_row_r, vmap2.
  rewrite !map_map.
  change (transpose (map rowfun A) = map rescale_column (transpose A)).
  unfold transpose.
  assert (ncols (map rowfun A) = w) as ->.
  { unfold A. cbn [map ncols]. apply Lrow. reflexivity. }
  fold w. rewrite map_map. apply map_ext_in.
  intros j Hj. apply in_seq in Hj.
  unfold rescale_column, col. rewrite !map_map.
  apply map_ext_in. intros row Hrow.
  rewrite Hnth by (try apply rectangular_row; trivial; lia).
  unfold mins, maxs.
  rewrite (nth_map_in reduce_min _ j []) by (rewrite length_transpose; fold w; lia).
  rewrite (nth_map_in reduce_max _ j []) by (rewrite length_transpose; fold w; lia).
  rewrite nth_transpose by (fold w; lia).
  reflexivity.
Qed.

Lemma Rsign_eq0 x : x = 0 -> Rsign x = Eq.
Proof. intros ->. apply Rsign_zero. Qed.

(** Rescaling a value between equal bounds divides zero by zero. *)
Lemma rescale_degenerate (c : fval) : rescale c c c = NaN.
Proof.
  destruct c as [x | | |]; unfold rescale; cbn; trivial.
  rewrite (Rsign_eq0 (x + - x)) by lra.
  rewrite (Rsign_eq0 (2 * (x + - x))) by lra.
  reflexivity.
Qed.

Lemma fmin2_idem c : fmin2 c c = c.
Proof.
  destruct c as [x | | |]; cbn; trivial.
  unfold fmin2. cbn. now rewrite Rltb_false by lra.
Qed.

Lemma fmax2_idem c : fmax2 c c = c.
Proof.
  destruct c as [x | | |]; cbn; trivial.
  unfold fmax2. cbn. now rewrite Rltb_false by lra.
Qed.

Lemma reduce_min_repeat c n : reduce_min (repeat c (S n)) = c.
Proof.
  cbn. induction n as [| n IH]; cbn; trivial. now rewrite fmin2_idem.
Qed.

Lemma reduce_max_repeat c n : reduce_max (repeat c (S n)) = c.
Proof.
  cbn. induction n as [| n IH]; cbn; trivial. now rewrite fmax2_idem.
Qed.

Lemma rescale_column_constant c n :
  rescale_column (repeat c n) = repeat NaN n.
Proof.
  destruct n as [| n]; [reflexivity |].
  unfold rescale_column. rewrite reduce_min_repeat, reduce_max_repeat.
  generalize (S n) as k. induction k as [| k IH]; cbn; trivial.
  now rewrite rescale_degenerate, IH.
Qed.

Lemma fadd_0_l a : fadd (Fin 0) a = a.
Proof. destruct a as [x | | |]; cbn; trivial. f_equal. lra. Qed.

Lemma vadd_zeros (row : vec) :
  map2 fadd (map (fun _ => Fin 0) row) row = row.
Proof.
  induction row as [| a row IH]; cbn [map map2]; trivial.
  now rewrite fadd_0_l, IH.
Qed.

Lemma madd_zeros (A : mat) :
  mmap2 fadd (map (map (fun _ => Fin 0)) A) A = A.
Proof.
  unfold mmap2. induction A as [| row A IH]; cbn [map map2]; trivial.
  now rewrite vadd_zeros, IH.
Qed.

Lemma accumulate_features_fold n i items b :
  accumulate_features n (S i) items (Some b)
  = Ok (Some (fold_left (mmap2 fadd)
                (map (fun '(pi, features) => feature_acc n pi features) items) b)).
Proof.
  revert i b. induction items as [| [pi f] items IH]; intros i b; cbn; trivial.
Qed.

(** The loop with its first-iteration special case computes the sum from a
    zero accumulator. *)
Lemma update_barycenter_features_aggregated plans features_list :
  combine plans features_list <> [] ->
  update_barycenter_features plans features_list
  = (normalized <- normalize_features (aggregated_features plans features_list) ;;
     Ok (transpose normalized)).
Proof.
  intros Hne. unfold update_barycenter_features, aggregated_features.
  destruct (combine plans features_list) as [| [pi f] items]; [congruence |].
  cbn [accumulate_features Nat.eqb map].
  rewrite accumulate_features_fold. cbn [bind fold_left].
  now rewrite madd_zeros.
Qed.

Lemma rectangular_feature_acc n pi features :
  rectangular (feature_acc n pi features).
Proof.
  unfold feature_acc, bcast_col_r, matmul_T, _make_tensor.
  set (X := mmap _ _). set (S := map _ (sum_dim0 pi)).
  assert (forall Y T, Forall (fun row : vec => List.length row = List.length features)
            (map2 (fun (row : vec) (a : fval) => map (fun c => fdiv c a) row)
                  (map (fun a : vec => map (fun b : vec => dot a b) features) Y) T))
    as Hall.
  { induction Y as [| y Y IH]; intros [| t T]; cbn; constructor.
    - now rewrite !length_map.
    - apply IH. }
  specialize (Hall X S). unfold rectangular.
  destruct (map2 _ _ S) as [| r0 M] eqn:E; [constructor |].
  cbn [ncols]. inversion Hall as [| ? ? H0 _]; subst.
  rewrite H0. exact Hall.
Qed.

Lemma rectangular_zeros (A : mat) :
  rectangular A -> rectangular (map (map (fun _ => Fin 0)) A).
Proof.
  unfold rectangular. destruct A as [| r A]; [constructor |].
  cbn [ncols]. change (ncols (map (map (fun _ : fval => Fin 0)) (r :: A)))
    with (List.length (map (fun _ : fval => Fin 0) r)).
  rewrite length_map. intros H.
  apply Forall_map. eapply Forall_impl; [| exact H].
  intros row Hrow. now rewrite length_map.
Qed.

Lemma rectangular_fold accs b :
  rectangular b -> Forall rectangular accs ->
  rectangular (fold_left (mmap2 fadd) accs b).
Proof.
  intros Hb Haccs. revert b Hb.
  induction Haccs as [| acc accs Hacc _ IH]; intros b Hb; cbn; trivial.
  apply IH. now apply rectangular_mmap2.
Qed.

Lemma rectangular_aggregated plans features_list :
  rectangular (aggregated_features plans features_list).
Proof.
  unfold aggregated_features.
  set (accs := map _ (combine plans features_list)).
  assert (Forall rectangular accs) as Hall.
  { unfold accs. apply Forall_map, Forall_forall. intros [pi f] _.
    apply rectangular_feature_acc. }
  destruct accs as [| acc0 accs']; [constructor |].
  apply rectangular_fold; trivial.
  apply rectangular_zeros. now inversion Hall.
Qed.

Lemma aggregated_nonempty_inputs plans features_list :
  aggregated_features plans features_list <> [] ->
  combine plans features_list <> [].
Proof.
  unfold aggregated_features. intros H Hc. rewrite Hc in H. now apply H.
Qed.

(** The update succeeds as soon as the aggregated matrix has a row, and
    row [k] of what it returns is column [k] of the aggregated matrix,
    rescaled. *)
Lemma update_barycenter_features_columns plans features_list :
  aggregated_features plans features_list <> [] ->
  exists out,
    update_barycenter_features plans features_list = Ok out /\
    out = map rescale_column (transpose (aggregated_features plans features_list)).
Proof.
  intros Hne.
  rewrite update_barycenter_features_aggregated
    by now apply aggregated_nonempty_inputs.
  destruct (normalize_features_columns _
              (rectangular_aggregated plans features_list) Hne) as [N [HN HT]].
  rewrite HN. cbn [bind]. eexists. split; [reflexivity | exact HT].
Qed.

(** C10. The final normalisation divides by [max - min] as it is: when a
    feature dimension [k] of the aggregated matrix takes one value [c] on
    every barycenter point, the update returns, and every entry of the
    returned matrix in dimension [k] is [nan], there being at least one;
    the floor [1e-16] only protects the division of each individual's
    term. *)
Theorem normalization_unguarded (plans features_list : list mat)
  (k : nat) (c : fval) :
  aggregated_features plans features_list <> [] ->
  (k < ncols (aggregated_features plans features_list))%nat ->
  col k (aggregated_features plans features_list)
  = repeat c (List.length (aggregated_features plans features_list)) ->
  exists out,
    update_barycenter_features plans features_list = Ok out /\
    nth k out []
    = repeat NaN (List.length (aggregated_features plans features_list)) /\
    (0 < List.length (aggregated_features plans features_list))%nat.
Proof.
  intros Hne Hk Hconst.
  destruct (update_barycenter_features_columns plans features_list Hne)
    as [out [Hout ->]].
  exists (map rescale_column (transpose (aggregated_features plans features_list))).
  split; [exact Hout | split].
  - rewrite (nth_map_in rescale_column _ k []) by now rewrite length_transpose.
    rewrite nth_transpose by exact Hk.
    rewrite Hconst. apply rescale_column_constant.
  - destruct (aggregated_features plans features_list); [congruence | cbn; lia].
Qed.

Lemma normalization_unguarded_witness :
  exists out,
    update_barycenter_features
      [[[Fin 1; Fin 1]]; [[Fin 2; Fin 2]; [Fin 0; Fin 0]]]
      [[[Fin 5]; [Fin 6]]; [[Fin 3; Fin 4]; [Fin 1; Fin 7]]] = Ok out /\
    nth 0 out [] = [NaN; NaN].
Proof.
  destruct (normalization_unguarded
              [[[Fin 1; Fin 1]]; [[Fin 2; Fin 2]; [Fin 0; Fin 0]]]
              [[[Fin 5]; [Fin 6]]; [[Fin 3; Fin 4]; [Fin 1; Fin 7]]]
              0 (entry (aggregated_features
                   [[[Fin 1; Fin 1]]; [[Fin 2; Fin 2]; [Fin 0; Fin 0]]]
                   [[[Fin 5]; [Fin 6]]; [[Fin 3; Fin 4]; [Fin 1; Fin 7]]]) 0 0))
    as [out [Hout [Hrow _]]].
  - discriminate.
  - cbn. lia.
  - reflexivity.
  - exists out. split; [exact Hout | exact Hrow].
Defined.

(** *** Shapes and entries *)

Lemma has_shape_row r c A i :
  has_shape r c A -> (i < r)%nat -> List.length (nth i A []) = c.
Proof.
  intros [Hlen Hall] Hi.
  apply (proj1 (Forall_forall _ _) Hall). apply nth_In. lia.
Qed.

Lemma has_shape_mmap2 op r c A B :
  has_shape r c A -> has_shape r c B -> has_shape r c (mmap2 op A B).
Proof.
  intros [LA HA] [LB HB]. split.
  - unfold mmap2. rewrite map2_length. lia.
  - clear LA LB. revert B HB.
    induction HA as [| ra A Hra _ IH]; intros [| rb B] HB; cbn; constructor.
    + inversion HB; subst. rewrite map2_length. lia.
    + inversion HB; subst. now apply IH.
Qed.

Lemma entry_mmap2 op r c A B i j :
  has_shape r c A -> has_shape r c B -> (i < r)%nat -> (j < c)%nat ->
  entry (mmap2 op A B) i j = op (entry A i j) (entry B i j).
Proof.
  intros HA HB Hi Hj. unfold entry, mmap2.
  rewrite (nth_map2 (map2 op) A B i [] [])
    by (destruct HA, HB; lia).
  apply nth_map2.
  - rewrite (has_shape_row r c A i HA Hi). exact Hj.
  - rewrite (has_shape_row r c B i HB Hi). exact Hj.
Qed.

Lemma has_shape_zeros r c A :
  has_shape r c A -> has_shape r c (map (map (fun _ => Fin 0)) A).
Proof.
  intros [L H]. split; [now rewrite length_map |].
  apply Forall_map. eapply Forall_impl; [| exact H].
  intros row Hrow. now rewrite length_map.
Qed.

Lemma entry_zeros r c A i j :
  has_shape r c A -> (i < r)%nat -> (j < c)%nat ->
  entry (map (map (fun _ => Fin 0)) A) i j = Fin 0.
Proof.
  intros HA Hi Hj. unfold entry.
  rewrite (nth_map_in (map (fun _ => Fin 0)) A i []) by (destruct HA; lia).
  apply (nth_map_in (fun _ => Fin 0) _ j NaN).
  now rewrite (has_shape_row r c A i HA Hi).
Qed.

Lemma has_shape_feature_acc N pi features :
  has_shape (ncols pi) (List.length features) (feature_acc N pi features).
Proof.
  unfold feature_acc, bcast_col_r, matmul_T, _make_tensor, mmap, sum_dim0.
  split.
  - rewrite map2_length, !length_map, length_transpose. lia.
  - generalize (map (fun c => fadd c (Fin 1e-16)) (map tsum (transpose pi))).
    generalize (map (map (fmul (Fin (1 / INR N)))) (transpose pi)).
    induction l as [| y Y IH]; intros [| t T]; cbn; constructor.
    + now rewrite !length_map.
    + apply IH.
Qed.

(** The matrix product of the source is the sum over the individual's
    points [s]: the plan is read by column, the features by row. *)
Lemma feature_acc_entry N pi features b k :
  (b < ncols pi)%nat -> (k < List.length features)%nat ->
  List.length (nth k features []) = List.length pi ->
  entry (feature_acc N pi features) b k = acc_entry N pi features b k.
Proof.
  intros Hb Hk Hrow.
  unfold feature_acc, bcast_col_r, matmul_T, _make_tensor, mmap, sum_dim0, entry.
  rewrite (nth_map2 _ _ _ b [] NaN)
    by (rewrite !length_map, length_transpose; exact Hb).
  rewrite (nth_map_in _ _ k NaN)
    by (rewrite (nth_map_in _ _ b []), length_map;
        [exact Hk | rewrite length_map, length_transpose; exact Hb]).
  rewrite (nth_map_in _ _ b [])
    by (rewrite length_map, length_transpose; exact Hb).
  rewrite (nth_map_in _ _ k []) by exact Hk.
  rewrite (nth_map_in (map (fmul (Fin (1 / INR N)))) _ b [])
    by (rewrite length_transpose; exact Hb).
  rewrite (nth_map_in _ _ b NaN)
    by (rewrite length_map, length_transpose; exact Hb).
  rewrite (nth_map_in tsum _ b []) by (rewrite length_transpose; exact Hb).
  rewrite nth_transpose by exact Hb.
  unfold acc_entry, dot. f_equal.
  - f_equal. rewrite map2_map_l.
    rewrite (map2_seq _ (col b pi) (nth k features []) (List.length pi) NaN NaN)
      by (try apply length_col; exact Hrow).
    apply map_ext_in. intros s Hs. apply in_seq in Hs.
    rewrite nth_col by lia. reflexivity.
  - f_equal. f_equal. apply col_seq.
Qed.

Lemma Forall2_combine_in {A B} (P : A -> B -> Prop) l l' a b :
  Forall2 P l l' -> In (a, b) (combine l l') -> P a b.
Proof.
  induction 1 as [| x y l l' Hxy _ IH]; cbn; [tauto |].
  intros [Heq | Hin]; [now inversion Heq; subst | now apply IH].
Qed.

Lemma fold_madd_shape r c accs b0 :
  has_shape r c b0 -> Forall (has_shape r c) accs ->
  has_shape r c (fold_left (mmap2 fadd) accs b0).
Proof.
  intros Hb Hall. revert b0 Hb.
  induction Hall as [| acc accs Hacc _ IH]; intros b0 Hb; cbn; trivial.
  apply IH. now apply has_shape_mmap2.
Qed.

Lemma fold_madd_entry r c accs b0 i j :
  has_shape r c b0 -> Forall (has_shape r c) accs ->
  (i < r)%nat -> (j < c)%nat ->
  entry (fold_left (mmap2 fadd) accs b0) i j
  = fold_left fadd (map (fun A => entry A i j) accs) (entry b0 i j).
Proof.
  intros Hb Hall Hi Hj. revert b0 Hb.
  induction Hall as [| acc accs Hacc _ IH]; intros b0 Hb;
    cbn [fold_left map]; trivial.
  rewrite IH by now apply has_shape_mmap2.
  now rewrite (entry_mmap2 fadd r c).
Qed.

(** When every plan has [B] columns and every feature matrix [F] rows as
    long as its plan, the aggregated matrix is [B] by [F] and its entries
    are the sums over the individuals of their terms. *)
Lemma aggregated_features_entries plans features_list B F :
  plans <> [] ->
  Forall2 (fun pi f => ncols pi = B /\ List.length f = F /\
                       Forall (fun row => List.length row = List.length pi) f)
          plans features_list ->
  has_shape B F (aggregated_features plans features_list) /\
  forall b k, (b < B)%nat -> (k < F)%nat ->
    entry (aggregated_features plans features_list) b k
    = fold_left fadd
        (map (fun '(pi, f) => acc_entry (List.length features_list) pi f b k)
             (combine plans features_list))
        (Fin 0).
Proof.
  intros Hne Hshape. unfold aggregated_features.
  set (N := List.length features_list).
  set (items := combine plans features_list).
  assert (forall pi f, In (pi, f) items ->
            ncols pi = B /\ List.length f = F /\
            Forall (fun row => List.length row = List.length pi) f) as Hitems.
  { intros pi f Hin. exact (Forall2_combine_in _ _ _ _ _ Hshape Hin). }
  assert (items <> []) as Hitems_ne.
  { unfold items. destruct Hshape; [congruence | discriminate]. }
  assert (Forall (has_shape B F)
            (map (fun '(pi, f) => feature_acc N pi f) items)) as Hall.
  { apply Forall_map, Forall_forall. intros [pi f] Hin.
    destruct (Hitems pi f Hin) as [<- [<- _]]. apply has_shape_feature_acc. }
  destruct (map (fun '(pi, f) => feature_acc N pi f) items) as [| acc0 accs] eqn:E.
  { destruct items; [congruence | discriminate]. }
  assert (has_shape B F acc0) as H0 by now inversion Hall.
  split.
  - apply fold_madd_shape; trivial. now apply has_shape_zeros.
  - intros b k Hb Hk.
    rewrite (fold_madd_entry B F) by (trivial; now apply has_shape_zeros).
    rewrite (entry_zeros B F) by trivial.
    f_equal. rewrite <- E, map_map. apply map_ext_in.
    intros [pi f] Hin. destruct (Hitems pi f Hin) as [HB [HF Hrows]].
    apply feature_acc_entry; try lia.
    apply (proj1 (Forall_forall _ _) Hrows). apply nth_In. lia.
Qed.

(** *** Min-max rescaling of a finite column *)








Lemma fdiv_Fin x y : y <> 0 -> fdiv (Fin x) (Fin y) = Fin (x / y).
Proof.
  intros H. cbn [fdiv]. pose proof (Rsign_nonzero y H).
  destruct (Rsign y); congruence.
Qed.

(** The feature update on well-shaped inputs: the sum of the individuals'
    terms, then the rescaling of each feature dimension. *)
Lemma update_barycenter_features_rows (plans features_list : list mat)
  (B F : nat) :
  plans <> [] -> (0 < B)%nat ->
  Forall2 (fun pi f => ncols pi = B /\ List.length f = F /\
                       Forall (fun row => List.length row = List.length pi) f)
          plans features_list ->
  exists out,
    update_barycenter_features plans features_list = Ok out /\
    has_shape B F (aggregated_features plans features_list) /\
    (forall b k, (b < B)%nat -> (k < F)%nat ->
       entry (aggregated_features plans features_list) b k
       = fold_left fadd
           (map (fun '(pi, f) => acc_entry (List.length features_list) pi f b k)
                (combine plans features_list))
           (Fin 0)) /\
    out = map rescale_column (transpose (aggregated_features plans features_list)) /\
    (forall k, (k < F)%nat ->
       nth k out []
       = rescale_column (col k (aggregated_features plans features_list))).
Proof.
  intros Hne HB Hshape.
  destruct (aggregated_features_entries plans features_list B F Hne Hshape)
    as [Hagg Hentries].
  set (agg := aggregated_features plans features_list) in *.
  assert (agg <> []) as Hagg_ne.
  { destruct Hagg as [L _]. destruct agg; [cbn in L; lia | discriminate]. }
  assert (ncols agg = F) as Hcols.
  { destruct Hagg as [_ Hall]. destruct agg as [| r0 agg']; [congruence |].
    now inversion Hall. }
  destruct (update_barycenter_features_columns plans features_list Hagg_ne)
    as [out [Hout Heq]].
  fold agg in Heq.
  exists out. split; [exact Hout |]. split; [exact Hagg |].
  split; [exact Hentries |]. split; [exact Heq |].
  intros k Hk. rewrite Heq.
  rewrite (nth_map_in rescale_column _ k [])
    by (rewrite length_transpose; lia).
  now rewrite nth_transpose by lia.
Qed.



(** ** The barycenter fitter: the calls it makes *)

Section FitterCalls.

Context {Mask Loss Steps Times Settings : Type}.
Variable coarse_to_fine_fit :
  c2f_args Mask Settings -> result (FUGWSparse Loss Steps Times * option Mask).

Local Abbreviation event := (c2f_event Mask Loss Steps Times Settings).



Lemma ot_plans_loop_spec (all : list (mat * vec)) plans cfg bw bf :
  forall items i new_plans new_losses mask evs r,
  (forall j, nth_error all (i + j) = nth_error items j) ->
  ot_plans_loop coarse_to_fine_fit plans cfg bw bf i items
    new_plans new_losses mask = (evs, r) ->
  map ev_individual evs = seq i (List.length evs) /\
  Forall (fun e =>
            ev_result e = coarse_to_fine_fit (ev_args e) /\
            target_weights (ev_args e) = bw /\
            target_features (ev_args e) = bf /\
            settings (ev_args e) = cfg /\
            warm_start plans (ev_individual e) = Ok (init_plan (ev_args e)) /\
            nth_error all (ev_individual e)
            = Some (source_features (ev_args e), source_weights (ev_args e)))
         evs /\
  mask_chain mask evs /\
  (forall np nl mask', r = Ok (np, nl, mask') ->
     List.length evs = List.length items /\
     np = new_plans ++ map ev_pi evs /\
     map Some nl = map Some new_losses ++ map ev_loss evs /\
     mask' = chain_out mask evs /\
     Forall ev_ok evs).
Proof.
  induction items as [| [features weights] rest IH];
    intros i new_plans new_losses mask evs r Hall Hrun; cbn in Hrun.
  - inversion Hrun; subst. cbn. split; [| split; [| split]]; auto.
    intros np nl mask' Hr. inversion Hr; subst.
    rewrite !app_nil_r. repeat split; auto.
  - destruct (warm_start plans i) as [init | err] eqn:Hws.
    2:{ inversion Hrun; subst. cbn. split; [| split; [| split]]; auto.
        discriminate. }
    set (args := {| source_features := features; target_features := bf;
                    source_weights := weights; target_weights := bw;
                    init_plan := init; sparsity_mask := mask;
                    settings := cfg |}) in *.
    assert (nth_error all i = Some (features, weights)) as Hi
      by (rewrite <- (Nat.add_0_r i) at 1; now rewrite Hall).
    assert (forall res,
              (fun e : event =>
                 ev_result e = coarse_to_fine_fit (ev_args e) /\
                 target_weights (ev_args e) = bw /\
                 target_features (ev_args e) = bf /\
                 settings (ev_args e) = cfg /\
                 warm_start plans (ev_individual e) = Ok (init_plan (ev_args e)) /\
                 nth_error all (ev_individual e)
                 = Some (source_features (ev_args e), source_weights (ev_args e)))
              {| ev_individual := i; ev_args := args; ev_result := res |}
            <-> res = coarse_to_fine_fit args) as Hev0.
    { intros res. cbn. split; [tauto | intros ->; repeat split; auto]. }
    destruct (coarse_to_fine_fit args) as [[fm mask'] | err] eqn:Hcall.
    2:{ inversion Hrun; subst. cbn [map List.length seq ev_individual mask_chain
                                     ev_args ev_result].
        split; [| split; [| split]]; auto; try discriminate.
        constructor; [| constructor]. now apply Hev0. }
    destruct (existsb (existsb is_nan) (pi fm)) eqn:Hnan.
    { inversion Hrun; subst. cbn [map List.length seq ev_individual mask_chain
                                   ev_args ev_result].
      split; [| split; [| split]]; auto; try discriminate.
      constructor; [| constructor]. now apply Hev0. }
    destruct (ot_plans_loop coarse_to_fine_fit plans cfg bw bf (S i) rest
                (new_plans ++ [pi fm])
                (new_losses ++ [(loss fm, loss_steps fm, loss_times fm)])
                mask') as [evs' r'] eqn:Hrec.
    inversion Hrun; subst. clear Hrun.
    assert (forall j, nth_error all (S i + j) = nth_error rest j) as Hall'.
    { intros j. pose proof (Hall (S j)) as Hj. cbn [nth_error] in Hj.
      rewrite <- Hj. f_equal. lia. }
    destruct (IH _ _ _ _ _ _ Hall' Hrec) as [Hind [Hev [Hchain Hok]]].
    cbn [map List.length seq ev_individual mask_chain ev_args ev_result].
    split; [| split; [| split]].
    + now rewrite Hind.
    + constructor; [| exact Hev]. now apply Hev0.
    + split; [reflexivity | exact Hchain].
    + intros np nl m'' Hr. destruct (Hok np nl m'' Hr) as [H1 [H2 [H3 [H4 H5]]]].
      split; [| split; [| split; [| split]]].
      * now rewrite H1.
      * rewrite H2, <- app_assoc. reflexivity.
      * rewrite H3, map_app, <- app_assoc. reflexivity.
      * exact H4.
      * constructor; [| exact H5]. exists fm, mask'. reflexivity.
Qed.


Section OneFit.

Variables (weights_list : list vec) (features_list : list mat)
  (cfg : Settings) (barycenter_weights : vec)
  (callback_barycenter :
     option (fit_locals Mask Loss Steps Times -> result unit)).

Local Abbreviation round_of :=
  (fit_round coarse_to_fine_fit weights_list features_list cfg
     barycenter_weights callback_barycenter).
Local Abbreviation loop_of :=
  (fit_loop coarse_to_fine_fit weights_list features_list cfg
     barycenter_weights callback_barycenter).
Local Abbreviation in_round :=
  (call_in_round coarse_to_fine_fit weights_list features_list cfg
     barycenter_weights).

Lemma fit_round_spec idx plans mask lebs bf log r :
  round_of idx (plans, mask, lebs, bf) = (log, r) ->
  exists evs,
    log = tag_round idx evs /\
    map ev_individual evs = seq 0 (List.length evs) /\
    Forall (in_round plans bf) evs /\
    mask_chain mask evs /\
    (forall st', r = Ok st' ->
       exists nl bf',
         st' = (Some (map ev_pi evs), chain_out mask evs, lebs ++ [nl], bf') /\
         List.length evs = List.length (combine features_list weights_list) /\
         map Some nl = map ev_loss evs /\
         Forall ev_ok evs /\
         update_barycenter_features (map ev_pi evs) features_list = Ok bf').
Proof.
  unfold fit_round, compute_all_ot_plans.
  destruct (ot_plans_loop coarse_to_fine_fit plans cfg barycenter_weights bf 0
              (combine features_list weights_list) [] [] mask)
    as [evs r0] eqn:Hloop.
  intros Hrun. inversion Hrun; subst; clear Hrun.
  destruct (ot_plans_loop_spec (combine features_list weights_list)
              plans cfg barycenter_weights bf _ 0%nat [] [] mask evs r0
              (fun j => eq_refl) Hloop) as [Hind [Hev [Hchain Hok]]].
  exists evs. split; [reflexivity |]. split; [exact Hind |].
  split; [exact Hev |]. split; [exact Hchain |].
  intros st' Hst. destruct r0 as [[[np nl] mask'] | err]; [| discriminate].
  destruct (Hok np nl mask' eq_refl) as [H1 [H2 [H3 [H4 H5]]]].
  cbn [bind] in Hst.
  destruct (update_barycenter_features np features_list) as [bf' | err] eqn:Hupd;
    [| discriminate].
  cbn [bind] in Hst.
  assert (st' = (Some np, mask', lebs ++ [nl], bf')) as ->.
  { destruct callback_barycenter as [cb |]; cbn in Hst.
    - destruct (cb _) as [[] | err]; cbn in Hst; congruence.
    - congruence. }
  exists nl, bf'. cbn in H2, H3. subst np mask'. repeat split; auto.
Qed.

(** The calls of the rounds [k, k + 1, ...], read from the log: a call of
    round [k] is warm-started from the plans in hand, a call of a later
    round from the plan the call for the same individual returned one
    round earlier. *)
Lemma fit_loop_calls n :
  forall k plans mask lebs bf log r,
  loop_of (map Z.of_nat (seq k n)) (plans, mask, lebs, bf) = (log, r) ->
  forall idx e, In (idx, e) log ->
    (Z.of_nat k <= idx)%Z /\
    ev_result e = coarse_to_fine_fit (ev_args e) /\
    target_weights (ev_args e) = barycenter_weights /\
    nth_error (combine features_list weights_list) (ev_individual e)
    = Some (source_features (ev_args e), source_weights (ev_args e)) /\
    (idx = Z.of_nat k ->
       warm_start plans (ev_individual e) = Ok (init_plan (ev_args e))) /\
    (idx <> Z.of_nat k ->
       exists e' fm m,
         In ((idx - 1)%Z, e') log /\
         ev_individual e' = ev_individual e /\
         ev_result e' = Ok (fm, m) /\
         init_plan (ev_args e) = Some (pi fm)).
Proof.
  induction n as [| n IH]; intros k plans mask lebs bf log r Hrun idx e Hin.
  - cbn in Hrun. inversion Hrun; subst. contradiction.
  - cbn [seq map fit_loop] in Hrun.
    destruct (round_of (Z.of_nat k) (plans, mask, lebs, bf)) as [log0 r0] eqn:Hround.
    destruct (fit_round_spec _ _ _ _ _ _ _ Hround)
      as [evs [-> [Hind [Hev [Hchain Hok]]]]].
    assert (forall e0, In (idx, e0) (tag_round (Z.of_nat k) evs) ->
              idx = Z.of_nat k /\ in_round plans bf e0) as Hfirst.
    { intros e0 H0. unfold tag_round in H0. apply in_map_iff in H0.
      destruct H0 as [e1 [Heq Hin1]]. inversion Heq; subst.
      split; [reflexivity |]. exact (proj1 (Forall_forall _ _) Hev _ Hin1). }
    assert (In (idx, e) (tag_round (Z.of_nat k) evs) ->
            (Z.of_nat k <= idx)%Z /\
            ev_result e = coarse_to_fine_fit (ev_args e) /\
            target_weights (ev_args e) = barycenter_weights /\
            nth_error (combine features_list weights_list) (ev_individual e)
            = Some (source_features (ev_args e), source_weights (ev_args e)) /\
            (idx = Z.of_nat k ->
               warm_start plans (ev_individual e) = Ok (init_plan (ev_args e))) /\
            (idx <> Z.of_nat k ->
               exists e' fm m,
                 In ((idx - 1)%Z, e') log /\
                 ev_individual e' = ev_individual e /\
                 ev_result e' = Ok (fm, m) /\
                 init_plan (ev_args e) = Some (pi fm))) as Hcase0.
    { intros H0. destruct (Hfirst e H0) as [-> [H1 [H2 [H3 [H4 [H5 H6]]]]]].
      repeat split; auto; try lia; try (intros Hne; congruence). }
    destruct r0 as [st' | err].
    2:{ inversion Hrun; subst. auto. }
    destruct (Hok st' eq_refl) as [nl [bf' [-> [Hlen [Hnl [Hallok Hupd]]]]]].
    destruct (loop_of (map Z.of_nat (seq (S k) n))
                (Some (map ev_pi evs), chain_out mask evs, lebs ++ [nl], bf'))
      as [log' r'] eqn:Hrest.
    inversion Hrun; subst. clear Hrun.
    apply in_app_or in Hin. destruct Hin as [Hin | Hin]; [auto |].
    destruct (IH _ _ _ _ _ _ _ Hrest idx e Hin) as [Hle [H1 [H2 [H3 [H4 H5]]]]].
    split; [lia |]. split; [exact H1 |]. split; [exact H2 |].
    split; [exact H3 |]. split; [intros ->; lia |].
    intros _. destruct (Z.eq_dec idx (Z.of_nat (S k))) as [Heq | Hne].
    + specialize (H4 Heq). unfold warm_start in H4.
      destruct (nth_error (map ev_pi evs) (ev_individual e)) as [p |] eqn:Hp;
        [| discriminate].
      rewrite nth_error_map in Hp.
      destruct (nth_error evs (ev_individual e)) as [e' |] eqn:He'; [| discriminate].
      cbn in Hp.
      assert (In e' evs) as Hin' by (eapply nth_error_In; eassumption).
      destruct (proj1 (Forall_forall _ _) Hallok _ Hin') as [fm [m Hres]].
      exists e', fm, m. split; [| split; [| split]].
      * apply in_or_app. left. unfold tag_round. apply in_map_iff.
        exists e'. split; [| exact Hin']. f_equal. lia.
      * assert (nth_error (map ev_individual evs) (ev_individual e)
                = Some (ev_individual e')) as Hn
          by (rewrite nth_error_map, He'; reflexivity).
        rewrite Hind in Hn.
        assert (ev_individual e < List.length evs)%nat as Hlt
          by (apply nth_error_Some; congruence).
        rewrite (nth_error_nth' _ 0%nat) in Hn by (rewrite length_seq; exact Hlt).
        rewrite seq_nth in Hn by exact Hlt. cbn in Hn. congruence.
      * exact Hres.
      * inversion H4; subst. inversion Hp; subst.
        unfold ev_pi. now rewrite Hres.
    + destruct (H5 Hne) as [e' [fm [m [Hin' Hrest']]]].
      exists e', fm, m. split; [| exact Hrest'].
      apply in_or_app. now right.
Qed.

(** The barycenter features the calls are handed: those in hand for the
    round [k], and for a later round what [update_barycenter_features]
    returned on the plans of the round before. *)
Lemma fit_loop_features n :
  forall k plans mask lebs bf log r,
  loop_of (map Z.of_nat (seq k n)) (plans, mask, lebs, bf) = (log, r) ->
  forall idx e, In (idx, e) log ->
    (idx = Z.of_nat k -> target_features (ev_args e) = bf) /\
    (idx <> Z.of_nat k ->
       exists evs_prev,
         (forall e', In e' evs_prev <-> In ((idx - 1)%Z, e') log) /\
         map ev_individual evs_prev = seq 0 (List.length evs_prev) /\
         update_barycenter_features (map ev_pi evs_prev) features_list
         = Ok (target_features (ev_args e))).
Proof.
  induction n as [| n IH]; intros k plans mask lebs bf log r Hrun idx e Hin.
  - cbn in Hrun. inversion Hrun; subst. contradiction.
  - pose proof (fit_loop_calls (S n) k plans mask lebs bf log r Hrun) as Hbound.
    cbn [seq map fit_loop] in Hrun.
    destruct (round_of (Z.of_nat k) (plans, mask, lebs, bf)) as [log0 r0] eqn:Hround.
    destruct (fit_round_spec _ _ _ _ _ _ _ Hround)
      as [evs [-> [Hind [Hev [Hchain Hok]]]]].
    assert (forall i e0, In (i, e0) (tag_round (Z.of_nat k) evs) <->
                         i = Z.of_nat k /\ In e0 evs) as Htag.
    { intros i e0. unfold tag_round. rewrite in_map_iff. split.
      - intros [e1 [Heq Hin1]]. inversion Heq; subst. auto.
      - intros [-> Hin1]. exists e0. auto. }
    assert (In (idx, e) (tag_round (Z.of_nat k) evs) ->
            (idx = Z.of_nat k -> target_features (ev_args e) = bf) /\
            (idx <> Z.of_nat k ->
               exists evs_prev,
                 (forall e', In e' evs_prev <-> In ((idx - 1)%Z, e') log) /\
                 map ev_individual evs_prev = seq 0 (List.length evs_prev) /\
                 update_barycenter_features (map ev_pi evs_prev) features_list
                 = Ok (target_features (ev_args e)))) as Hcase0.
    { intros H0. apply Htag in H0. destruct H0 as [-> He].
      split; [| congruence]. intros _.
      destruct (proj1 (Forall_forall _ _) Hev _ He) as [_ [_ [H3 _]]]. exact H3. }
    destruct r0 as [st' | err].
    2:{ inversion Hrun; subst. auto. }
    destruct (Hok st' eq_refl) as [nl [bf' [-> [Hlen [Hnl [Hallok Hupd]]]]]].
    destruct (loop_of (map Z.of_nat (seq (S k) n))
                (Some (map ev_pi evs), chain_out mask evs, lebs ++ [nl], bf'))
      as [log' r'] eqn:Hrest.
    inversion Hrun; subst. clear Hrun.
    apply in_app_or in Hin. destruct Hin as [Hin | Hin]; [auto |].
    pose proof (fit_loop_calls n (S k) _ _ _ _ _ _ Hrest) as Hbound'.
    destruct (Hbound' idx e Hin) as [Hle _].
    destruct (IH _ _ _ _ _ _ _ Hrest idx e Hin) as [H1 H2].
    split; [intros ->; lia |]. intros _.
    destruct (Z.eq_dec idx (Z.of_nat (S k))) as [Heq | Hne].
    + exists evs. split; [| split; [exact Hind |]].
      * intros e'. rewrite in_app_iff, Htag. split.
        -- intros He'. left. split; [lia | exact He'].
        -- intros [[_ He'] | Hin']; [exact He' |].
           destruct (Hbound' _ _ Hin') as [Hle' _]. lia.
      * rewrite (H1 Heq). exact Hupd.
    + destruct (H2 Hne) as [evs_prev [Hset [Hseq Hup]]].
      exists evs_prev. split; [| split; [exact Hseq | exact Hup]].
      intros e'. rewrite Hset, in_app_iff, Htag. split.
      * intros Hin'. now right.
      * intros [[Hk _] | Hin']; [lia | exact Hin'].
Qed.


(** A loop that ends without an exception has run every round: it logs
    the calls of each round in turn, one per individual, and appends one
    list of loss records per round, one record per individual. *)
Lemma fit_loop_rounds idxs :
  forall plans mask lebs bf log plans' mask' lebs' bf',
  loop_of idxs (plans, mask, lebs, bf) = (log, Ok (plans', mask', lebs', bf')) ->
  let N := List.length (combine features_list weights_list) in
  map fst log = flat_map (fun idx => repeat idx N) idxs /\
  (exists added, lebs' = lebs ++ added /\
                 List.length added = List.length idxs /\
                 Forall (fun l => List.length l = N) added /\
                 map Some (List.concat added) = map (fun x => ev_loss (snd x)) log) /\
  match idxs with
  | [] => plans' = plans
  | _ => exists l, plans' = Some l /\ List.length l = N
  end.
Proof.
  induction idxs as [| idx idxs IH];
    intros plans mask lebs bf log plans' mask' lebs' bf' Hrun N.
  - cbn in Hrun. inversion Hrun; subst. cbn. split; [reflexivity |].
    split; [| reflexivity]. exists []. rewrite app_nil_r. auto.
  - cbn [fit_loop] in Hrun.
    destruct (round_of idx (plans, mask, lebs, bf)) as [log0 r0] eqn:Hround.
    destruct (fit_round_spec _ _ _ _ _ _ _ Hround)
      as [evs [-> [Hind [Hev [Hchain Hok]]]]].
    destruct r0 as [st' | err]; [| inversion Hrun].
    destruct (Hok st' eq_refl) as [nl [bf1 [-> [Hlen [Hnl [Hallok Hupd]]]]]].
    destruct (loop_of idxs
                (Some (map ev_pi evs), chain_out mask evs, lebs ++ [nl], bf1))
      as [log' r'] eqn:Hrest.
    inversion Hrun; subst. clear Hrun.
    destruct (IH _ _ _ _ _ _ _ _ _ Hrest)
      as [Hfst [[added [Hadd [Hla [Hall Hrec]]]] Hplans]].
    fold N in Hlen, Hfst, Hall, Hplans.
    assert (List.length nl = List.length evs) as Hnl'.
    { apply (f_equal (@List.length _)) in Hnl. now rewrite !length_map in Hnl. }
    split; [| split].
    + cbn [flat_map]. rewrite map_app, Hfst. f_equal.
      unfold tag_round. rewrite map_map. cbn. rewrite <- Hlen.
      clear. induction evs; cbn; congruence.
    + exists (nl :: added). split; [| split; [| split]].
      * rewrite Hadd, <- app_assoc. reflexivity.
      * cbn. now rewrite Hla.
      * constructor; [congruence | exact Hall].
      * cbn [List.concat]. rewrite !map_app, Hnl, Hrec. f_equal.
        unfold tag_round. now rewrite map_map.
    + destruct idxs as [| idx' idxs'].
      * exists (map ev_pi evs). split; [exact Hplans |].
        now rewrite length_map.
      * exact Hplans.
Qed.

End OneFit.

Lemma fit_unfold weights_list features_list cfg barycenter_size
  init_barycenter_weights init_barycenter_features nits_barycenter
  callback_barycenter log r :
  fit coarse_to_fine_fit weights_list features_list cfg barycenter_size
    init_barycenter_weights init_barycenter_features nits_barycenter
    callback_barycenter = (log, r) ->
  (log = [] /\ exists e, r = Raise e) \/
  exists size bf0 r0,
    (match barycenter_size with
     | Some b => size = b
     | None => default_barycenter_size weights_list = Ok size
     end) /\
    fit_loop coarse_to_fine_fit weights_list features_list cfg
      (match init_barycenter_weights with
       | None => uniform_weights size
       | Some w => w
       end)
      callback_barycenter (range nits_barycenter) (None, None, [], bf0)
    = (log, r0) /\
    r = ('(plans, _, losses_each_bar_step, barycenter_features) <- r0 ;;
         Ok (match init_barycenter_weights with
             | None => uniform_weights size
             | Some w => w
             end, barycenter_features, plans, losses_each_bar_step)).
Proof.
  unfold fit, _make_tensor.
  set (size := match barycenter_size with
               | None => default_barycenter_size weights_list
               | Some b => Ok b
               end).
  assert (forall b, size = Ok b ->
            match barycenter_size with
            | Some b' => b = b'
            | None => default_barycenter_size weights_list = Ok b
            end) as Hsize.
  { unfold size. destruct barycenter_size; intros b Hb; congruence. }
  destruct size as [b | err]; cbn [bind].
  2:{ intros H. inversion H; subst. left. eauto. }
  specialize (Hsize b eq_refl).
  destruct (match init_barycenter_features with
            | None => uniform_features features_list b
            | Some f => Ok f
            end) as [bf0 | err]; cbn [bind].
  2:{ intros H. inversion H; subst. left. eauto. }
  destruct (fit_loop _ _ _ _ _ _ _ _) as [evs r0] eqn:Hloop.
  intros H. inversion H; subst. right.
  exists b, bf0, r0. repeat split; trivial.
Qed.



(** C8. When [fit] returns, the weights it returns are those of the
    initialisation: the vector supplied, or else the uniform vector over
    [barycenter_size] points ([1 / barycenter_size] each), the size being
    that of the first individual's weights when none is given; and every
    coarse-to-fine call of every round was handed these same weights. *)
Theorem fit_weights_unchanged weights_list features_list cfg barycenter_size
  init_barycenter_weights init_barycenter_features nits_barycenter
  callback_barycenter log w f plans losses :
  fit coarse_to_fine_fit weights_list features_list cfg barycenter_size
    init_barycenter_weights init_barycenter_features nits_barycenter
    callback_barycenter = (log, Ok (w, f, plans, losses)) ->
  w = match init_barycenter_weights with
      | Some w0 => w0
      | None =>
          uniform_weights
            match barycenter_size with
            | Some b => b
            | None => List.length (hd [] weights_list)
            end
      end /\
  (forall n, uniform_weights n = repeat (fdiv (Fin 1) (Fin (INR n))) n) /\
  Forall (fun '(_, e) => target_weights (ev_args e) = w) log.
Proof.
  intros Hfit.
  destruct (fit_unfold _ _ _ _ _ _ _ _ _ _ Hfit)
    as [[_ [e He]] | [size [bf0 [r0 [Hsize [Hloop Hr]]]]]]; [discriminate |].
  destruct r0 as [[[[plans' mask'] lebs'] bf'] | err]; [| discriminate].
  cbn [bind] in Hr. inversion Hr; subst; clear Hr.
  assert (size = match barycenter_size with
                 | Some b => b
                 | None => List.length (hd [] weights_list)
                 end) as Hsz.
  { destruct barycenter_size; [exact Hsize |].
    destruct weights_list; cbn in *; congruence. }
  split; [| split].
  - destruct init_barycenter_weights; [reflexivity | now rewrite Hsz].
  - intros n. unfold uniform_weights.
    now rewrite map_repeat.
  - apply Forall_forall. intros [idx e] Hin. unfold range in Hloop.
    destruct (fit_loop_calls _ _ _ _ _ _ _ _ _ _ _ _ _ Hloop idx e Hin)
      as [_ [_ [H2 _]]]. exact H2.
Qed.

(** C9. When [fit], given [N] individuals and [nits_barycenter = R],
    returns, it has run the rounds [0 .. R - 1] in turn, each with one
    coarse-to-fine call per individual, and the loss history it returns
    has one entry per round, each with exactly [N] loss records: in order,
    the [(loss, loss_steps, loss_times)] of the fine mappings of the calls.
    No hypothesis is made on the individuals' point counts. *)
Theorem fit_runs_all_rounds weights_list features_list cfg barycenter_size
  init_barycenter_weights init_barycenter_features nits_barycenter
  callback_barycenter N log w f plans losses :
  List.length features_list = N -> List.length weights_list = N ->
  fit coarse_to_fine_fit weights_list features_list cfg barycenter_size
    init_barycenter_weights init_barycenter_features nits_barycenter
    callback_barycenter = (log, Ok (w, f, plans, losses)) ->
  map fst log = flat_map (fun idx => repeat idx N) (range nits_barycenter) /\
  List.length losses = Z.to_nat nits_barycenter /\
  Forall (fun l => List.length l = N) losses /\
  map Some (List.concat losses) = map (fun x => ev_loss (snd x)) log /\
  ((0 < nits_barycenter)%Z -> exists l, plans = Some l /\ List.length l = N).
Proof.
  intros HF HW Hfit.
  destruct (fit_unfold _ _ _ _ _ _ _ _ _ _ Hfit)
    as [[_ [e He]] | [size [bf0 [r0 [Hsize [Hloop Hr]]]]]]; [discriminate |].
  destruct r0 as [[[[plans' mask'] lebs'] bf'] | err]; [| discriminate].
  cbn [bind] in Hr. inversion Hr; subst; clear Hr.
  destruct (fit_loop_rounds _ _ _ _ _ _ _ _ _ _ _ _ _ _ _ Hloop)
    as [Hfst [[added [Hadd [Hlen [Hall Hrec]]]] Hplans]].
  rewrite length_combine, HW, Nat.min_id in *.
  cbn [app] in Hadd. subst added.
  split; [exact Hfst |]. split; [| split; [exact Hall | split; [exact Hrec |]]].
  - rewrite Hlen. unfold range. now rewrite length_map, length_seq.
  - intros Hpos. unfold range in Hplans.
    destruct (Z.to_nat nits_barycenter) as [| n] eqn:E; [lia |].
    exact Hplans.
Qed.

End FitterCalls.

(** ** The feature update within the fitter *)




(** ** A run of the fitter *)

Lemma demo_update :
  update_barycenter_features [[[Fin 1]]; [[Fin 1]; [Fin 1]]] demo_features
  = Ok [[NaN]].
Proof.
  destruct (update_barycenter_features_columns
              [[[Fin 1]]; [[Fin 1]; [Fin 1]]] demo_features)
    as [out [Hout ->]]; [discriminate |].
  rewrite Hout. f_equal.
  change (transpose (aggregated_features
                       [[[Fin 1]]; [[Fin 1]; [Fin 1]]] demo_features))
    with [repeat (entry (aggregated_features
                           [[[Fin 1]]; [[Fin 1]; [Fin 1]]] demo_features) 0 0) 1].
  cbn [map]. now rewrite rescale_column_constant.
Qed.

Lemma demo_fit :
  exists log f losses,
    fit demo_c2f demo_weights demo_features tt (Some 1%nat) None None 2 None
    = (log, Ok (uniform_weights 1, f, Some [[[Fin 1]]; [[Fin 1]; [Fin 1]]], losses)).
Proof.
  pose proof demo_update as HU.
  unfold fit, demo_features, demo_weights in *. change (range 2) with [0%Z; 1%Z].
  cbn -[update_barycenter_features fdiv fsqrt fmul fadd].
  rewrite HU.
  cbn -[update_barycenter_features fdiv fsqrt fmul fadd].
  rewrite HU.
  cbn -[update_barycenter_features fdiv fsqrt fmul fadd].
  repeat eexists.
Qed.

Lemma fit_weights_unchanged_witness :
  exists log f plans losses,
    fit demo_c2f demo_weights demo_features tt (Some 1%nat) None None 2 None
    = (log, Ok (uniform_weights 1, f, plans, losses)) /\
    Forall (fun '(_, e) => target_weights (ev_args e) = uniform_weights 1) log.
Proof.
  destruct demo_fit as [log [f [losses Hfit]]].
  exists log, f, (Some [[[Fin 1]]; [[Fin 1]; [Fin 1]]]), losses.
  split; [exact Hfit |].
  exact (proj2 (proj2 (fit_weights_unchanged demo_c2f _ _ _ _ _ _ _ _ _ _ _ _ _
                         Hfit))).
Defined.

Lemma fit_runs_all_rounds_witness :
  exists log w f plans losses,
    fit demo_c2f demo_weights demo_features tt (Some 1%nat) None None 2 None
    = (log, Ok (w, f, plans, losses)) /\
    map fst log = [0%Z; 0%Z; 1%Z; 1%Z] /\
    List.length losses = 2%nat /\
    Forall (fun l => List.length l = 2%nat) losses.
Proof.
  destruct demo_fit as [log [f [losses Hfit]]].
  exists log, (uniform_weights 1), f, (Some [[[Fin 1]]; [[Fin 1]; [Fin 1]]]), losses.
  split; [exact Hfit |].
  destruct (fit_runs_all_rounds demo_c2f demo_weights demo_features
              _ _ _ _ _ _ 2%nat _ _ _ _ _ eq_refl eq_refl Hfit)
    as [H1 [H2 [H3 _]]].
  split; [exact H1 | split; [exact H2 | exact H3]].
Defined.


(** ** Tensors by their entries *)

Lemma length_mk_vec n f : List.length (mk_vec n f) = n.
Proof. unfold mk_vec. now rewrite length_map, length_seq. Qed.

Lemma nth_mk_vec n f i : (i < n)%nat -> nth i (mk_vec n f) NaN = f i.
Proof.
  intros H. unfold mk_vec.
  rewrite (nth_map_in f _ i 0%nat) by (rewrite length_seq; exact H).
  now rewrite seq_nth.
Qed.

Lemma has_shape_mk_mat n m f : has_shape n m (mk_mat n m f).
Proof.
  split.
  - unfold mk_mat. now rewrite length_map, length_seq.
  - unfold mk_mat. apply Forall_map, Forall_forall. intros i _.
    apply length_mk_vec.
Qed.

Lemma entry_mk_mat n m f i j :
  (i < n)%nat -> (j < m)%nat -> entry (mk_mat n m f) i j = f i j.
Proof.
  intros Hi Hj. unfold entry, mk_mat.
  rewrite (nth_map_in _ _ i 0%nat) by (rewrite length_seq; exact Hi).
  rewrite seq_nth by exact Hi. now apply nth_mk_vec.
Qed.

Lemma vec_eta n (v : vec) :
  List.length v = n -> v = mk_vec n (fun i => nth i v NaN).
Proof.
  intros <-. unfold mk_vec. rewrite <- (map_seq_nth (fun x => x) v NaN).
  symmetry. apply map_id.
Qed.

Lemma mk_vec_ext n f g :
  (forall i, (i < n)%nat -> f i = g i) -> mk_vec n f = mk_vec n g.
Proof.
  intros H. unfold mk_vec. apply map_ext_in. intros i Hi.
  apply in_seq in Hi. apply H. lia.
Qed.

Lemma mk_mat_ext n m f g :
  (forall i j, (i < n)%nat -> (j < m)%nat -> f i j = g i j) ->
  mk_mat n m f = mk_mat n m g.
Proof.
  intros H. unfold mk_mat. apply map_ext_in. intros i Hi.
  apply in_seq in Hi. apply mk_vec_ext. intros j Hj. apply H; lia.
Qed.

Lemma mat_eta n m (A : mat) :
  has_shape n m A -> A = mk_mat n m (entry A).
Proof.
  intros [Hlen Hall]. unfold mk_mat, entry.
  transitivity (map (fun x : vec => x) A); [symmetry; apply map_id |].
  rewrite (map_seq_nth (fun x => x) A []), Hlen.
  apply map_ext_in. intros i Hi. apply in_seq in Hi.
  apply vec_eta. apply (proj1 (Forall_forall _ _) Hall). apply nth_In. lia.
Qed.

Lemma map_mk_vec n f g : map g (mk_vec n f) = mk_vec n (fun i => g (f i)).
Proof. unfold mk_vec. apply map_map. Qed.

Lemma map2_mk_vec op n f g :
  map2 op (mk_vec n f) (mk_vec n g) = mk_vec n (fun i => op (f i) (g i)).
Proof.
  rewrite (map2_seq op _ _ n NaN NaN) by apply length_mk_vec.
  apply mk_vec_ext. intros i Hi. now rewrite !nth_mk_vec.
Qed.

Lemma mmap_mk_mat n m f g :
  mmap g (mk_mat n m f) = mk_mat n m (fun i j => g (f i j)).
Proof.
  unfold mmap, mk_mat. rewrite map_map. apply map_ext. intros i.
  apply map_mk_vec.
Qed.

Lemma mmap2_mk_mat op n m f g :
  mmap2 op (mk_mat n m f) (mk_mat n m g)
  = mk_mat n m (fun i j => op (f i j) (g i j)).
Proof.
  unfold mmap2, mk_mat.
  rewrite (map2_seq (map2 op) _ _ n [] [])
    by (now rewrite length_map, length_seq).
  apply map_ext_in. intros i Hi. apply in_seq in Hi.
  rewrite !(nth_map_in _ _ i 0%nat) by (rewrite length_seq; lia).
  rewrite seq_nth by lia. apply map2_mk_vec.
Qed.

Lemma outer_mk_vec op n m f g :
  outer op (mk_vec n f) (mk_vec m g) = mk_mat n m (fun i j => op (f i) (g j)).
Proof.
  unfold outer, mk_mat, mk_vec. rewrite map_map.
  apply map_ext. intros i. apply map_map.
Qed.

Lemma bcast_col_mk op n m f g :
  bcast_col op (mk_vec n f) (mk_mat n m g)
  = mk_mat n m (fun i j => op (f i) (g i j)).
Proof.
  unfold bcast_col, mk_mat.
  rewrite (map2_seq _ _ _ n NaN [])
    by (try apply length_mk_vec; now rewrite length_map, length_seq).
  apply map_ext_in. intros i Hi. apply in_seq in Hi.
  rewrite nth_mk_vec by lia.
  rewrite (nth_map_in _ _ i 0%nat) by (rewrite length_seq; lia).
  rewrite seq_nth by lia. apply map_mk_vec.
Qed.

Lemma bcast_row_mk op n m f g :
  bcast_row op (mk_vec m f) (mk_mat n m g)
  = mk_mat n m (fun i j => op (f j) (g i j)).
Proof.
  unfold bcast_row, mk_mat. rewrite map_map. apply map_ext. intros i.
  apply map2_mk_vec.
Qed.

Lemma bcast_row_r_mk op n m f g :
  bcast_row_r op (mk_mat n m g) (mk_vec m f)
  = mk_mat n m (fun i j => op (g i j) (f j)).
Proof.
  unfold bcast_row_r, mk_mat. rewrite map_map. apply map_ext. intros i.
  apply map2_mk_vec.
Qed.

Lemma ncols_mk_mat n m f : (0 < n)%nat -> ncols (mk_mat n m f) = m.
Proof.
  intros H. destruct n as [| n]; [lia |]. cbn. apply length_mk_vec.
Qed.

Lemma transpose_mk_mat n m f :
  (0 < n)%nat -> transpose (mk_mat n m f) = mk_mat m n (fun j i => f i j).
Proof.
  intros H. unfold transpose. rewrite ncols_mk_mat by exact H.
  unfold mk_mat at 2. apply map_ext_in. intros j Hj. apply in_seq in Hj.
  rewrite col_seq. destruct (has_shape_mk_mat n m f) as [-> _].
  apply mk_vec_ext. intros i Hi. apply entry_mk_mat; lia.
Qed.

(** Reductions along a dimension. *)
Lemma reduce_rows_mk (red : vec -> fval) n m f :
  map red (mk_mat n m f) = mk_vec n (fun i => red (mk_vec m (f i))).
Proof. unfold mk_mat, mk_vec. now rewrite map_map. Qed.

Lemma reduce_cols_mk (red : vec -> fval) n m f :
  (0 < n)%nat ->
  map red (transpose (mk_mat n m f))
  = mk_vec m (fun j => red (mk_vec n (fun i => f i j))).
Proof. intros H. rewrite transpose_mk_mat by exact H. apply reduce_rows_mk. Qed.

Lemma zeros_like_mk n v :
  List.length v = n -> zeros_like v = mk_vec n (fun _ => Fin 0).
Proof.
  intros <-. unfold zeros_like, mk_vec.
  exact (map_seq_nth (fun _ => Fin 0) v NaN).
Qed.

Lemma ones_like_mk n v :
  List.length v = n -> ones_like v = mk_vec n (fun _ => Fin 1).
Proof.
  intros <-. unfold ones_like, mk_vec.
  exact (map_seq_nth (fun _ => Fin 1) v NaN).
Qed.

Lemma map_eta n g (v : vec) :
  List.length v = n -> map g v = mk_vec n (fun i => g (nth i v NaN)).
Proof. intros <-. apply map_seq_nth. Qed.

Lemma vmap2_eta op n (v w : vec) :
  List.length v = n -> List.length w = n ->
  vmap2 op v w = mk_vec n (fun i => op (nth i v NaN) (nth i w NaN)).
Proof. intros Hv Hw. unfold vmap2, mk_vec. now apply map2_seq. Qed.

Lemma mmap_eta g n m (A : mat) :
  has_shape n m A -> mmap g A = mk_mat n m (fun i j => g (entry A i j)).
Proof.
  intros H. transitivity (mmap g (mk_mat n m (entry A))).
  - f_equal. now apply mat_eta.
  - apply mmap_mk_mat.
Qed.

Lemma mmap2_eta op n m (A B : mat) :
  has_shape n m A -> has_shape n m B ->
  mmap2 op A B = mk_mat n m (fun i j => op (entry A i j) (entry B i j)).
Proof.
  intros HA HB.
  transitivity (mmap2 op (mk_mat n m (entry A)) (mk_mat n m (entry B))).
  - f_equal; now apply mat_eta.
  - apply mmap2_mk_mat.
Qed.

Lemma outer_eta op n m (v w : vec) :
  List.length v = n -> List.length w = m ->
  outer op v w = mk_mat n m (fun i j => op (nth i v NaN) (nth j w NaN)).
Proof.
  intros Hv Hw.
  transitivity (outer op (mk_vec n (fun i => nth i v NaN))
                         (mk_vec m (fun j => nth j w NaN))).
  - f_equal; now apply vec_eta.
  - apply outer_mk_vec.
Qed.

(** ** Loops that update, then test *)

(** A loop whose body always computes [upd s] and then breaks or not, as
    long as an invariant holds: it returns the [k]-th iterate of [upd],
    where [k] is the number of iterations run; when the budget is not
    exhausted the test succeeded in the last one, and it failed in all
    the iterations before the last. *)
Lemma for_loop_update_stop {St : Type} (body : Z -> St -> result (ctl St))
  (upd : St -> St) (stop : Z -> St -> bool) (Inv : St -> Prop) :
  (forall idx s, Inv s ->
     Inv (upd s) /\
     body idx s = Ok (if stop idx s then Break (upd s) else Continue (upd s))) ->
  forall n i s, Inv s ->
  exists k,
    (k <= n)%nat /\
    for_loop body (map Z.of_nat (seq i n)) s = Ok (Nat.iter k upd s) /\
    Inv (Nat.iter k upd s) /\
    ((k < n)%nat ->
       (0 < k)%nat /\
       stop (Z.of_nat (i + (k - 1))) (Nat.iter (k - 1) upd s) = true) /\
    (forall j, (S j < k)%nat ->
       stop (Z.of_nat (i + j)) (Nat.iter j upd s) = false).
Proof.
  intros Hbody. induction n as [| n IH]; intros i s Hs.
  - exists 0%nat. cbn. repeat split; auto; lia.
  - destruct (Hbody (Z.of_nat i) s Hs) as [Hs' Hb].
    cbn [seq map for_loop]. rewrite Hb.
    destruct (stop (Z.of_nat i) s) eqn:Hstop.
    + exists 1%nat. cbn [Nat.iter nat_rect]. split; [lia |].
      split; [reflexivity |]. split; [exact Hs' |]. split.
      * intros _. split; [lia |]. cbn. now rewrite Nat.add_0_r.
      * intros j Hj. lia.
    + destruct (IH (S i) (upd s) Hs') as [k [Hk [Hrun [Hinv [Hlast Hbefore]]]]].
      exists (S k). rewrite Nat.iter_succ_r. split; [lia |].
      split; [exact Hrun |]. split; [exact Hinv |]. split.
      * intros Hlt. split; [lia |].
        destruct (Hlast ltac:(lia)) as [Hpos Htrue].
        replace (S k - 1)%nat with (S (k - 1)) by lia.
        rewrite Nat.iter_succ_r.
        replace (i + S (k - 1))%nat with (S i + (k - 1))%nat by lia.
        exact Htrue.
      * intros [| j] Hj.
        -- cbn. now rewrite Nat.add_0_r.
        -- rewrite Nat.iter_succ_r.
           replace (i + S j)%nat with (S i + j)%nat by lia.
           apply Hbefore. lia.
Qed.

Lemma max_abs_diff_ok n a b :
  (0 < n)%nat -> List.length a = n -> List.length b = n ->
  max_abs_diff a b = Ok (max_abs_change a b).
Proof.
  intros Hn Ha Hb. unfold max_abs_diff, max_abs_change.
  apply tmax_reduce. intros H. apply (f_equal (@List.length _)) in H.
  unfold vmap2 in H. rewrite length_map, map2_length in H. cbn in H. lia.
Qed.

Lemma converged2_ok n m idx eval_freq tol a a_prev b b_prev :
  eval_freq <> 0%Z -> (0 < n)%nat -> (0 < m)%nat ->
  List.length a = n -> List.length a_prev = n ->
  List.length b = m -> List.length b_prev = m ->
  converged2 idx eval_freq tol a a_prev b b_prev
  = Ok (converged_spec idx eval_freq tol a a_prev b b_prev).
Proof.
  intros He Hn Hm Ha Ha' Hb Hb'. unfold converged2, converged_spec, py_mod.
  destruct (Z.eqb_spec eval_freq 0) as [| _]; [contradiction |].
  cbn [bind]. destruct ((idx mod eval_freq) =? 0)%Z; [| reflexivity].
  rewrite (max_abs_diff_ok n), (max_abs_diff_ok m) by assumption.
  reflexivity.
Qed.

(** ** The scaling solver *)

Section Scaling.

Variables (n m : nat) (cost pxy : mat) (log_px log_py : vec)
  (rho_x rho_y eps tol : fval) (eval_freq : Z).
Hypotheses (Hn : (0 < n)%nat) (Hm : (0 < m)%nat)
  (Hcost : has_shape n m cost)
  (Hlpx : List.length log_px = n) (Hlpy : List.length log_py = m).

Lemma scaling_update_vy_spec vx vy :
  List.length vx = n -> List.length vy = m ->
  scaling_update_vy cost log_px rho_y eps (scaling_tau rho_y eps) vx vy
  = scaling_vy_spec n m cost log_px rho_y eps vx.
Proof.
  intros Hvx Hvy. unfold scaling_update_vy, scaling_vy_spec.
  destruct (feqb rho_y (Fin 0)); [now apply zeros_like_mk |].
  rewrite (vmap2_eta fadd n) by assumption.
  rewrite (mmap_eta _ n m) by assumption.
  rewrite bcast_col_mk. unfold logsumexp_dim0.
  rewrite reduce_cols_mk by assumption.
  apply map_mk_vec.
Qed.

Lemma scaling_update_vx_spec vx vy :
  List.length vx = n -> List.length vy = m ->
  scaling_update_vx cost log_py rho_x eps (scaling_tau rho_x eps) vx vy
  = scaling_vx_spec n m cost log_py rho_x eps vy.
Proof.
  intros Hvx Hvy. unfold scaling_update_vx, scaling_vx_spec.
  destruct (feqb rho_x (Fin 0)); [now apply zeros_like_mk |].
  rewrite (vmap2_eta fadd m) by assumption.
  rewrite (mmap_eta _ n m) by assumption.
  rewrite bcast_row_mk. unfold logsumexp_dim1.
  rewrite reduce_rows_mk.
  apply map_mk_vec.
Qed.

Lemma scaling_coupling_eq vx vy :
  has_shape n m pxy -> List.length vx = n -> List.length vy = m ->
  scaling_coupling cost pxy eps vx vy
  = scaling_coupling_spec n m cost pxy eps vx vy.
Proof.
  intros Hpxy Hvx Hvy. unfold scaling_coupling, scaling_coupling_spec.
  rewrite (outer_eta fadd n m) by assumption.
  rewrite (mmap_eta _ n m cost) by assumption.
  rewrite mmap2_mk_mat, mmap_mk_mat.
  rewrite (mat_eta n m pxy Hpxy) at 1.
  rewrite mmap2_mk_mat. reflexivity.
Qed.

Lemma scaling_body_spec idx duals :
  eval_freq <> 0%Z ->
  List.length (fst duals) = n /\ List.length (snd duals) = m ->
  (let duals' := scaling_step_spec n m cost log_px log_py rho_x rho_y eps duals in
   List.length (fst duals') = n /\ List.length (snd duals') = m) /\
  scaling_body cost log_px log_py rho_x rho_y eps
    (scaling_tau rho_x eps) (scaling_tau rho_y eps) tol eval_freq idx duals
  = Ok (if scaling_stop n m cost log_px log_py rho_x rho_y eps tol eval_freq
             idx duals
        then Break (scaling_step_spec n m cost log_px log_py rho_x rho_y eps duals)
        else Continue (scaling_step_spec n m cost log_px log_py rho_x rho_y eps duals)).
Proof.
  intros He [Hvx Hvy]. destruct duals as [vx vy]. cbn [fst snd] in *.
  split.
  - unfold scaling_step_spec, scaling_vx_spec, scaling_vy_spec. cbn [fst snd].
    now rewrite !length_mk_vec.
  - unfold scaling_body, scaling_stop, scaling_step_spec. cbn [fst snd].
    rewrite scaling_update_vy_spec by assumption.
    rewrite scaling_update_vx_spec
      by (trivial; unfold scaling_vy_spec; apply length_mk_vec).
    rewrite (converged2_ok n m)
      by (trivial; unfold scaling_vx_spec, scaling_vy_spec; apply length_mk_vec).
    reflexivity.
Qed.

End Scaling.

Lemma entry_outer op n m (v w : vec) i j :
  List.length v = n -> List.length w = m -> (i < n)%nat -> (j < m)%nat ->
  entry (outer op v w) i j = op (nth i v NaN) (nth j w NaN).
Proof.
  intros Hv Hw Hi Hj. rewrite (outer_eta op n m) by assumption.
  now apply entry_mk_mat.
Qed.

(** C5. On an [n] by [m] problem ([n, m >= 1], [eval_freq] not zero)
    [solver_scaling] returns; the duals it returns are the [k]-th iterate,
    for some [k] within the budget, of the alternating update
    [vy <- - tau_y * logsumexp over the source dimension of ((vx + log_px)
    - C / eps)], [vx <- - tau_x * logsumexp over the target dimension of
    ((vy + log_py) - C / eps)], with [tau = rho / (rho + eps)] replaced by
    [1] for an infinite [rho] and the dual set to [0] for [rho = 0]; the
    loop stops before the budget only at an iteration where the
    convergence test holds; and the coupling returned is [pxy * exp (vx (+)
    vy - C / eps)] at the returned duals, that is [px_i * py_j * exp ...]
    when [pxy] is the product measure. *)
Theorem solver_scaling_spec (n m : nat) (cost pxy : mat)
  (log_px log_py vx0 vy0 : vec) (rho_x rho_y eps tol : fval)
  (niters eval_freq : Z) :
  (0 < n)%nat -> (0 < m)%nat ->
  has_shape n m cost -> has_shape n m pxy ->
  List.length log_px = n -> List.length log_py = m ->
  List.length vx0 = n -> List.length vy0 = m ->
  eval_freq <> 0%Z ->
  exists k,
    (k <= Z.to_nat niters)%nat /\
    solver_scaling cost (vx0, vy0) (rho_x, rho_y, eps) (log_px, log_py, pxy)
      (niters, tol, eval_freq)
    = Ok (Nat.iter k (scaling_step_spec n m cost log_px log_py rho_x rho_y eps)
            (vx0, vy0),
          scaling_coupling_spec n m cost pxy eps
            (fst (Nat.iter k
                    (scaling_step_spec n m cost log_px log_py rho_x rho_y eps)
                    (vx0, vy0)))
            (snd (Nat.iter k
                    (scaling_step_spec n m cost log_px log_py rho_x rho_y eps)
                    (vx0, vy0)))) /\
    ((k < Z.to_nat niters)%nat ->
       (0 < k)%nat /\
       scaling_stop n m cost log_px log_py rho_x rho_y eps tol eval_freq
         (Z.of_nat (k - 1))
         (Nat.iter (k - 1)
            (scaling_step_spec n m cost log_px log_py rho_x rho_y eps)
            (vx0, vy0)) = true) /\
    (forall j, (S j < k)%nat ->
       scaling_stop n m cost log_px log_py rho_x rho_y eps tol eval_freq
         (Z.of_nat j)
         (Nat.iter j (scaling_step_spec n m cost log_px log_py rho_x rho_y eps)
            (vx0, vy0)) = false) /\
    (forall rho,
       scaling_tau rho eps
       = match rho with
         | PInf | NInf => Fin 1
         | _ => fdiv rho (fadd rho eps)
         end) /\
    (forall px py vx vy i j,
       pxy = outer fmul px py ->
       List.length px = n -> List.length py = m ->
       (i < n)%nat -> (j < m)%nat ->
       entry (scaling_coupling_spec n m cost pxy eps vx vy) i j
       = fmul (fmul (nth i px NaN) (nth j py NaN))
              (fexp (fsub (fadd (nth i vx NaN) (nth j vy NaN))
                          (fdiv (entry cost i j) eps)))).
Proof.
  intros Hn Hm Hcost Hpxy Hlpx Hlpy Hvx Hvy He.
  destruct (for_loop_update_stop
              (scaling_body cost log_px log_py rho_x rho_y eps
                 (scaling_tau rho_x eps) (scaling_tau rho_y eps) tol eval_freq)
              (scaling_step_spec n m cost log_px log_py rho_x rho_y eps)
              (scaling_stop n m cost log_px log_py rho_x rho_y eps tol eval_freq)
              (fun duals => List.length (fst duals) = n /\
                            List.length (snd duals) = m)
              (fun idx s Hs =>
                 scaling_body_spec n m cost log_px log_py rho_x rho_y eps tol
                   eval_freq Hn Hm Hcost Hlpx Hlpy idx s He Hs)
              (Z.to_nat niters) 0%nat (vx0, vy0) (conj Hvx Hvy))
    as [k [Hk [Hrun [[Hkx Hky] [Hlast Hbefore]]]]].
  exists k. split; [exact Hk |]. split; [| split; [| split; [| split]]].
  - unfold solver_scaling, range. rewrite Hrun. cbn [bind].
    destruct (Nat.iter k _ (vx0, vy0)) as [vx vy]. cbn [fst snd] in *.
    now rewrite (scaling_coupling_eq n m).
  - exact Hlast.
  - exact Hbefore.
  - intros rho. unfold scaling_tau. now destruct rho.
  - intros px py vx vy i j -> Hpx Hpy Hi Hj.
    unfold scaling_coupling_spec. rewrite entry_mk_mat by assumption.
    now rewrite (entry_outer fmul n m).
Qed.

Lemma solver_scaling_spec_witness :
  exists k,
    (k <= 3)%nat /\
    solver_scaling [[Fin 1; Fin 2]] ([Fin 0], [Fin 0; Fin 0])
      (Fin 2, PInf, Fin 1) ([Fin 0], [Fin 0; Fin 0], [[Fin 1; Fin 1]])
      (3%Z, Fin 0, 1%Z)
    = Ok (Nat.iter k
            (scaling_step_spec 1 2 [[Fin 1; Fin 2]] [Fin 0] [Fin 0; Fin 0]
               (Fin 2) PInf (Fin 1))
            ([Fin 0], [Fin 0; Fin 0]),
          scaling_coupling_spec 1 2 [[Fin 1; Fin 2]] [[Fin 1; Fin 1]] (Fin 1)
            (fst (Nat.iter k
                    (scaling_step_spec 1 2 [[Fin 1; Fin 2]] [Fin 0]
                       [Fin 0; Fin 0] (Fin 2) PInf (Fin 1))
                    ([Fin 0], [Fin 0; Fin 0])))
            (snd (Nat.iter k
                    (scaling_step_spec 1 2 [[Fin 1; Fin 2]] [Fin 0]
                       [Fin 0; Fin 0] (Fin 2) PInf (Fin 1))
                    ([Fin 0], [Fin 0; Fin 0])))).
Proof.
  destruct (solver_scaling_spec 1 2 [[Fin 1; Fin 2]] [[Fin 1; Fin 1]]
              [Fin 0] [Fin 0; Fin 0] [Fin 0] [Fin 0; Fin 0]
              (Fin 2) PInf (Fin 1) (Fin 0) 3 1)
    as [k [Hk [Hrun _]]];
    try reflexivity; try lia; try (split; [reflexivity | repeat constructor]).
  exists k. split; [exact Hk | exact Hrun].
Defined.

(** ** The majorization-minimization solver *)

Section MM.

Variables (n m : nat) (cost : mat) (px py : vec)
  (rho_x rho_y eps tol : fval) (eval_freq : Z).
Hypotheses (Hn : (0 < n)%nat) (Hm : (0 < m)%nat)
  (Hcost : has_shape n m cost)
  (Hpx : List.length px = n) (Hpy : List.length py = m).

Lemma sum_dim1_row_mass pi : has_shape n m pi -> sum_dim1 pi = row_mass n m pi.
Proof.
  intros H. unfold sum_dim1, row_mass.
  rewrite (mat_eta n m pi H) at 1. apply reduce_rows_mk.
Qed.

Lemma sum_dim0_col_mass pi : has_shape n m pi -> sum_dim0 pi = col_mass n m pi.
Proof.
  intros H. unfold sum_dim0, col_mass.
  rewrite (mat_eta n m pi H) at 1. now apply reduce_cols_mk.
Qed.

Lemma mm_kernel_eq :
  mm_kernel cost px py rho_x rho_y eps
  = mm_kernel_spec n m cost px py rho_x rho_y eps.
Proof.
  unfold mm_kernel, mm_kernel_spec, mm_tau, mm_r, mm_S.
  rewrite (map_eta n _ px), (map_eta m _ py) by assumption.
  rewrite outer_mk_vec.
  rewrite (mmap_eta _ n m cost) by assumption.
  rewrite mmap_mk_mat, mmap2_mk_mat. reflexivity.
Qed.

Lemma mm_update_eq pi :
  has_shape n m pi ->
  mm_update (mm_kernel_spec n m cost px py rho_x rho_y eps)
    (mm_tau rho_x rho_x rho_y eps) (mm_tau rho_y rho_x rho_y eps)
    (row_mass n m pi) (col_mass n m pi) pi
  = mm_step_spec n m cost px py rho_x rho_y eps pi.
Proof.
  intros Hpi. unfold mm_update, mm_step_spec.
  rewrite (mmap_eta _ n m pi) by assumption.
  rewrite (map_eta n _ (row_mass n m pi)) by apply length_mk_vec.
  rewrite (map_eta m _ (col_mass n m pi)) by apply length_mk_vec.
  rewrite outer_mk_vec, mmap2_mk_mat.
  rewrite (mmap2_eta fmul n m)
    by (try apply has_shape_mk_mat).
  apply mk_mat_ext. intros i j Hi Hj.
  now rewrite entry_mk_mat by assumption.
Qed.

Lemma mm_body_spec idx st :
  eval_freq <> 0%Z ->
  has_shape n m (snd st) /\ st = mm_state n m (snd st) ->
  (has_shape n m (mm_step_spec n m cost px py rho_x rho_y eps (snd st)) /\
   mm_state n m (mm_step_spec n m cost px py rho_x rho_y eps (snd st))
   = mm_state n m
       (snd (mm_state n m
               (mm_step_spec n m cost px py rho_x rho_y eps (snd st))))) /\
  mm_body (mm_kernel_spec n m cost px py rho_x rho_y eps)
    (mm_tau rho_x rho_x rho_y eps) (mm_tau rho_y rho_x rho_y eps)
    tol eval_freq idx st
  = Ok (if mm_stop n m cost px py rho_x rho_y eps tol eval_freq idx (snd st)
        then Break (mm_state n m (mm_step_spec n m cost px py rho_x rho_y eps (snd st)))
        else Continue (mm_state n m (mm_step_spec n m cost px py rho_x rho_y eps (snd st)))).
Proof.
  intros He [Hshape Hst]. destruct st as [[pi1 pi2] pi]. cbn [snd] in *.
  inversion Hst as [[H1 H2]]. clear Hst.
  assert (has_shape n m (mm_step_spec n m cost px py rho_x rho_y eps pi)) as Hs'
    by apply has_shape_mk_mat.
  split; [split; [exact Hs' | reflexivity] |].
  unfold mm_body. rewrite <- H1, <- H2 at 1.
  fold (row_mass n m pi). rewrite H1 at 1. rewrite H2 at 1.
  rewrite mm_update_eq by assumption.
  rewrite sum_dim1_row_mass, sum_dim0_col_mass by assumption.
  rewrite (converged2_ok n m) by (trivial; apply length_mk_vec).
  unfold mm_stop, mm_state. reflexivity.
Qed.

Lemma mm_iter_state k pi :
  Nat.iter k
    (fun st => mm_state n m (mm_step_spec n m cost px py rho_x rho_y eps (snd st)))
    (mm_state n m pi)
  = mm_state n m (Nat.iter k (mm_step_spec n m cost px py rho_x rho_y eps) pi).
Proof.
  induction k as [| k IH]; cbn [Nat.iter nat_rect]; trivial.
  change (nat_rect _ ?x ?f k) with (Nat.iter k (fun s => f k s) x) in *.
  cbn beta in *. now rewrite IH.
Qed.

End MM.

(** C6. On an [n] by [m] problem ([n, m >= 1], [eval_freq] not zero)
    [solver_mm] returns a coupling and nothing else: the [k]-th iterate,
    for some [k] within the budget, of [pi <- pi ^ (tau_x + tau_y) /
    (pi_row ^ tau_x (x) pi_col ^ tau_y) * K] from the initial coupling,
    where [K = px ^ (tau_x + r) (x) py ^ (tau_y + r) * exp (- C / S)] is
    built once, with [S = rho_x + rho_y + eps], [tau_x = rho_x / S],
    [tau_y = rho_y / S], [r = eps / S]; the loop stops before the budget
    only at an iteration [idx] with [idx % eval_freq = 0] where the largest
    absolute changes of the row and of the column masses are below [tol],
    and at no earlier iteration did that test hold. *)
Theorem solver_mm_spec (n m : nat) (cost init_pi : mat) (px py : vec)
  (rho_x rho_y eps tol : fval) (niters eval_freq : Z) :
  (0 < n)%nat -> (0 < m)%nat ->
  has_shape n m cost -> has_shape n m init_pi ->
  List.length px = n -> List.length py = m ->
  eval_freq <> 0%Z ->
  exists k,
    (k <= Z.to_nat niters)%nat /\
    solver_mm cost init_pi (rho_x, rho_y, eps) (px, py)
      (niters, tol, eval_freq)
    = Ok (Nat.iter k (mm_step_spec n m cost px py rho_x rho_y eps) init_pi) /\
    ((k < Z.to_nat niters)%nat ->
       (0 < k)%nat /\
       mm_stop n m cost px py rho_x rho_y eps tol eval_freq (Z.of_nat (k - 1))
         (Nat.iter (k - 1) (mm_step_spec n m cost px py rho_x rho_y eps) init_pi)
       = true) /\
    (forall j, (S j < k)%nat ->
       mm_stop n m cost px py rho_x rho_y eps tol eval_freq (Z.of_nat j)
         (Nat.iter j (mm_step_spec n m cost px py rho_x rho_y eps) init_pi)
       = false) /\
    (forall idx pi,
       mm_stop n m cost px py rho_x rho_y eps tol eval_freq idx pi = true ->
       (idx mod eval_freq = 0)%Z /\
       fltb (py_max2
               (max_abs_change
                  (row_mass n m (mm_step_spec n m cost px py rho_x rho_y eps pi))
                  (row_mass n m pi))
               (max_abs_change
                  (col_mass n m (mm_step_spec n m cost px py rho_x rho_y eps pi))
                  (col_mass n m pi)))
            tol = true).
Proof.
  intros Hn Hm Hcost Hpi Hpx Hpy He.
  destruct (for_loop_update_stop
              (mm_body (mm_kernel_spec n m cost px py rho_x rho_y eps)
                 (mm_tau rho_x rho_x rho_y eps) (mm_tau rho_y rho_x rho_y eps)
                 tol eval_freq)
              (fun st => mm_state n m
                           (mm_step_spec n m cost px py rho_x rho_y eps (snd st)))
              (fun idx st =>
                 mm_stop n m cost px py rho_x rho_y eps tol eval_freq idx (snd st))
              (fun st => has_shape n m (snd st) /\ st = mm_state n m (snd st))
              (fun idx s Hs =>
                 mm_body_spec n m cost px py rho_x rho_y eps tol eval_freq
                   Hn Hm idx s He Hs)
              (Z.to_nat niters) 0%nat (mm_state n m init_pi)
              (conj Hpi eq_refl))
    as [k [Hk [Hrun [_ [Hlast Hbefore]]]]].
  exists k. split; [exact Hk |]. split; [| split; [| split]].
  - unfold solver_mm.
    rewrite (mm_kernel_eq n m) by assumption.
    rewrite (sum_dim1_row_mass n m), (sum_dim0_col_mass n m) by assumption.
    change (fdiv rho_x (fadd (fadd rho_x rho_y) eps))
      with (mm_tau rho_x rho_x rho_y eps).
    change (fdiv rho_y (fadd (fadd rho_x rho_y) eps))
      with (mm_tau rho_y rho_x rho_y eps).
    fold (mm_state n m init_pi). unfold range. rewrite Hrun.
    rewrite mm_iter_state. reflexivity.
  - intros Hlt. destruct (Hlast Hlt) as [Hpos Htrue]. split; [exact Hpos |].
    rewrite mm_iter_state in Htrue. exact Htrue.
  - intros j Hj. specialize (Hbefore j Hj).
    rewrite mm_iter_state in Hbefore. exact Hbefore.
  - intros idx pi Hstop. unfold mm_stop, converged_spec in Hstop.
    apply andb_true_iff in Hstop. destruct Hstop as [H1 H2].
    split; [now apply Z.eqb_eq | exact H2].
Qed.

Lemma solver_mm_spec_witness :
  exists k,
    (k <= 4)%nat /\
    solver_mm [[Fin 1; Fin 2]; [Fin 0; Fin 3]]
      [[Fin 1; Fin 1]; [Fin 1; Fin 1]] (Fin 2, Fin 3, Fin 0)
      ([Fin 1; Fin 1], [Fin 1; Fin 1]) (4%Z, Fin 0, 2%Z)
    = Ok (Nat.iter k
            (mm_step_spec 2 2 [[Fin 1; Fin 2]; [Fin 0; Fin 3]]
               [Fin 1; Fin 1] [Fin 1; Fin 1] (Fin 2) (Fin 3) (Fin 0))
            [[Fin 1; Fin 1]; [Fin 1; Fin 1]]).
Proof.
  destruct (solver_mm_spec 2 2 [[Fin 1; Fin 2]; [Fin 0; Fin 3]]
              [[Fin 1; Fin 1]; [Fin 1; Fin 1]] [Fin 1; Fin 1] [Fin 1; Fin 1]
              (Fin 2) (Fin 3) (Fin 0) (Fin 0) 4 2)
    as [k [Hk [Hrun _]]];
    try reflexivity; try lia; try (split; [reflexivity | repeat constructor]).
  exists k. split; [exact Hk | exact Hrun].
Defined.

(** ** Loops that may raise *)

Lemma continues_app {St} (body : Z -> St -> result (ctl St)) l l' s s' s'' :
  continues body l s s' -> continues body l' s' s'' ->
  continues body (l ++ l') s s''.
Proof.
  induction 1 as [| idx rest s s1 s2 Hb _ IH]; intros H'; cbn; trivial.
  econstructor; [exact Hb | now apply IH].
Qed.

(** A loop raises exactly when some iteration is reached through
    iterations that continue, and raises. *)
Lemma for_loop_raise {St} (body : Z -> St -> result (ctl St)) idxs s e :
  for_loop body idxs s = Raise e <->
  exists pre idx post s',
    idxs = pre ++ idx :: post /\
    continues body pre s s' /\ body idx s' = Raise e.
Proof.
  revert s. induction idxs as [| idx idxs IH]; intros s; cbn [for_loop].
  - split; [discriminate |]. intros [pre [i [post [s' [H _]]]]].
    destruct pre; discriminate.
  - split.
    + destruct (body idx s) as [[s1 | s1] | e1] eqn:Hb.
      * intros H. apply IH in H. destruct H as [pre [i [post [s' [-> [Hc Hr]]]]]].
        exists (idx :: pre), i, post, s'. repeat split; trivial.
        econstructor; eassumption.
      * discriminate.
      * intros H. inversion H; subst.
        exists [], idx, idxs, s. repeat split; trivial. constructor.
    + intros [pre [i [post [s' [Heq [Hc Hr]]]]]].
      destruct pre as [| i0 pre]; cbn in Heq; inversion Heq; subst.
      * inversion Hc; subst. now rewrite Hr.
      * inversion Hc as [| ? ? ? s1 ? Hb Hc']; subst. rewrite Hb.
        apply IH. exists pre, i, post, s'. auto.
Qed.

(** A loop returns [r] exactly when it runs out of iterations in state
    [r], or reaches an iteration that breaks with [r]. *)
Lemma for_loop_ok {St} (body : Z -> St -> result (ctl St)) idxs s r :
  for_loop body idxs s = Ok r <->
  continues body idxs s r \/
  exists pre idx post s',
    idxs = pre ++ idx :: post /\
    continues body pre s s' /\ body idx s' = Ok (Break r).
Proof.
  revert s. induction idxs as [| idx idxs IH]; intros s; cbn [for_loop].
  - split.
    + intros H. inversion H; subst. left. constructor.
    + intros [H | [pre [i [post [s' [H _]]]]]].
      * now inversion H.
      * destruct pre; discriminate.
  - split.
    + destruct (body idx s) as [[s1 | s1] | e1] eqn:Hb.
      * intros H. apply IH in H.
        destruct H as [Hc | [pre [i [post [s' [-> [Hc Hr]]]]]]].
        -- left. econstructor; eassumption.
        -- right. exists (idx :: pre), i, post, s'. repeat split; trivial.
           econstructor; eassumption.
      * intros H. inversion H; subst. right.
        exists [], idx, idxs, s. repeat split; trivial. constructor.
      * discriminate.
    + intros [Hc | [pre [i [post [s' [Heq [Hc Hr]]]]]]].
      * inversion Hc as [| ? ? ? s1 ? Hb Hc']; subst. rewrite Hb.
        apply IH. now left.
      * destruct pre as [| i0 pre]; cbn in Heq; inversion Heq; subst.
        -- inversion Hc; subst. now rewrite Hr.
        -- inversion Hc as [| ? ? ? s1 ? Hb Hc']; subst. rewrite Hb.
           apply IH. right. exists pre, i, post, s'. auto.
Qed.

Lemma range_length n : List.length (range n) = Z.to_nat n.
Proof. unfold range. now rewrite length_map, length_seq. Qed.

(** The indices before [idx] in [range n] are [range idx]. *)
Lemma range_split n pre idx post :
  range n = pre ++ idx :: post ->
  pre = range idx /\ (0 <= idx < n)%Z.
Proof.
  unfold range. intros H.
  assert (List.length pre < Z.to_nat n)%nat as Hlen.
  { apply (f_equal (@List.length _)) in H.
    rewrite length_map, length_seq, length_app in H. cbn in H. lia. }
  assert (idx = Z.of_nat (List.length pre)) as Hidx.
  { apply (f_equal (fun l => nth (List.length pre) l 0%Z)) in H.
    rewrite nth_middle in H. rewrite <- H.
    rewrite (nth_map_in Z.of_nat _ _ 0%nat) by (rewrite length_seq; lia).
    now rewrite seq_nth by lia. }
  split; [| lia].
  rewrite Hidx, Nat2Z.id.
  apply (nth_ext _ _ 0%Z 0%Z).
  - now rewrite length_map, length_seq.
  - intros i Hi.
    rewrite <- (app_nth1 pre (idx :: post) 0%Z Hi), <- H.
    rewrite !(nth_map_in Z.of_nat _ _ 0%nat) by (rewrite length_seq; lia).
    now rewrite !seq_nth by lia.
Qed.

Lemma range_middle n idx :
  (0 <= idx < n)%Z -> exists post, range n = range idx ++ idx :: post.
Proof.
  intros H. unfold range.
  replace (Z.to_nat n) with (Z.to_nat idx + S (Z.to_nat n - Z.to_nat idx - 1))%nat
    by lia.
  rewrite seq_app, map_app. cbn [seq map Nat.add]. rewrite Z2Nat.id by lia.
  eexists. reflexivity.
Qed.

(** ** The dc solver *)

Section DC.

Variables (cost : mat) (px py : vec) (pxy : mat)
  (rho1 rho2 eps eps_base tol : fval) (eval_freq : Z).

Lemma dc_loop_body_cases idx st :
  dc_loop_body cost px py rho1 rho2 eps eps_base tol eval_freq idx st =
  if (eval_freq =? 0)%Z then Raise ZeroDivisionError
  else if ((idx mod eval_freq) =? 0)%Z then
    if has_nan_or_inf (dc_mass_after cost px py rho1 rho2 eps eps_base st) then Raise (ValueError nan_in_coupling)
    else
      match max_abs_diff (dc_mass_after cost px py rho1 rho2 eps eps_base st) (dc_last_mass st) with
      | Raise e => Raise e
      | Ok error =>
          if fltb error tol then Ok (Break (dc_advance cost px py rho1 rho2 eps eps_base st, dc_mass_after cost px py rho1 rho2 eps eps_base st))
          else Ok (Continue (dc_advance cost px py rho1 rho2 eps eps_base st, dc_mass_after cost px py rho1 rho2 eps eps_base st))
      end
  else Ok (Continue (dc_advance cost px py rho1 rho2 eps eps_base st, dc_last_mass st)).
Proof.
  destruct st as [[[u v] pi] m1].
  unfold dc_loop_body, dc_body, dc_mass_after, dc_last_mass, dc_advance, py_mod.
  destruct (dc_update _ px py rho1 rho2 _ _ eps_base _ u v pi) as [[u' v'] pi'].
  cbn [snd]. destruct (eval_freq =? 0)%Z; [reflexivity |]. cbn [bind].
  destruct ((idx mod eval_freq) =? 0)%Z; [| reflexivity].
  destruct (has_nan_or_inf (sum_dim1 pi')); [reflexivity |].
  destruct (max_abs_diff (sum_dim1 pi') m1) as [err | e]; [| reflexivity].
  cbn [bind]. now destruct (fltb err tol).
Qed.

(** The body raises the fatal error exactly at a checkpoint whose
    recomputed row mass has a [nan] or an infinite entry. *)
Lemma dc_loop_body_fatal idx st msg :
  dc_loop_body cost px py rho1 rho2 eps eps_base tol eval_freq idx st = Raise (ValueError msg) <->
  eval_freq <> 0%Z /\ (idx mod eval_freq = 0)%Z /\
  has_nan_or_inf (dc_mass_after cost px py rho1 rho2 eps eps_base st) = true /\ msg = nan_in_coupling.
Proof.
  rewrite dc_loop_body_cases.
  destruct (Z.eqb_spec eval_freq 0) as [He | He].
  { split; [discriminate | tauto]. }
  destruct (Z.eqb_spec (idx mod eval_freq) 0) as [Hc | Hc].
  2:{ split; [discriminate | tauto]. }
  destruct (has_nan_or_inf (dc_mass_after cost px py rho1 rho2 eps eps_base st)) eqn:Hbad.
  - split.
    + intros H. inversion H. auto.
    + intros [_ [_ [_ ->]]]. reflexivity.
  - split; [| intros [_ [_ [H _]]]; discriminate].
    unfold max_abs_diff, tmax.
    destruct (map fabs _) as [| a rest]; [discriminate |].
    destruct (fltb _ tol); discriminate.
Qed.

Lemma dc_loop_body_break idx st st' :
  dc_loop_body cost px py rho1 rho2 eps eps_base tol eval_freq idx st = Ok (Break st') <->
  eval_freq <> 0%Z /\ (idx mod eval_freq = 0)%Z /\
  has_nan_or_inf (dc_mass_after cost px py rho1 rho2 eps eps_base st) = false /\
  exists error,
    max_abs_diff (dc_mass_after cost px py rho1 rho2 eps eps_base st) (dc_last_mass st) = Ok error /\
    fltb error tol = true /\
    st' = (dc_advance cost px py rho1 rho2 eps eps_base st, dc_mass_after cost px py rho1 rho2 eps eps_base st).
Proof.
  rewrite dc_loop_body_cases.
  destruct (Z.eqb_spec eval_freq 0) as [He | He].
  { split; [discriminate | tauto]. }
  destruct (Z.eqb_spec (idx mod eval_freq) 0) as [Hc | Hc].
  2:{ split; [discriminate | tauto]. }
  destruct (has_nan_or_inf (dc_mass_after cost px py rho1 rho2 eps eps_base st)) eqn:Hbad.
  { split; [discriminate | intros [_ [_ [H _]]]; discriminate]. }
  destruct (max_abs_diff (dc_mass_after cost px py rho1 rho2 eps eps_base st) (dc_last_mass st)) as [err | e].
  2:{ split; [discriminate | intros [_ [_ [_ [x [H _]]]]]; discriminate]. }
  destruct (fltb err tol) eqn:Hlt.
  - split.
    + intros H. inversion H. repeat split; trivial. exists err. auto.
    + intros [_ [_ [_ [x [Hx [_ ->]]]]]]. reflexivity.
  - split; [discriminate |].
    intros [_ [_ [_ [x [Hx [Hx' _]]]]]]. inversion Hx; subst. congruence.
Qed.

Lemma dc_loop_body_continue idx st st' :
  dc_loop_body cost px py rho1 rho2 eps eps_base tol eval_freq idx st = Ok (Continue st') <->
  eval_freq <> 0%Z /\
  (((idx mod eval_freq)%Z <> 0%Z /\ st' = (dc_advance cost px py rho1 rho2 eps eps_base st, dc_last_mass st)) \/
   ((idx mod eval_freq = 0)%Z /\
    has_nan_or_inf (dc_mass_after cost px py rho1 rho2 eps eps_base st) = false /\
    exists error,
      max_abs_diff (dc_mass_after cost px py rho1 rho2 eps eps_base st) (dc_last_mass st) = Ok error /\
      fltb error tol = false /\
      st' = (dc_advance cost px py rho1 rho2 eps eps_base st, dc_mass_after cost px py rho1 rho2 eps eps_base st))).
Proof.
  rewrite dc_loop_body_cases.
  destruct (Z.eqb_spec eval_freq 0) as [He | He].
  { split; [discriminate | tauto]. }
  destruct (Z.eqb_spec (idx mod eval_freq) 0) as [Hc | Hc].
  2:{ split.
      - intros H. inversion H. auto.
      - intros [_ [[_ ->] | [H _]]]; [reflexivity | contradiction]. }
  destruct (has_nan_or_inf (dc_mass_after cost px py rho1 rho2 eps eps_base st)) eqn:Hbad.
  { split; [discriminate |].
    intros [_ [[H _] | [_ [H _]]]]; [contradiction | discriminate]. }
  destruct (max_abs_diff (dc_mass_after cost px py rho1 rho2 eps eps_base st) (dc_last_mass st)) as [err | e].
  2:{ split; [discriminate |].
      intros [_ [[H _] | [_ [_ [x [H _]]]]]]; [contradiction | discriminate]. }
  destruct (fltb err tol) eqn:Hlt.
  - split; [discriminate |].
    intros [_ [[H _] | [_ [_ [x [Hx [Hx' _]]]]]]]; [contradiction |].
    inversion Hx; subst. congruence.
  - split.
    + intros H. inversion H. split; trivial. right. repeat split; trivial.
      exists err. auto.
    + intros [_ [[H _] | [_ [_ [x [Hx [_ ->]]]]]]]; [contradiction | reflexivity].
Qed.

End DC.

Lemma solver_dc_unfold cost init_pi u0 v0 rho1 rho2 eps px py pxy
  niters tol eval_freq eps_base :
  solver_dc cost init_pi (u0, v0) (rho1, rho2, eps) (px, py, pxy)
    (niters, tol, eval_freq) eps_base
  = ('(u, v, pi, _) <-
       for_loop (dc_loop_body cost px py rho1 rho2 eps eps_base tol eval_freq)
         (range niters) (u0, v0, init_pi, sum_dim1 init_pi) ;;
     Ok ((u, v), mmap2 fmul pi pxy)).
Proof. reflexivity. Qed.

(** C3. [solver_dc] raises the error "There is NaN in coupling. Please
    increase eps_base." -- and so returns no coupling -- exactly when some
    iteration [idx] of the budget with [idx % eval_freq = 0] is reached
    (every earlier iteration having ended without a [break]) and the row
    mass of the coupling just computed has a [nan] or an infinite entry.
    At a checkpoint without such an entry the loop compares the largest
    absolute change of the row mass since the last checkpoint with [tol]:
    it breaks when the change is below [tol] and goes on otherwise, the
    new row mass becoming the reference; off the checkpoints it goes on
    and keeps the reference.  When the solver returns, it returns the
    scaling vectors and the coupling, times [pxy], of the iteration that
    broke or of the last iteration of the budget. *)
Theorem solver_dc_fatal_exactly (cost init_pi : mat) (u0 v0 : vec)
  (rho1 rho2 eps : fval) (px py : vec) (pxy : mat)
  (niters : Z) (tol : fval) (eval_freq : Z) (eps_base : fval) :
  (forall msg,
     solver_dc cost init_pi (u0, v0) (rho1, rho2, eps) (px, py, pxy)
       (niters, tol, eval_freq) eps_base = Raise (ValueError msg) <->
     msg = nan_in_coupling /\ eval_freq <> 0%Z /\
     exists idx st,
       (0 <= idx < niters)%Z /\ (idx mod eval_freq = 0)%Z /\
       continues (dc_loop_body cost px py rho1 rho2 eps eps_base tol eval_freq)
         (range idx) (u0, v0, init_pi, sum_dim1 init_pi) st /\
       has_nan_or_inf (dc_mass_after cost px py rho1 rho2 eps eps_base st) = true) /\
  (forall idx st st',
     dc_loop_body cost px py rho1 rho2 eps eps_base tol eval_freq idx st
     = Ok (Break st') <->
     eval_freq <> 0%Z /\ (idx mod eval_freq = 0)%Z /\
     has_nan_or_inf (dc_mass_after cost px py rho1 rho2 eps eps_base st) = false /\
     exists error,
       max_abs_diff (dc_mass_after cost px py rho1 rho2 eps eps_base st)
         (dc_last_mass st) = Ok error /\
       fltb error tol = true /\
       st' = (dc_advance cost px py rho1 rho2 eps eps_base st,
              dc_mass_after cost px py rho1 rho2 eps eps_base st)) /\
  (forall idx st st',
     dc_loop_body cost px py rho1 rho2 eps eps_base tol eval_freq idx st
     = Ok (Continue st') <->
     eval_freq <> 0%Z /\
     (((idx mod eval_freq)%Z <> 0%Z /\
       st' = (dc_advance cost px py rho1 rho2 eps eps_base st, dc_last_mass st)) \/
      ((idx mod eval_freq = 0)%Z /\
       has_nan_or_inf (dc_mass_after cost px py rho1 rho2 eps eps_base st) = false /\
       exists error,
         max_abs_diff (dc_mass_after cost px py rho1 rho2 eps eps_base st)
           (dc_last_mass st) = Ok error /\
         fltb error tol = false /\
         st' = (dc_advance cost px py rho1 rho2 eps eps_base st,
                dc_mass_after cost px py rho1 rho2 eps eps_base st)))) /\
  (forall r,
     solver_dc cost init_pi (u0, v0) (rho1, rho2, eps) (px, py, pxy)
       (niters, tol, eval_freq) eps_base = Ok r <->
     exists u v pi m1,
       r = ((u, v), mmap2 fmul pi pxy) /\
       (continues (dc_loop_body cost px py rho1 rho2 eps eps_base tol eval_freq)
          (range niters) (u0, v0, init_pi, sum_dim1 init_pi) (u, v, pi, m1) \/
        exists idx st,
          (0 <= idx < niters)%Z /\
          continues (dc_loop_body cost px py rho1 rho2 eps eps_base tol eval_freq)
            (range idx) (u0, v0, init_pi, sum_dim1 init_pi) st /\
          dc_loop_body cost px py rho1 rho2 eps eps_base tol eval_freq idx st
          = Ok (Break (u, v, pi, m1)))).
Proof.
  split; [| split; [| split]].
  - intros msg. rewrite solver_dc_unfold.
    set (body := dc_loop_body cost px py rho1 rho2 eps eps_base tol eval_freq).
    set (st0 := (u0, v0, init_pi, sum_dim1 init_pi)).
    assert (forall e, bind (for_loop body (range niters) st0)
                        (fun x => match x with
                                  | (u, v, pi, _) => Ok ((u, v), mmap2 fmul pi pxy)
                                  end) = Raise e
                      <-> for_loop body (range niters) st0 = Raise e) as Hbind.
    { intros e. destruct (for_loop body (range niters) st0) as [[[[u v] pi] m1] | e'];
        cbn [bind]; split; intros H; congruence. }
    rewrite Hbind, for_loop_raise. split.
    + intros [pre [idx [post [st [Hsplit [Hc Hr]]]]]].
      destruct (range_split _ _ _ _ Hsplit) as [-> Hidx].
      apply dc_loop_body_fatal in Hr. destruct Hr as [He [Hcp [Hbad ->]]].
      split; [reflexivity |]. split; [exact He |].
      exists idx, st. auto.
    + intros [-> [He [idx [st [Hidx [Hcp [Hc Hbad]]]]]]].
      destruct (range_middle niters idx Hidx) as [post Hpost].
      exists (range idx), idx, post, st. split; [exact Hpost |].
      split; [exact Hc |]. apply dc_loop_body_fatal. auto.
  - intros idx st st'. apply dc_loop_body_break.
  - intros idx st st'. apply dc_loop_body_continue.
  - intros r. rewrite solver_dc_unfold.
    set (body := dc_loop_body cost px py rho1 rho2 eps eps_base tol eval_freq).
    set (st0 := (u0, v0, init_pi, sum_dim1 init_pi)).
    split.
    + destruct (for_loop body (range niters) st0) as [[[[u v] pi] m1] | e] eqn:Hloop;
        cbn [bind]; [| discriminate].
      intros H. inversion H; subst. exists u, v, pi, m1. split; [reflexivity |].
      apply for_loop_ok in Hloop.
      destruct Hloop as [Hc | [pre [idx [post [st [Hsplit [Hc Hb]]]]]]];
        [now left | right].
      destruct (range_split _ _ _ _ Hsplit) as [-> Hidx].
      exists idx, st. auto.
    + intros [u [v [pi [m1 [-> Hrun]]]]].
      assert (for_loop body (range niters) st0 = Ok (u, v, pi, m1)) as ->.
      { apply for_loop_ok. destruct Hrun as [Hc | [idx [st [Hidx [Hc Hb]]]]];
          [now left | right].
        destruct (range_middle niters idx Hidx) as [post Hpost].
        exists (range idx), idx, post, st. auto. }
      reflexivity.
Qed.

(** *** Two runs of the dc solver *)

Ltac real_decide :=
  repeat first
    [ rewrite Rsign_pos by lra
    | rewrite Rsign_neg by lra
    | rewrite Rsign_eq0 by lra
    | rewrite Rltb_true by lra
    | rewrite Rltb_false by lra
    | rewrite Reqb_refl
    | rewrite Reqb_neq by lra ].

Ltac fval_eval :=
  repeat (progress (cbn -[Rsign Rltb Reqb exp ln Rpower]; real_decide)).

(** From a coupling without mass the first iteration divides by zero: the
    scaling vector [v] is [0 ^ (- tau) = +inf], the product [0 * inf] is
    [nan], and the checkpoint of iteration 0 raises. *)
Example solver_dc_raises :
  solver_dc [[Fin 0]] [[Fin 0]] ([Fin 1], [Fin 1]) (Fin 1, Fin 1, Fin 1)
    ([Fin 1], [Fin 1], [[Fin 1]]) (5%Z, Fin 0, 1%Z) (Fin 1)
  = Raise (ValueError nan_in_coupling).
Proof.
  unfold solver_dc, dc_tau. change (range 5) with [0; 1; 2; 3; 4]%Z.
  unfold for_loop, dc_body, dc_update, fpow. fval_eval.
  reflexivity.
Qed.

(** With an empty budget the solver returns its inputs, the coupling
    multiplied by [pxy]. *)
Example solver_dc_no_iteration :
  solver_dc [[Fin 0]] [[Fin 2]] ([Fin 1], [Fin 1]) (Fin 1, Fin 1, Fin 1)
    ([Fin 1], [Fin 1], [[Fin 3]]) (0%Z, Fin 0, 1%Z) (Fin 1)
  = Ok (([Fin 1], [Fin 1]), [[Fin (2 * 3)]]).
Proof. reflexivity. Qed.

(** * Signs, shapes, errors and edge cases *)

(** ** Couplings are never negative *)

Lemma never_negative_cases a :
  never_negative a <->
  match a with
  | Fin x => 0 <= x
  | NInf => False
  | PInf | NaN => True
  end.
Proof.
  unfold never_negative. destruct a as [x | | |]; cbn; try tauto.
  - unfold Rltb. destruct (Rlt_dec x 0); split; intros; try lra; congruence.
  - split; [discriminate | tauto].
Qed.

Lemma never_negative_fexp a : never_negative (fexp a).
Proof.
  apply never_negative_cases. destruct a as [x | | |]; cbn; trivial; try lra.
  left. apply exp_pos.
Qed.

Lemma never_negative_fadd a b :
  never_negative a -> never_negative b -> never_negative (fadd a b).
Proof.
  rewrite !never_negative_cases.
  destruct a as [x | | |], b as [y | | |]; cbn; trivial; try tauto. lra.
Qed.

Lemma never_negative_fmul a b :
  never_negative a -> never_negative b -> never_negative (fmul a b).
Proof.
  rewrite !never_negative_cases.
  destruct a as [x | | |], b as [y | | |]; cbn; trivial; try tauto.
  - intros. now apply Rmult_le_pos.
  - intros Hx _. destruct (Rsign_spec x) as [[H E] | [[H E] | [H E]]];
      rewrite E; cbn; trivial. lra.
  - intros _ Hy. destruct (Rsign_spec y) as [[H E] | [[H E] | [H E]]];
      rewrite E; cbn; trivial. lra.
Qed.

Lemma never_negative_fdiv a b :
  never_negative a -> never_negative b -> never_negative (fdiv a b).
Proof.
  rewrite !never_negative_cases.
  destruct a as [x | | |], b as [y | | |]; cbn; trivial; try tauto; try lra.
  - intros Hx Hy.
    destruct (Rsign_spec y) as [[H E] | [[H E] | [H E]]]; rewrite E; try lra.
    + destruct (Rsign_spec x) as [[H' E'] | [[H' E'] | [H' E']]];
        rewrite E'; cbn; trivial. lra.
    + cbn. apply Rmult_le_pos; [exact Hx |]. left. now apply Rinv_0_lt_compat.
  - intros _ Hy.
    destruct (Rsign_spec y) as [[H E] | [[H E] | [H E]]]; rewrite E; cbn; trivial.
    lra.
Qed.

(** A power of a base that is not negative is not negative, whatever the
    exponent. *)
Lemma never_negative_fpow a b : never_negative a -> never_negative (fpow a b).
Proof.
  intros Ha. apply never_negative_cases. apply never_negative_cases in Ha.
  unfold fpow.
  destruct (feqb b (Fin 0)); [lra |].
  destruct (feqb a (Fin 1)); [lra |].
  destruct a as [x | | |]; try contradiction.
  - destruct b as [y | | |]; trivial.
    + destruct (Rsign_spec x) as [[H E] | [[H E] | [H E]]]; rewrite E; try lra.
      * destruct (Rltb 0 y); [lra | trivial].
      * left. apply exp_pos.
    + destruct (Rltb (Rabs x) 1); [lra |].
      destruct (Reqb (Rabs x) 1); [lra | trivial].
    + destruct (Rltb (Rabs x) 1); [trivial |].
      destruct (Reqb (Rabs x) 1); lra.
  - destruct b as [y | | |]; trivial; try lra.
    destruct (Rltb 0 y); [trivial | lra].
  - destruct b; trivial.
Qed.

Lemma never_negative_tsum v : Forall never_negative v -> never_negative (tsum v).
Proof.
  unfold tsum. induction 1 as [| a v Ha _ IH]; cbn.
  - apply never_negative_cases. cbn. lra.
  - now apply never_negative_fadd.
Qed.

Lemma Forall_map2 {A B C} (P : A -> Prop) (Q : B -> Prop) (R : C -> Prop)
  (f : A -> B -> C) l l' :
  (forall a b, P a -> Q b -> R (f a b)) ->
  Forall P l -> Forall Q l' -> Forall R (map2 f l l').
Proof.
  intros Hf Hl. revert l'.
  induction Hl as [| a l Ha _ IH]; intros l' Hl'; cbn; [constructor |].
  destruct Hl' as [| b l' Hb Hl']; constructor; auto.
Qed.

Lemma never_negative_dot v w :
  Forall never_negative v -> Forall never_negative w -> never_negative (dot v w).
Proof.
  intros Hv Hw. apply never_negative_tsum.
  eapply Forall_map2; [| exact Hv | exact Hw]. apply never_negative_fmul.
Qed.

Lemma never_negative_nth (row : vec) j :
  Forall never_negative row -> never_negative (nth j row NaN).
Proof.
  intros H. destruct (Nat.lt_ge_cases j (List.length row)) as [Hj | Hj].
  - apply (proj1 (Forall_forall _ _) H). now apply nth_In.
  - rewrite nth_overflow by exact Hj. reflexivity.
Qed.

Lemma mat_never_negative_transpose A :
  mat_never_negative A -> mat_never_negative (transpose A).
Proof.
  intros H. unfold transpose, mat_never_negative.
  apply Forall_map, Forall_forall. intros j _.
  unfold col. apply Forall_map. eapply Forall_impl; [| exact H].
  intros row Hrow. now apply never_negative_nth.
Qed.

Lemma mat_never_negative_mmap2 op A B :
  (forall a b, never_negative a -> never_negative b -> never_negative (op a b)) ->
  mat_never_negative A -> mat_never_negative B ->
  mat_never_negative (mmap2 op A B).
Proof.
  intros Hop HA HB. unfold mmap2, mat_never_negative.
  eapply Forall_map2; [| exact HA | exact HB].
  intros a b Ha Hb. eapply Forall_map2; [| exact Ha | exact Hb]. exact Hop.
Qed.

Lemma mat_never_negative_mmap f A :
  (forall a, never_negative (f a)) -> mat_never_negative (mmap f A).
Proof.
  intros Hf. unfold mmap, mat_never_negative.
  apply Forall_map, Forall_forall. intros row _.
  apply Forall_map, Forall_forall. intros a _. apply Hf.
Qed.

Lemma mat_never_negative_mmap_in f A :
  (forall a, never_negative a -> never_negative (f a)) ->
  mat_never_negative A -> mat_never_negative (mmap f A).
Proof.
  intros Hf HA. unfold mmap, mat_never_negative.
  apply Forall_map. eapply Forall_impl; [| exact HA].
  intros row Hrow. apply Forall_map. eapply Forall_impl; [| exact Hrow].
  exact Hf.
Qed.

Lemma mat_never_negative_outer op v w :
  (forall a b, never_negative a -> never_negative b -> never_negative (op a b)) ->
  Forall never_negative v -> Forall never_negative w ->
  mat_never_negative (outer op v w).
Proof.
  intros Hop Hv Hw. unfold outer, mat_never_negative.
  apply Forall_map. eapply Forall_impl; [| exact Hv].
  intros a Ha. apply Forall_map. eapply Forall_impl; [| exact Hw].
  intros b Hb. now apply Hop.
Qed.

Lemma never_negative_sum_dim1 A :
  mat_never_negative A -> Forall never_negative (sum_dim1 A).
Proof.
  intros H. unfold sum_dim1. apply Forall_map.
  eapply Forall_impl; [| exact H]. apply never_negative_tsum.
Qed.

Lemma never_negative_sum_dim0 A :
  mat_never_negative A -> Forall never_negative (sum_dim0 A).
Proof.
  intros H. unfold sum_dim0. apply never_negative_sum_dim1.
  now apply mat_never_negative_transpose.
Qed.

(** A loop keeps what each of its iterations keeps. *)
Lemma for_loop_invariant {St} (body : Z -> St -> result (ctl St))
  (Inv : St -> Prop) :
  (forall idx s s', Inv s ->
     body idx s = Ok (Continue s') \/ body idx s = Ok (Break s') -> Inv s') ->
  forall idxs s r, Inv s -> for_loop body idxs s = Ok r -> Inv r.
Proof.
  intros Hbody. induction idxs as [| idx idxs IH]; intros s r Hs Hrun;
    cbn [for_loop] in Hrun.
  - now inversion Hrun; subst.
  - destruct (body idx s) as [[s' | s'] | e] eqn:Hb; try discriminate.
    + eapply IH; [| exact Hrun]. eapply Hbody; eauto.
    + inversion Hrun; subst. eapply Hbody; eauto.
Qed.

(** The scaling solver on a well-shaped problem: it returns the [k]-th
    iterate of the alternating update and the coupling at these duals. *)
Lemma solver_scaling_iterate (n m : nat) (cost pxy : mat)
  (log_px log_py vx0 vy0 : vec) (rho_x rho_y eps tol : fval)
  (niters eval_freq : Z) :
  (0 < n)%nat -> (0 < m)%nat ->
  has_shape n m cost -> has_shape n m pxy ->
  List.length log_px = n -> List.length log_py = m ->
  List.length vx0 = n -> List.length vy0 = m ->
  eval_freq <> 0%Z ->
  exists k,
    (k <= Z.to_nat niters)%nat /\
    solver_scaling cost (vx0, vy0) (rho_x, rho_y, eps) (log_px, log_py, pxy)
      (niters, tol, eval_freq)
    = Ok (Nat.iter k (scaling_step_spec n m cost log_px log_py rho_x rho_y eps)
            (vx0, vy0),
          scaling_coupling_spec n m cost pxy eps
            (fst (Nat.iter k
                    (scaling_step_spec n m cost log_px log_py rho_x rho_y eps)
                    (vx0, vy0)))
            (snd (Nat.iter k
                    (scaling_step_spec n m cost log_px log_py rho_x rho_y eps)
                    (vx0, vy0)))) /\
    ((k < Z.to_nat niters)%nat ->
       (0 < k)%nat /\
       scaling_stop n m cost log_px log_py rho_x rho_y eps tol eval_freq
         (Z.of_nat (k - 1))
         (Nat.iter (k - 1)
            (scaling_step_spec n m cost log_px log_py rho_x rho_y eps)
            (vx0, vy0)) = true) /\
    (forall j, (S j < k)%nat ->
       scaling_stop n m cost log_px log_py rho_x rho_y eps tol eval_freq
         (Z.of_nat j)
         (Nat.iter j (scaling_step_spec n m cost log_px log_py rho_x rho_y eps)
            (vx0, vy0)) = false).
Proof.
  intros Hn Hm Hcost Hpxy Hlpx Hlpy Hvx Hvy He.
  destruct (for_loop_update_stop
              (scaling_body cost log_px log_py rho_x rho_y eps
                 (scaling_tau rho_x eps) (scaling_tau rho_y eps) tol eval_freq)
              (scaling_step_spec n m cost log_px log_py rho_x rho_y eps)
              (scaling_stop n m cost log_px log_py rho_x rho_y eps tol eval_freq)
              (fun duals => List.length (fst duals) = n /\
                            List.length (snd duals) = m)
              (fun idx s Hs =>
                 scaling_body_spec n m cost log_px log_py rho_x rho_y eps tol
                   eval_freq Hn Hm Hcost Hlpx Hlpy idx s He Hs)
              (Z.to_nat niters) 0%nat (vx0, vy0) (conj Hvx Hvy))
    as [k [Hk [Hrun [[Hkx Hky] [Hlast Hbefore]]]]].
  exists k. split; [exact Hk |]. split; [| split].
  - unfold solver_scaling, range. rewrite Hrun. cbn [bind].
    destruct (Nat.iter k _ (vx0, vy0)) as [vx vy]. cbn [fst snd] in *.
    now rewrite (scaling_coupling_eq n m).
  - exact Hlast.
  - exact Hbefore.
Qed.

(** The same for the majorization-minimization solver. *)
Lemma solver_mm_iterate (n m : nat) (cost init_pi : mat) (px py : vec)
  (rho_x rho_y eps tol : fval) (niters eval_freq : Z) :
  (0 < n)%nat -> (0 < m)%nat ->
  has_shape n m cost -> has_shape n m init_pi ->
  List.length px = n -> List.length py = m ->
  eval_freq <> 0%Z ->
  exists k,
    (k <= Z.to_nat niters)%nat /\
    solver_mm cost init_pi (rho_x, rho_y, eps) (px, py)
      (niters, tol, eval_freq)
    = Ok (Nat.iter k (mm_step_spec n m cost px py rho_x rho_y eps) init_pi) /\
    ((k < Z.to_nat niters)%nat ->
       (0 < k)%nat /\
       mm_stop n m cost px py rho_x rho_y eps tol eval_freq (Z.of_nat (k - 1))
         (Nat.iter (k - 1) (mm_step_spec n m cost px py rho_x rho_y eps) init_pi)
       = true) /\
    (forall j, (S j < k)%nat ->
       mm_stop n m cost px py rho_x rho_y eps tol eval_freq (Z.of_nat j)
         (Nat.iter j (mm_step_spec n m cost px py rho_x rho_y eps) init_pi)
       = false).
Proof.
  intros Hn Hm Hcost Hpi Hpx Hpy He.
  destruct (for_loop_update_stop
              (mm_body (mm_kernel_spec n m cost px py rho_x rho_y eps)
                 (mm_tau rho_x rho_x rho_y eps) (mm_tau rho_y rho_x rho_y eps)
                 tol eval_freq)
              (fun st => mm_state n m
                           (mm_step_spec n m cost px py rho_x rho_y eps (snd st)))
              (fun idx st =>
                 mm_stop n m cost px py rho_x rho_y eps tol eval_freq idx (snd st))
              (fun st => has_shape n m (snd st) /\ st = mm_state n m (snd st))
              (fun idx s Hs =>
                 mm_body_spec n m cost px py rho_x rho_y eps tol eval_freq
                   Hn Hm idx s He Hs)
              (Z.to_nat niters) 0%nat (mm_state n m init_pi)
              (conj Hpi eq_refl))
    as [k [Hk [Hrun [_ [Hlast Hbefore]]]]].
  exists k. split; [exact Hk |]. split; [| split].
  - unfold solver_mm.
    rewrite (mm_kernel_eq n m) by assumption.
    rewrite (sum_dim1_row_mass n m), (sum_dim0_col_mass n m) by assumption.
    change (fdiv rho_x (fadd (fadd rho_x rho_y) eps))
      with (mm_tau rho_x rho_x rho_y eps).
    change (fdiv rho_y (fadd (fadd rho_x rho_y) eps))
      with (mm_tau rho_y rho_x rho_y eps).
    fold (mm_state n m init_pi). unfold range. rewrite Hrun.
    rewrite mm_iter_state. reflexivity.
  - intros Hlt. destruct (Hlast Hlt) as [Hpos Htrue]. split; [exact Hpos |].
    rewrite mm_iter_state in Htrue. exact Htrue.
  - intros j Hj. specialize (Hbefore j Hj).
    rewrite mm_iter_state in Hbefore. exact Hbefore.
Qed.

Lemma never_negative_Fin x : 0 <= x -> never_negative (Fin x).
Proof. intros H. now apply never_negative_cases. Qed.

(** X1. Whatever the duals the loop ends with, the coupling [solver_scaling]
    returns has no negative entry (and no [-inf]) when [pxy] has none:
    every entry is [pxy_ij] times an exponential. *)
Theorem solver_scaling_never_negative (cost : mat) (vx0 vy0 : vec)
  (rho_x rho_y eps : fval) (log_px log_py : vec) (pxy : mat)
  (niters : Z) (tol : fval) (eval_freq : Z) (duals : vec * vec) (pi : mat) :
  mat_never_negative pxy ->
  solver_scaling cost (vx0, vy0) (rho_x, rho_y, eps) (log_px, log_py, pxy)
    (niters, tol, eval_freq) = Ok (duals, pi) ->
  mat_never_negative pi.
Proof.
  intros Hpxy Hrun. unfold solver_scaling in Hrun.
  destruct (for_loop _ _ _) as [[vx vy] | e]; [| discriminate].
  cbn [bind] in Hrun. inversion Hrun; subst. unfold scaling_coupling.
  apply mat_never_negative_mmap2; trivial.
  - apply never_negative_fmul.
  - apply mat_never_negative_mmap, never_negative_fexp.
Qed.

Lemma solver_scaling_never_negative_witness :
  exists duals pi,
    solver_scaling [[Fin 1; Fin 2]] ([Fin 0], [Fin 0; Fin 0])
      (Fin 2, PInf, Fin 1) ([Fin 0], [Fin 0; Fin 0], [[Fin 1; Fin 1]])
      (3%Z, Fin 0, 1%Z) = Ok (duals, pi) /\
    mat_never_negative pi.
Proof.
  destruct (solver_scaling_iterate 1 2 [[Fin 1; Fin 2]] [[Fin 1; Fin 1]]
              [Fin 0] [Fin 0; Fin 0] [Fin 0] [Fin 0; Fin 0]
              (Fin 2) PInf (Fin 1) (Fin 0) 3 1)
    as [k [Hk [Hrun _]]];
    try reflexivity; try lia; try (split; [reflexivity | repeat constructor]).
  eexists. eexists. split; [exact Hrun |].
  refine (solver_scaling_never_negative _ _ _ _ _ _ _ _ _ _ _ _ _ _ _ Hrun).
  repeat constructor; apply never_negative_Fin; lra.
Defined.

(** X2. [solver_mm] keeps couplings free of negative entries: when the
    initial coupling and the marginals [px], [py] have no negative entry
    (and no [-inf]), neither has the coupling returned, whatever the cost
    and the parameters. *)
Theorem solver_mm_never_negative (cost init_pi : mat)
  (rho_x rho_y eps : fval) (px py : vec)
  (niters : Z) (tol : fval) (eval_freq : Z) (pi : mat) :
  mat_never_negative init_pi ->
  Forall never_negative px -> Forall never_negative py ->
  solver_mm cost init_pi (rho_x, rho_y, eps) (px, py) (niters, tol, eval_freq)
  = Ok pi ->
  mat_never_negative pi.
Proof.
  intros Hpi Hpx Hpy Hrun. unfold solver_mm in Hrun.
  set (K := mm_kernel cost px py rho_x rho_y eps) in Hrun.
  assert (mat_never_negative K) as HK.
  { unfold K, mm_kernel. apply mat_never_negative_mmap2.
    - apply never_negative_fmul.
    - apply mat_never_negative_outer.
      + apply never_negative_fmul.
      + apply Forall_map. eapply Forall_impl; [| exact Hpx].
        intros a Ha. now apply never_negative_fpow.
      + apply Forall_map. eapply Forall_impl; [| exact Hpy].
        intros a Ha. now apply never_negative_fpow.
    - apply mat_never_negative_mmap, never_negative_fexp. }
  destruct (for_loop _ _ _) as [[[pi1 pi2] pi'] | e] eqn:Hloop; [| discriminate].
  cbn [bind] in Hrun. inversion Hrun; subst pi'. clear Hrun.
  apply (for_loop_invariant _
           (fun st : vec * vec * mat =>
              Forall never_negative (fst (fst st)) /\
              Forall never_negative (snd (fst st)) /\
              mat_never_negative (snd st))) in Hloop.
  - apply Hloop.
  - intros idx [[a b] c] s' [Ha [Hb Hc]] Hbody. cbn [fst snd] in *.
    unfold mm_body in Hbody.
    assert (mat_never_negative
              (mm_update K (fdiv rho_x (fadd (fadd rho_x rho_y) eps))
                 (fdiv rho_y (fadd (fadd rho_x rho_y) eps)) a b c)) as Hnew.
    { unfold mm_update. apply mat_never_negative_mmap2; trivial.
      - apply never_negative_fmul.
      - apply mat_never_negative_mmap2.
        + apply never_negative_fdiv.
        + apply mat_never_negative_mmap_in; trivial.
          intros x Hx. now apply never_negative_fpow.
        + apply mat_never_negative_outer.
          * apply never_negative_fmul.
          * apply Forall_map. eapply Forall_impl; [| exact Ha].
            intros x Hx. now apply never_negative_fpow.
          * apply Forall_map. eapply Forall_impl; [| exact Hb].
            intros x Hx. now apply never_negative_fpow. }
    destruct (converged2 _ _ _ _ _ _ _) as [stop | e]; cbn [bind] in Hbody.
    2:{ destruct Hbody; discriminate. }
    assert (s' = (sum_dim1 (mm_update K (fdiv rho_x (fadd (fadd rho_x rho_y) eps))
                 (fdiv rho_y (fadd (fadd rho_x rho_y) eps)) a b c),
                  sum_dim0 (mm_update K (fdiv rho_x (fadd (fadd rho_x rho_y) eps))
                 (fdiv rho_y (fadd (fadd rho_x rho_y) eps)) a b c),
                  mm_update K (fdiv rho_x (fadd (fadd rho_x rho_y) eps))
                 (fdiv rho_y (fadd (fadd rho_x rho_y) eps)) a b c)) as ->.
    { destruct stop, Hbody as [H | H]; inversion H; reflexivity. }
    cbn [fst snd]. split; [| split]; trivial.
    + now apply never_negative_sum_dim1.
    + now apply never_negative_sum_dim0.
  - cbn [fst snd]. split; [| split]; trivial.
    + now apply never_negative_sum_dim1.
    + now apply never_negative_sum_dim0.
Qed.

Lemma solver_mm_never_negative_witness :
  exists pi,
    solver_mm [[Fin 1; Fin 2]; [Fin 0; Fin 3]]
      [[Fin 1; Fin 1]; [Fin 1; Fin 1]] (Fin 2, Fin 3, Fin 0)
      ([Fin 1; Fin 1], [Fin 1; Fin 1]) (4%Z, Fin 0, 2%Z) = Ok pi /\
    mat_never_negative pi.
Proof.
  destruct (solver_mm_iterate 2 2 [[Fin 1; Fin 2]; [Fin 0; Fin 3]]
              [[Fin 1; Fin 1]; [Fin 1; Fin 1]] [Fin 1; Fin 1] [Fin 1; Fin 1]
              (Fin 2) (Fin 3) (Fin 0) (Fin 0) 4 2)
    as [k [Hk [Hrun _]]];
    try reflexivity; try lia; try (split; [reflexivity | repeat constructor]).
  eexists. split; [exact Hrun |].
  refine (solver_mm_never_negative _ _ _ _ _ _ _ _ _ _ _ _ _ _ Hrun);
    repeat constructor; apply never_negative_Fin; lra.
Defined.

(** An iteration of the dc loop that ends normally leaves the scaling
    vectors and the coupling of the "IPOT" block. *)
Lemma dc_body_advance K px py rho1 rho2 tau1 tau2 eps_base sum_eps tol
  eval_freq idx (u v : vec) (pi : mat) (m1 : vec) (s' : dc_state) :
  dc_body K px py rho1 rho2 tau1 tau2 eps_base sum_eps tol eval_freq idx
    (u, v, pi, m1) = Ok (Continue s') \/
  dc_body K px py rho1 rho2 tau1 tau2 eps_base sum_eps tol eval_freq idx
    (u, v, pi, m1) = Ok (Break s') ->
  fst s' = dc_update K px py rho1 rho2 tau1 tau2 eps_base sum_eps u v pi /\
  (snd s' = m1 \/
   snd s' = sum_dim1
              (snd (dc_update K px py rho1 rho2 tau1 tau2 eps_base sum_eps
                      u v pi))).
Proof.
  unfold dc_body.
  destruct (dc_update K px py rho1 rho2 tau1 tau2 eps_base sum_eps u v pi)
    as [[u' v'] pi'].
  destruct (py_mod idx eval_freq) as [r | e]; cbn [bind].
  2:{ intros [H | H]; discriminate. }
  destruct (r =? 0)%Z.
  2:{ intros [H | H]; inversion H; auto. }
  destruct (has_nan_or_inf (sum_dim1 pi')).
  { intros [H | H]; discriminate. }
  destruct (max_abs_diff (sum_dim1 pi') m1) as [err | e]; cbn [bind].
  2:{ intros [H | H]; discriminate. }
  destruct (fltb err tol); intros [H | H]; inversion H; auto.
Qed.

Lemma dc_update_never_negative K px py rho1 rho2 tau1 tau2 eps_base sum_eps
  (u v : vec) (pi : mat) :
  mat_never_negative K ->
  Forall never_negative px -> Forall never_negative py ->
  Forall never_negative u -> mat_never_negative pi ->
  let '(u', v', pi') :=
    dc_update K px py rho1 rho2 tau1 tau2 eps_base sum_eps u v pi in
  Forall never_negative u' /\ Forall never_negative v' /\
  mat_never_negative pi'.
Proof.
  intros HK Hpx Hpy Hu Hpi. unfold dc_update.
  set (G := if feqb (fdiv eps_base sum_eps) (Fin 1) then mmap2 fmul K pi
            else mmap2 fmul K (mmap (fun c => fpow c (fdiv eps_base sum_eps)) pi)).
  assert (mat_never_negative G) as HG.
  { unfold G. destruct (feqb _ _).
    - apply mat_never_negative_mmap2; trivial. apply never_negative_fmul.
    - apply mat_never_negative_mmap2; trivial; [apply never_negative_fmul |].
      apply mat_never_negative_mmap_in; trivial.
      intros x Hx. now apply never_negative_fpow. }
  set (v' := if negb (feqb rho2 (Fin 0)) then _ else ones_like v).
  assert (Forall never_negative v') as Hv'.
  { unfold v'. destruct (negb (feqb rho2 (Fin 0))).
    - unfold matvec. rewrite map_map. apply Forall_map.
      eapply Forall_impl; [| exact (mat_never_negative_transpose G HG)].
      intros row Hrow. apply never_negative_fpow, never_negative_dot; trivial.
      eapply Forall_map2; [| exact Hu | exact Hpx]. apply never_negative_fmul.
    - unfold ones_like. apply Forall_map, Forall_forall. intros a _.
      apply never_negative_Fin. lra. }
  set (u' := if negb (feqb rho1 (Fin 0)) then _ else ones_like u).
  assert (Forall never_negative u') as Hu'.
  { unfold u'. destruct (negb (feqb rho1 (Fin 0))).
    - unfold matvec. rewrite map_map. apply Forall_map.
      eapply Forall_impl; [| exact HG].
      intros row Hrow. apply never_negative_fpow, never_negative_dot; trivial.
      eapply Forall_map2; [| exact Hv' | exact Hpy]. apply never_negative_fmul.
    - unfold ones_like. apply Forall_map, Forall_forall. intros a _.
      apply never_negative_Fin. lra. }
  split; [exact Hu' |]. split; [exact Hv' |].
  unfold bcast_row_r, bcast_col, mat_never_negative.
  apply Forall_map.
  eapply (Forall_map2 never_negative (Forall never_negative)); [| exact Hu' | exact HG].
  intros a row Ha Hrow.
  eapply Forall_map2; [| | exact Hv']; [apply never_negative_fmul |].
  apply Forall_map. eapply Forall_impl; [| exact Hrow].
  intros b Hb. now apply never_negative_fmul.
Qed.

(** X3. [solver_dc] keeps couplings free of negative entries: when the
    initial coupling, the initial scaling vector [u], the marginals [px],
    [py] and [pxy] have no negative entry (and no [-inf]), neither have
    the coupling and the scaling vector [u] it returns. *)
Theorem solver_dc_never_negative (cost init_pi : mat) (u0 v0 : vec)
  (rho1 rho2 eps : fval) (px py : vec) (pxy : mat)
  (niters : Z) (tol : fval) (eval_freq : Z) (eps_base : fval)
  (u v : vec) (pi : mat) :
  mat_never_negative init_pi -> Forall never_negative u0 ->
  Forall never_negative px -> Forall never_negative py ->
  mat_never_negative pxy ->
  solver_dc cost init_pi (u0, v0) (rho1, rho2, eps) (px, py, pxy)
    (niters, tol, eval_freq) eps_base = Ok ((u, v), pi) ->
  mat_never_negative pi /\ Forall never_negative u.
Proof.
  intros Hpi Hu0 Hpx Hpy Hpxy Hrun. unfold solver_dc in Hrun.
  destruct (for_loop _ _ _) as [[[[u' v'] pi'] m1] | e] eqn:Hloop;
    [| discriminate].
  cbn [bind] in Hrun. inversion Hrun; subst. clear Hrun.
  apply (for_loop_invariant _
           (fun st : dc_state =>
              Forall never_negative (fst (fst (fst st))) /\
              mat_never_negative (snd (fst st)))) in Hloop.
  - cbn [fst snd] in Hloop. destruct Hloop as [Hu Hp]. split; [| exact Hu].
    apply mat_never_negative_mmap2; trivial. apply never_negative_fmul.
  - intros idx [[[a b] c] d] s' [Ha Hc] Hbody. cbn [fst snd] in *.
    apply dc_body_advance in Hbody. destruct Hbody as [Hbody _].
    rewrite Hbody.
    pose proof (dc_update_never_negative
                  (mmap fexp (mmap (fun c0 => fdiv (fneg c0) (fadd eps_base eps)) cost))
                  px py rho1 rho2 (dc_tau rho1 (fadd eps_base eps))
                  (dc_tau rho2 (fadd eps_base eps)) eps_base (fadd eps_base eps)
                  a b c
                  (mat_never_negative_mmap fexp _ never_negative_fexp)
                  Hpx Hpy Ha Hc) as Hupd.
    destruct (dc_update _ _ _ _ _ _ _ _ _ a b c) as [[a' b'] c'].
    cbn [fst snd]. tauto.
  - cbn [fst snd]. tauto.
Qed.

(** One iteration of the dc solver on a problem with a single pair of
    points and both marginal penalties switched off. *)
Lemma solver_dc_one_point :
  exists u v pi,
    solver_dc [[Fin 0]] [[Fin 1]] ([Fin 1], [Fin 1]) (Fin 0, Fin 0, Fin 1)
      ([Fin 1], [Fin 1], [[Fin 1]]) (1%Z, Fin 1, 1%Z) (Fin 1)
    = Ok ((u, v), pi).
Proof.
  unfold solver_dc, dc_tau. change (range 1) with [0%Z].
  unfold for_loop, dc_body, dc_update, fpow. fval_eval.
  match goal with
  | |- context [Rltb ?a ?b] => destruct (Rltb a b)
  end; cbn; eauto.
Qed.

Lemma solver_dc_never_negative_witness :
  exists u v pi,
    solver_dc [[Fin 0]] [[Fin 1]] ([Fin 1], [Fin 1]) (Fin 0, Fin 0, Fin 1)
      ([Fin 1], [Fin 1], [[Fin 1]]) (1%Z, Fin 1, 1%Z) (Fin 1)
    = Ok ((u, v), pi) /\
    mat_never_negative pi /\ Forall never_negative u.
Proof.
  destruct solver_dc_one_point as [u [v [pi Hrun]]].
  exists u, v, pi. split; [exact Hrun |].
  refine (solver_dc_never_negative _ _ _ _ _ _ _ _ _ _ _ _ _ _ _ _ _ _ _ _ _ _ Hrun);
    repeat constructor; apply never_negative_Fin; lra.
Defined.

(** ** Shapes and errors of the dc solver *)

Lemma has_shape_mmap f n m A : has_shape n m A -> has_shape n m (mmap f A).
Proof.
  intros [L H]. split; [unfold mmap; now rewrite length_map |].
  unfold mmap. apply Forall_map. eapply Forall_impl; [| exact H].
  intros row Hrow. now rewrite length_map.
Qed.

Lemma ncols_has_shape n m A : (0 < n)%nat -> has_shape n m A -> ncols A = m.
Proof.
  intros Hn [L H]. destruct A as [| row A]; [cbn in L; lia |].
  now inversion H.
Qed.

Lemma dc_update_shapes n m K px py rho1 rho2 tau1 tau2 eps_base sum_eps
  (u v : vec) (pi : mat) :
  (0 < n)%nat -> has_shape n m K -> has_shape n m pi ->
  List.length u = n -> List.length v = m ->
  let '(u', v', pi') :=
    dc_update K px py rho1 rho2 tau1 tau2 eps_base sum_eps u v pi in
  List.length u' = n /\ List.length v' = m /\ has_shape n m pi'.
Proof.
  intros Hn HK Hpi Hu Hv. unfold dc_update.
  set (G := if feqb (fdiv eps_base sum_eps) (Fin 1) then mmap2 fmul K pi
            else mmap2 fmul K (mmap (fun c => fpow c (fdiv eps_base sum_eps)) pi)).
  assert (has_shape n m G) as HG.
  { unfold G. destruct (feqb _ _); apply has_shape_mmap2; trivial.
    now apply has_shape_mmap. }
  set (v' := if negb (feqb rho2 (Fin 0)) then _ else ones_like v).
  assert (List.length v' = m) as Hv'.
  { unfold v'. destruct (negb (feqb rho2 (Fin 0))).
    - unfold matvec. rewrite !length_map, length_transpose.
      now apply (ncols_has_shape n).
    - unfold ones_like. now rewrite length_map. }
  set (u' := if negb (feqb rho1 (Fin 0)) then _ else ones_like u).
  assert (List.length u' = n) as Hu'.
  { unfold u'. destruct (negb (feqb rho1 (Fin 0))).
    - unfold matvec. rewrite !length_map. apply HG.
    - unfold ones_like. now rewrite length_map. }
  split; [exact Hu' |]. split; [exact Hv' |].
  destruct HG as [LG HG]. unfold bcast_row_r, bcast_col. split.
  - rewrite length_map, map2_length. lia.
  - apply Forall_map.
    apply (Forall_map2 (fun _ => True) (fun row => List.length row = m)
             (fun x => List.length (map2 fmul x v') = m)
             (fun a row => map (fmul a) row) u' G); trivial.
    + intros a row _ Hrow. rewrite map2_length, length_map. lia.
    + apply Forall_forall. trivial.
Qed.

Lemma length_sum_dim1 A : List.length (sum_dim1 A) = List.length A.
Proof. unfold sum_dim1. apply length_map. Qed.

Lemma dc_body_shaped n m cost px py rho1 rho2 eps eps_base tol eval_freq
  idx st st' :
  (0 < n)%nat -> has_shape n m cost -> dc_shaped n m st ->
  dc_loop_body cost px py rho1 rho2 eps eps_base tol eval_freq idx st
  = Ok (Continue st') \/
  dc_loop_body cost px py rho1 rho2 eps eps_base tol eval_freq idx st
  = Ok (Break st') ->
  dc_shaped n m st'.
Proof.
  intros Hn Hcost Hst Hbody. destruct st as [[[u v] pi] m1].
  destruct Hst as [Hu [Hv [Hpi Hm1]]]. cbn [fst snd] in *.
  unfold dc_loop_body in Hbody. apply dc_body_advance in Hbody.
  destruct Hbody as [Hfst Hsnd].
  pose proof (dc_update_shapes n m
                (mmap fexp (mmap (fun c => fdiv (fneg c) (fadd eps_base eps)) cost))
                px py rho1 rho2 (dc_tau rho1 (fadd eps_base eps))
                (dc_tau rho2 (fadd eps_base eps)) eps_base (fadd eps_base eps)
                u v pi Hn
                (has_shape_mmap _ n m _ (has_shape_mmap _ n m _ Hcost))
                Hpi Hu Hv) as Hupd.
  destruct (dc_update _ _ _ _ _ _ _ _ _ u v pi) as [[u' v'] pi'].
  destruct st' as [[[a b] c] d]. cbn [fst snd] in *.
  inversion Hfst; subst. destruct Hupd as [H1 [H2 H3]].
  unfold dc_shaped. cbn [fst snd]. repeat split; trivial; try apply H3.
  destruct Hsnd as [-> | ->]; trivial.
  rewrite length_sum_dim1. apply H3.
Qed.

(** X4. On an [n] by [m] problem ([n >= 1]) what [solver_dc] returns has
    the shapes of what it was given: scaling vectors of lengths [n] and
    [m] and an [n] by [m] coupling. *)
Theorem solver_dc_shapes (n m : nat) (cost init_pi : mat) (u0 v0 : vec)
  (rho1 rho2 eps : fval) (px py : vec) (pxy : mat)
  (niters : Z) (tol : fval) (eval_freq : Z) (eps_base : fval)
  (u v : vec) (pi : mat) :
  (0 < n)%nat ->
  has_shape n m cost -> has_shape n m init_pi -> has_shape n m pxy ->
  List.length u0 = n -> List.length v0 = m ->
  solver_dc cost init_pi (u0, v0) (rho1, rho2, eps) (px, py, pxy)
    (niters, tol, eval_freq) eps_base = Ok ((u, v), pi) ->
  List.length u = n /\ List.length v = m /\ has_shape n m pi.
Proof.
  intros Hn Hcost Hpi Hpxy Hu0 Hv0 Hrun. rewrite solver_dc_unfold in Hrun.
  destruct (for_loop _ _ _) as [[[[u' v'] pi'] m1] | e] eqn:Hloop;
    [| discriminate].
  cbn [bind] in Hrun. injection Hrun as -> -> <-.
  apply (for_loop_invariant _ (dc_shaped n m)) in Hloop.
  - destruct Hloop as [H1 [H2 [H3 _]]]. cbn [fst snd] in *.
    split; [exact H1 |]. split; [exact H2 |]. now apply has_shape_mmap2.
  - intros idx s s' Hs Hbody. now apply (dc_body_shaped n m) in Hbody.
  - unfold dc_shaped. cbn [fst snd]. repeat split; trivial; try apply Hpi.
    rewrite length_sum_dim1. apply Hpi.
Qed.

Lemma solver_dc_shapes_witness :
  exists u v pi,
    solver_dc [[Fin 0]] [[Fin 1]] ([Fin 1], [Fin 1]) (Fin 0, Fin 0, Fin 1)
      ([Fin 1], [Fin 1], [[Fin 1]]) (1%Z, Fin 1, 1%Z) (Fin 1)
    = Ok ((u, v), pi) /\
    List.length u = 1%nat /\ List.length v = 1%nat /\ has_shape 1 1 pi.
Proof.
  destruct solver_dc_one_point as [u [v [pi Hrun]]].
  exists u, v, pi. split; [exact Hrun |].
  refine (solver_dc_shapes 1 1 _ _ _ _ _ _ _ _ _ _ _ _ _ _ _ _ _ _ _ _ _ _ _ Hrun);
    try reflexivity; try lia; split; try reflexivity; repeat constructor.
Defined.

Lemma continues_invariant {St} (body : Z -> St -> result (ctl St))
  (Inv : St -> Prop) :
  (forall idx s s', Inv s -> body idx s = Ok (Continue s') -> Inv s') ->
  forall idxs s s', continues body idxs s s' -> Inv s -> Inv s'.
Proof.
  intros Hbody idxs s s' Hc. induction Hc as [| idx rest s s1 s2 Hb _ IH]; eauto.
Qed.

(** X5. On an [n] by [m] problem ([n >= 1], [eval_freq] not zero) the only
    exception [solver_dc] raises is the [ValueError] "There is NaN in
    coupling. Please increase eps_base.": it returns or raises that. *)
Theorem solver_dc_only_error (n m : nat) (cost init_pi : mat) (u0 v0 : vec)
  (rho1 rho2 eps : fval) (px py : vec) (pxy : mat)
  (niters : Z) (tol : fval) (eval_freq : Z) (eps_base : fval) (e : exn) :
  (0 < n)%nat ->
  has_shape n m cost -> has_shape n m init_pi ->
  List.length u0 = n -> List.length v0 = m ->
  eval_freq <> 0%Z ->
  solver_dc cost init_pi (u0, v0) (rho1, rho2, eps) (px, py, pxy)
    (niters, tol, eval_freq) eps_base = Raise e ->
  e = ValueError nan_in_coupling.
Proof.
  intros Hn Hcost Hpi Hu0 Hv0 He Hrun. rewrite solver_dc_unfold in Hrun.
  destruct (for_loop _ _ _) as [[[[u' v'] pi'] m1] | e'] eqn:Hloop;
    [discriminate |].
  cbn [bind] in Hrun. inversion Hrun; subst e'. clear Hrun.
  apply for_loop_raise in Hloop.
  destruct Hloop as [pre [idx [post [st [_ [Hpre Hbody]]]]]].
  assert (dc_shaped n m st) as Hst.
  { apply (continues_invariant _ (dc_shaped n m)) in Hpre; trivial.
    - intros i s s' Hs Hb.
      apply (dc_body_shaped n m cost px py rho1 rho2 eps eps_base tol
               eval_freq i s s'); auto.
    - unfold dc_shaped. cbn [fst snd]. repeat split; trivial; try apply Hpi.
      rewrite length_sum_dim1. apply Hpi. }
  rewrite dc_loop_body_cases in Hbody.
  destruct (Z.eqb_spec eval_freq 0) as [Hz | _]; [contradiction |].
  destruct ((idx mod eval_freq) =? 0)%Z; [| discriminate].
  destruct (has_nan_or_inf _); [now inversion Hbody |].
  rewrite (max_abs_diff_ok n) in Hbody; trivial.
  - destruct (fltb _ tol); discriminate.
  - unfold dc_mass_after. rewrite length_sum_dim1.
    destruct st as [[[u v] pi] m1]. destruct Hst as [Hu [Hv [Hp Hm1]]].
    cbn [fst snd] in *. unfold dc_advance.
    pose proof (dc_update_shapes n m
                  (mmap fexp (mmap (fun c => fdiv (fneg c) (fadd eps_base eps)) cost))
                  px py rho1 rho2 (dc_tau rho1 (fadd eps_base eps))
                  (dc_tau rho2 (fadd eps_base eps)) eps_base (fadd eps_base eps)
                  u v pi Hn
                  (has_shape_mmap _ n m _ (has_shape_mmap _ n m _ Hcost))
                  Hp Hu Hv) as Hupd.
    destruct (dc_update _ _ _ _ _ _ _ _ _ u v pi) as [[u'' v''] pi''].
    cbn [snd]. apply Hupd.
  - apply Hst.
Qed.

Lemma solver_dc_only_error_witness :
  exists e,
    solver_dc [[Fin 0]] [[Fin 0]] ([Fin 1], [Fin 1]) (Fin 1, Fin 1, Fin 1)
      ([Fin 1], [Fin 1], [[Fin 1]]) (5%Z, Fin 0, 1%Z) (Fin 1) = Raise e /\
    e = ValueError nan_in_coupling.
Proof.
  eexists. split; [exact solver_dc_raises |].
  refine (solver_dc_only_error 1 1 [[Fin 0]] [[Fin 0]] [Fin 1] [Fin 1]
            (Fin 1) (Fin 1) (Fin 1) [Fin 1] [Fin 1] [[Fin 1]] 5 (Fin 0) 1
            (Fin 1) _ _ _ _ _ _ _ solver_dc_raises);
    try reflexivity; try lia; split; try reflexivity; repeat constructor.
Defined.

(** ** Edge cases of the solvers *)

Lemma range_nonpos n : (n <= 0)%Z -> range n = [].
Proof.
  intros H. unfold range. replace (Z.to_nat n) with 0%nat by lia. reflexivity.
Qed.

Lemma range_pos n : (0 < n)%Z -> exists rest, range n = 0%Z :: rest.
Proof.
  intros H. unfold range.
  destruct (Z.to_nat n) as [| k] eqn:E; [lia |].
  cbn [seq map]. eauto.
Qed.

(** X10. With [eval_freq = 0] and a budget of at least one iteration each
    of the three solvers raises [ZeroDivisionError], at the test
    [idx % eval_freq] of its first iteration, whatever its other
    arguments on an [n] by [m] problem. *)
Theorem solvers_zero_eval_freq (n m : nat) (cost init_pi pxy : mat)
  (a d1 : vec) (b d2 : vec) (rho_x rho_y eps tol eps_base : fval)
  (niters : Z) :
  has_shape n m cost -> has_shape n m init_pi -> has_shape n m pxy ->
  List.length a = n -> List.length d1 = n ->
  List.length b = m -> List.length d2 = m ->
  (0 < niters)%Z ->
  solver_scaling cost (d1, d2) (rho_x, rho_y, eps) (a, b, pxy)
    (niters, tol, 0%Z) = Raise ZeroDivisionError /\
  solver_mm cost init_pi (rho_x, rho_y, eps) (a, b) (niters, tol, 0%Z)
  = Raise ZeroDivisionError /\
  solver_dc cost init_pi (d1, d2) (rho_x, rho_y, eps) (a, b, pxy)
    (niters, tol, 0%Z) eps_base = Raise ZeroDivisionError.
Proof.
  intros _ _ _ _ _ _ _ Hn. destruct (range_pos niters Hn) as [rest Hr].
  split; [| split].
  - unfold solver_scaling. rewrite Hr. reflexivity.
  - unfold solver_mm. rewrite Hr. reflexivity.
  - unfold solver_dc. rewrite Hr. cbn [for_loop]. unfold dc_body.
    destruct (dc_update _ _ _ _ _ _ _ _ _ _ _ _) as [[u v] pi]. reflexivity.
Qed.

Lemma solvers_zero_eval_freq_witness :
  solver_scaling [[Fin 1; Fin 2]] ([Fin 0], [Fin 0; Fin 0])
    (Fin 2, PInf, Fin 1) ([Fin 0], [Fin 0; Fin 0], [[Fin 1; Fin 1]])
    (3%Z, Fin 0, 0%Z) = Raise ZeroDivisionError /\
  solver_mm [[Fin 1; Fin 2]] [[Fin 1; Fin 1]] (Fin 2, PInf, Fin 1)
    ([Fin 0], [Fin 0; Fin 0]) (3%Z, Fin 0, 0%Z) = Raise ZeroDivisionError /\
  solver_dc [[Fin 1; Fin 2]] [[Fin 1; Fin 1]] ([Fin 0], [Fin 0; Fin 0])
    (Fin 2, PInf, Fin 1) ([Fin 0], [Fin 0; Fin 0], [[Fin 1; Fin 1]])
    (3%Z, Fin 0, 0%Z) (Fin 1) = Raise ZeroDivisionError.
Proof.
  apply (solvers_zero_eval_freq 1 2);
    try reflexivity; try lia; split; try reflexivity; repeat constructor.
Defined.

(** X11. With a budget [niters <= 0] no iteration runs and [eval_freq] is
    never looked at: [solver_scaling] returns the initial duals with the
    coupling they define, [solver_mm] returns the initial coupling as it
    is, and [solver_dc] returns the initial scaling vectors with the
    initial coupling multiplied by [pxy]. *)
Theorem solvers_empty_budget (cost init_pi pxy : mat)
  (a d1 : vec) (b d2 : vec) (rho_x rho_y eps tol eps_base : fval)
  (niters eval_freq : Z) :
  (niters <= 0)%Z ->
  solver_scaling cost (d1, d2) (rho_x, rho_y, eps) (a, b, pxy)
    (niters, tol, eval_freq)
  = Ok ((d1, d2), scaling_coupling cost pxy eps d1 d2) /\
  solver_mm cost init_pi (rho_x, rho_y, eps) (a, b) (niters, tol, eval_freq)
  = Ok init_pi /\
  solver_dc cost init_pi (d1, d2) (rho_x, rho_y, eps) (a, b, pxy)
    (niters, tol, eval_freq) eps_base
  = Ok ((d1, d2), mmap2 fmul init_pi pxy).
Proof.
  intros Hn. pose proof (range_nonpos niters Hn) as Hr.
  split; [| split].
  - unfold solver_scaling. rewrite Hr. reflexivity.
  - unfold solver_mm. rewrite Hr. reflexivity.
  - unfold solver_dc. rewrite Hr. reflexivity.
Qed.

Lemma solvers_empty_budget_witness :
  solver_scaling [[Fin 1; Fin 2]] ([Fin 0], [Fin 0; Fin 0])
    (Fin 2, PInf, Fin 1) ([Fin 0], [Fin 0; Fin 0], [[Fin 1; Fin 1]])
    ((-1)%Z, Fin 0, 0%Z)
  = Ok (([Fin 0], [Fin 0; Fin 0]),
        scaling_coupling [[Fin 1; Fin 2]] [[Fin 1; Fin 1]] (Fin 1)
          [Fin 0] [Fin 0; Fin 0]) /\
  solver_mm [[Fin 1; Fin 2]] [[Fin 1; Fin 1]] (Fin 2, PInf, Fin 1)
    ([Fin 0], [Fin 0; Fin 0]) ((-1)%Z, Fin 0, 0%Z) = Ok [[Fin 1; Fin 1]] /\
  solver_dc [[Fin 1; Fin 2]] [[Fin 1; Fin 1]] ([Fin 0], [Fin 0; Fin 0])
    (Fin 2, PInf, Fin 1) ([Fin 0], [Fin 0; Fin 0], [[Fin 1; Fin 1]])
    ((-1)%Z, Fin 0, 0%Z) (Fin 1)
  = Ok (([Fin 0], [Fin 0; Fin 0]),
        mmap2 fmul [[Fin 1; Fin 1]] [[Fin 1; Fin 1]]).
Proof.
  apply solvers_empty_budget. lia.
Defined.

Lemma feqb_zero : feqb (Fin 0) (Fin 0) = true.
Proof. cbn. apply Reqb_refl. Qed.

(** X12. A marginal penalty [rho = 0] switches its dual off: after at least
    one iteration [solver_scaling] returns [vx = 0] when [rho_x = 0] and
    [vy = 0] when [rho_y = 0], whatever the initial duals; with both
    penalties zero the coupling returned is [pxy * exp (- C / eps)]
    (entry by entry, [0 + 0 - C_ij / eps] being the exponent). *)
Theorem solver_scaling_rho_zero (n m : nat) (cost pxy : mat)
  (log_px log_py vx0 vy0 : vec) (rho_x rho_y eps tol : fval)
  (niters eval_freq : Z) :
  (0 < n)%nat -> (0 < m)%nat ->
  has_shape n m cost -> has_shape n m pxy ->
  List.length log_px = n -> List.length log_py = m ->
  List.length vx0 = n -> List.length vy0 = m ->
  eval_freq <> 0%Z -> (0 < niters)%Z ->
  exists vx vy pi,
    solver_scaling cost (vx0, vy0) (rho_x, rho_y, eps) (log_px, log_py, pxy)
      (niters, tol, eval_freq) = Ok ((vx, vy), pi) /\
    (rho_x = Fin 0 -> vx = zeros_like vx0) /\
    (rho_y = Fin 0 -> vy = zeros_like vy0) /\
    (rho_x = Fin 0 -> rho_y = Fin 0 ->
     pi = mk_mat n m (fun i j =>
            fmul (entry pxy i j)
                 (fexp (fsub (fadd (Fin 0) (Fin 0))
                             (fdiv (entry cost i j) eps))))).
Proof.
  intros Hn Hm Hcost Hpxy Hlpx Hlpy Hvx Hvy He Hpos.
  destruct (solver_scaling_iterate n m cost pxy log_px log_py vx0 vy0
              rho_x rho_y eps tol niters eval_freq)
    as [k [Hk [Hrun [Hlast _]]]]; trivial.
  assert (0 < k)%nat as Hk0.
  { destruct (Nat.lt_ge_cases k (Z.to_nat niters)) as [Hlt | Hge];
      [apply Hlast, Hlt | lia]. }
  destruct k as [| k]; [lia |]. cbn [Nat.iter nat_rect] in Hrun.
  set (prev := nat_rect _ (vx0, vy0) _ k) in Hrun.
  unfold scaling_step_spec at 1 2 3 in Hrun. cbn [fst snd] in Hrun.
  eexists. eexists. eexists. split; [exact Hrun |].
  assert (rho_x = Fin 0 ->
          scaling_vx_spec n m cost log_py rho_x eps
            (scaling_vy_spec n m cost log_px rho_y eps (fst prev))
          = zeros_like vx0) as Hx.
  { intros ->. unfold scaling_vx_spec. rewrite feqb_zero.
    symmetry. now apply zeros_like_mk. }
  assert (rho_y = Fin 0 ->
          scaling_vy_spec n m cost log_px rho_y eps (fst prev)
          = zeros_like vy0) as Hy.
  { intros ->. unfold scaling_vy_spec. rewrite feqb_zero.
    symmetry. now apply zeros_like_mk. }
  split; [exact Hx |]. split; [exact Hy |].
  intros Hrx Hry. rewrite (Hx Hrx), (Hy Hry).
  unfold scaling_coupling_spec. apply mk_mat_ext. intros i j Hi Hj.
  rewrite (zeros_like_mk n vx0 Hvx), (zeros_like_mk m vy0 Hvy).
  now rewrite !nth_mk_vec by assumption.
Qed.

Lemma solver_scaling_rho_zero_witness :
  exists pi,
    solver_scaling [[Fin 1; Fin 2]] ([Fin 5], [Fin 6; Fin 7])
      (Fin 0, Fin 0, Fin 1) ([Fin 0], [Fin 0; Fin 0], [[Fin 1; Fin 1]])
      (3%Z, Fin 0, 1%Z)
    = Ok ((zeros_like [Fin 5], zeros_like [Fin 6; Fin 7]), pi).
Proof.
  destruct (solver_scaling_rho_zero 1 2 [[Fin 1; Fin 2]] [[Fin 1; Fin 1]]
              [Fin 0] [Fin 0; Fin 0] [Fin 5] [Fin 6; Fin 7]
              (Fin 0) (Fin 0) (Fin 1) (Fin 0) 3 1)
    as [vx [vy [pi [Hrun [Hx [Hy _]]]]]];
    try reflexivity; try lia; try (split; [reflexivity | repeat constructor]).
  rewrite (Hx eq_refl), (Hy eq_refl) in Hrun. exists pi. exact Hrun.
Defined.

(** ** The convergence test and [nan] *)

Lemma fold_fmax2_nan_start l : fold_left fmax2 l NaN = NaN.
Proof. induction l as [| a l IH]; cbn; trivial. Qed.

Lemma fold_fmax2_nan l a : In NaN l -> fold_left fmax2 l a = NaN.
Proof.
  revert a. induction l as [| b l IH]; intros a Hin; [contradiction |].
  cbn [fold_left]. destruct Hin as [-> | Hin].
  - unfold fmax2. cbn [is_nan]. rewrite orb_true_r.
    apply fold_fmax2_nan_start.
  - now apply IH.
Qed.

Lemma reduce_max_nan c : In NaN c -> reduce_max c = NaN.
Proof.
  destruct c as [| a rest]; [contradiction |]. cbn [reduce_max].
  intros [-> | Hin]; [apply fold_fmax2_nan_start | now apply fold_fmax2_nan].
Qed.

Lemma max_abs_change_nan (a b : vec) :
  List.length a = List.length b -> In NaN a -> max_abs_change a b = NaN.
Proof.
  intros Hlen Hin. unfold max_abs_change. apply reduce_max_nan.
  unfold vmap2. revert b Hlen Hin.
  induction a as [| x a IH]; intros [| y b] Hlen Hin; try discriminate;
    [contradiction |].
  cbn [map2 map]. destruct Hin as [-> | Hin].
  - left. reflexivity.
  - right. apply IH; [now injection Hlen | exact Hin].
Qed.

(** X13. The convergence test of [solver_scaling] and [solver_mm] treats
    its two vectors differently when a [nan] appears: at a checkpoint, a
    [nan] in the second vector (the dual [vy], the column masses) is
    dropped by Python's [max], and the test is decided by the change of
    the first vector alone; a [nan] in the first vector (the dual [vx],
    the row masses) makes the test fail. *)
Theorem converged2_nan (n m : nat) (idx eval_freq : Z) (tol : fval)
  (a a_prev b b_prev : vec) :
  eval_freq <> 0%Z -> (idx mod eval_freq = 0)%Z ->
  (0 < n)%nat -> (0 < m)%nat ->
  List.length a = n -> List.length a_prev = n ->
  List.length b = m -> List.length b_prev = m ->
  (In NaN b ->
   converged2 idx eval_freq tol a a_prev b b_prev
   = Ok (fltb (max_abs_change a a_prev) tol)) /\
  (In NaN a ->
   converged2 idx eval_freq tol a a_prev b b_prev = Ok false).
Proof.
  intros He Hidx Hn Hm Ha Ha' Hb Hb'.
  rewrite (converged2_ok n m) by assumption.
  unfold converged_spec. rewrite Hidx. cbn [Z.eqb andb]. split.
  - intros Hin. rewrite (max_abs_change_nan b b_prev) by (trivial; lia).
    unfold py_max2. now destruct (max_abs_change a a_prev).
  - intros Hin. rewrite (max_abs_change_nan a a_prev) by (trivial; lia).
    reflexivity.
Qed.

Lemma converged2_nan_witness :
  converged2 0 1 (Fin 1) [Fin 3] [Fin 3] [NaN; Fin 2] [Fin 0; Fin 0]
  = Ok (fltb (max_abs_change [Fin 3] [Fin 3]) (Fin 1)).
Proof.
  refine (proj1 (converged2_nan 1 2 0 1 (Fin 1) [Fin 3] [Fin 3]
                   [NaN; Fin 2] [Fin 0; Fin 0] _ _ _ _ _ _ _ _)
            (or_introl eq_refl));
    try reflexivity; lia.
Defined.

(** ** How the fitter ends *)

Section FitterOutcomes.

Context {Mask Loss Steps Times Settings : Type}.
Variable coarse_to_fine_fit :
  c2f_args Mask Settings -> result (FUGWSparse Loss Steps Times * option Mask).

Local Abbreviation event := (c2f_event Mask Loss Steps Times Settings).

Lemma call_failure_none (e : event) :
  call_failure e = None ->
  ev_ok e /\ nan_free (ev_pi e).
Proof.
  unfold call_failure, ev_ok, ev_pi, nan_free.
  destruct (ev_result e) as [[fm m] | err]; [| discriminate].
  destruct (existsb (existsb is_nan) (pi fm)) eqn:E; [discriminate |].
  intros _. split; [eauto | reflexivity].
Qed.

(** A call that fails is the last of the loop, and the loop raises what
    the call makes it raise. *)
Lemma ot_plans_loop_failure plans cfg bw bf :
  forall items i new_plans new_losses mask evs r,
  ot_plans_loop coarse_to_fine_fit plans cfg bw bf i items
    new_plans new_losses mask = (evs, r) ->
  forall e err, In e evs -> call_failure e = Some err ->
    r = Raise err /\ exists pre, evs = pre ++ [e].
Proof.
  induction items as [| [features weights] rest IH];
    intros i np nl mask evs r Hrun e err Hin Hfail; cbn [ot_plans_loop] in Hrun.
  - inversion Hrun; subst. contradiction.
  - destruct (warm_start plans i) as [init | e0].
    2:{ inversion Hrun; subst. contradiction. }
    set (args := {| source_features := features; target_features := bf;
                    source_weights := weights; target_weights := bw;
                    init_plan := init; sparsity_mask := mask;
                    settings := cfg |}) in *.
    destruct (coarse_to_fine_fit args) as [[fm mask'] | e0] eqn:Hout.
    2:{ inversion Hrun; subst. destruct Hin as [<- | []].
        unfold call_failure in Hfail. cbn [ev_result] in Hfail.
        inversion Hfail; subst. split; [reflexivity | now exists []]. }
    destruct (existsb (existsb is_nan) (pi fm)) eqn:Hnan.
    { inversion Hrun; subst. destruct Hin as [<- | []].
      unfold call_failure in Hfail. cbn [ev_result] in Hfail.
      rewrite Hnan in Hfail. inversion Hfail; subst.
      split; [reflexivity | now exists []]. }
    destruct (ot_plans_loop coarse_to_fine_fit plans cfg bw bf (S i) rest
                (np ++ [pi fm])
                (nl ++ [(loss fm, loss_steps fm, loss_times fm)]) mask')
      as [evs' r'] eqn:Hrest.
    inversion Hrun; subst. clear Hrun.
    destruct Hin as [<- | Hin].
    { unfold call_failure in Hfail. cbn [ev_result] in Hfail.
      rewrite Hnan in Hfail. discriminate. }
    destruct (IH _ _ _ _ _ _ Hrest e err Hin Hfail) as [Hr [pre Hpre]].
    split; [exact Hr |]. eexists (_ :: pre). rewrite Hpre. reflexivity.
Qed.

Lemma no_failure_if_ok (evs : list event) A (r : result A) :
  (forall e err, In e evs -> call_failure e = Some err -> r = Raise err) ->
  (exists x, r = Ok x) ->
  Forall (fun e => call_failure e = None) evs.
Proof.
  intros H [x ->]. apply Forall_forall. intros e Hin.
  destruct (call_failure e) as [err |] eqn:E; trivial.
  specialize (H e err Hin E). discriminate.
Qed.

Section OneRun.

Variables (weights_list : list vec) (features_list : list mat)
  (cfg : Settings) (barycenter_weights : vec)
  (callback_barycenter :
     option (fit_locals Mask Loss Steps Times -> result unit)).

Local Abbreviation round_of :=
  (fit_round coarse_to_fine_fit weights_list features_list cfg
     barycenter_weights callback_barycenter).
Local Abbreviation loop_of :=
  (fit_loop coarse_to_fine_fit weights_list features_list cfg
     barycenter_weights callback_barycenter).

(** A round, read off [fit_round]: the calls, then the update, then the
    callback. *)
Lemma fit_round_cases idx plans mask lebs bf :
  exists evs r0,
    compute_all_ot_plans coarse_to_fine_fit plans weights_list features_list
      cfg barycenter_weights bf mask = (evs, r0) /\
    fst (round_of idx (plans, mask, lebs, bf)) = tag_round idx evs /\
    snd (round_of idx (plans, mask, lebs, bf))
    = match r0 with
      | Raise err => Raise err
      | Ok (np, nl, mask') =>
          match update_barycenter_features np features_list with
          | Raise err => Raise err
          | Ok bf' =>
              match callback_barycenter with
              | None => Ok (Some np, mask', lebs ++ [nl], bf')
              | Some callback =>
                  match callback
                          {| l_idx := idx; l_plans := np; l_losses := nl;
                             l_sparsity_mask := mask';
                             l_barycenter_weights := barycenter_weights;
                             l_barycenter_features := bf';
                             l_losses_each_bar_step := lebs ++ [nl] |} with
                  | Raise err => Raise err
                  | Ok _ => Ok (Some np, mask', lebs ++ [nl], bf')
                  end
              end
          end
      end.
Proof.
  unfold fit_round.
  destruct (compute_all_ot_plans coarse_to_fine_fit plans weights_list
              features_list cfg barycenter_weights bf mask) as [evs r0].
  exists evs, r0. split; [reflexivity |]. split; [reflexivity |].
  cbn [snd]. destruct r0 as [[[np nl] mask'] | err]; [| reflexivity].
  cbn [bind].
  destruct (update_barycenter_features np features_list) as [bf' | err];
    [| reflexivity].
  cbn [bind]. destruct callback_barycenter as [cb |]; [| reflexivity].
  destruct (cb _) as [[] | err]; reflexivity.
Qed.

Lemma in_tag_round idx (evs : list event) idx' e :
  In (idx', e) (tag_round idx evs) <-> idx' = idx /\ In e evs.
Proof.
  unfold tag_round. rewrite in_map_iff. split.
  - intros [e' [H Hin]]. inversion H; subst. auto.
  - intros [-> Hin]. eauto.
Qed.

Lemma fit_round_failure idx st log r :
  round_of idx st = (log, r) ->
  (forall x err, In x log -> call_failure (snd x) = Some err ->
     r = Raise err /\ exists pre, log = pre ++ [x]) /\
  ((exists st', r = Ok st') ->
     Forall (fun x => call_failure (snd x) = None) log).
Proof.
  destruct st as [[[plans mask] lebs] bf]. intros Hrun.
  destruct (fit_round_cases idx plans mask lebs bf)
    as [evs [r0 [Hot [Hlog Hr]]]].
  rewrite Hrun in Hlog, Hr. cbn [fst snd] in Hlog, Hr. subst log.
  assert (forall x err, In x (tag_round idx evs) ->
            call_failure (snd x) = Some err ->
            r0 = Raise err /\ exists pre, tag_round idx evs = pre ++ [x]) as H0.
  { intros [idx' e] err Hin Hfail. apply in_tag_round in Hin.
    destruct Hin as [-> Hin]. cbn [snd] in Hfail.
    unfold compute_all_ot_plans in Hot.
    destruct (ot_plans_loop_failure _ _ _ _ _ _ _ _ _ _ _ Hot e err Hin Hfail)
      as [Hr0 [pre Hpre]].
    split; [exact Hr0 |]. exists (tag_round idx pre).
    rewrite Hpre. unfold tag_round. now rewrite map_app. }
  split.
  - intros x err Hin Hfail. destruct (H0 x err Hin Hfail) as [Hr0 Hpre].
    split; [| exact Hpre]. rewrite Hr, Hr0. reflexivity.
  - intros [st' Hst]. apply Forall_forall. intros x Hin.
    destruct (call_failure (snd x)) as [err |] eqn:E; trivial.
    destruct (H0 x err Hin E) as [Hr0 _]. rewrite Hr, Hr0 in Hst. discriminate.
Qed.

Lemma fit_loop_failure idxs :
  forall st log r,
  loop_of idxs st = (log, r) ->
  (forall x err, In x log -> call_failure (snd x) = Some err ->
     r = Raise err /\ exists pre, log = pre ++ [x]) /\
  ((exists st', r = Ok st') ->
     Forall (fun x => call_failure (snd x) = None) log).
Proof.
  induction idxs as [| idx idxs IH]; intros st log r Hrun;
    cbn [fit_loop] in Hrun.
  - inversion Hrun; subst. split; [contradiction | constructor].
  - destruct (round_of idx st) as [log0 r0] eqn:Hround.
    destruct (fit_round_failure _ _ _ _ Hround) as [Hfail0 Hok0].
    destruct r0 as [st1 | err0].
    2:{ inversion Hrun; subst. split; [exact Hfail0 |].
        intros [st' Hst]. discriminate. }
    destruct (loop_of idxs st1) as [log1 r1] eqn:Hrest.
    inversion Hrun; subst. clear Hrun.
    destruct (IH _ _ _ Hrest) as [Hfail1 Hok1].
    pose proof (Hok0 (ex_intro _ st1 eq_refl)) as Hnone.
    split.
    + intros x err Hin Hfail. apply in_app_or in Hin.
      destruct Hin as [Hin | Hin].
      * pose proof (proj1 (Forall_forall _ _) Hnone x Hin) as Hx. congruence.
      * destruct (Hfail1 x err Hin Hfail) as [Hr [pre Hpre]].
        split; [exact Hr |]. exists (log0 ++ pre).
        rewrite Hpre, app_assoc. reflexivity.
    + intros Hst. apply Forall_app. split; [exact Hnone | now apply Hok1].
Qed.

(** After at least one round that ended normally, the plans in hand are
    those of the last round and the features are their update. *)
Lemma fit_loop_last idxs :
  forall st log plans mask lebs bf,
  idxs <> [] ->
  loop_of idxs st = (log, Ok (plans, mask, lebs, bf)) ->
  exists l last nl,
    plans = Some l /\
    Forall nan_free l /\
    update_barycenter_features l features_list = Ok bf /\
    last = List.last idxs 0%Z /\
    match callback_barycenter with
    | None => True
    | Some callback =>
        exists lebs0,
          lebs = lebs0 ++ [nl] /\
          callback {| l_idx := last; l_plans := l; l_losses := nl;
                      l_sparsity_mask := mask;
                      l_barycenter_weights := barycenter_weights;
                      l_barycenter_features := bf;
                      l_losses_each_bar_step := lebs |} = Ok tt
    end.
Proof.
  induction idxs as [| idx idxs IH]; intros st log plans mask lebs bf Hne Hrun;
    [congruence |].
  cbn [fit_loop] in Hrun.
  destruct (round_of idx st) as [log0 r0] eqn:Hround.
  destruct r0 as [st1 | err0]; [| inversion Hrun].
  destruct (loop_of idxs st1) as [log1 r1] eqn:Hrest.
  inversion Hrun; subst. clear Hrun.
  destruct idxs as [| idx' idxs'].
  - cbn [fit_loop] in Hrest. inversion Hrest; subst. clear Hrest IH.
    destruct st as [[[plans0 mask0] lebs0] bf0].
    destruct (fit_round_failure _ _ _ _ Hround) as [_ Hok0].
    pose proof (Hok0 (ex_intro _ _ eq_refl)) as Hnone.
    destruct (fit_round_cases idx plans0 mask0 lebs0 bf0)
      as [evs [r0 [Hot [Hlog Hr]]]].
    rewrite Hround in Hlog, Hr. cbn [fst snd] in Hlog, Hr. subst log0.
    destruct r0 as [[[np nl] mask'] | err]; [| discriminate].
    destruct (update_barycenter_features np features_list) as [bf' | err]
      eqn:Hupd; [| discriminate].
    assert (Forall nan_free np) as Hnp.
    { unfold compute_all_ot_plans in Hot.
      destruct (ot_plans_loop_spec coarse_to_fine_fit
                  (combine features_list weights_list)
                  plans0 cfg barycenter_weights bf0 _ 0%nat [] [] mask0 evs _
                  (fun j => eq_refl) Hot) as [_ [_ [_ Hspec]]].
      destruct (Hspec np nl mask' eq_refl) as [_ [Hnp _]]. cbn in Hnp.
      subst np. apply Forall_map, Forall_forall. intros e Hin.
      assert (In (idx, e) (tag_round idx evs)) as Hin'
        by (apply in_tag_round; auto).
      pose proof (proj1 (Forall_forall _ _) Hnone _ Hin') as Hx.
      cbn [snd] in Hx. now apply call_failure_none in Hx. }
    exists np, idx, nl. cbn [List.last].
    destruct callback_barycenter as [cb |].
    + destruct (cb _) as [[] | err] eqn:Hcb; [| discriminate].
      inversion Hr; subst. repeat split; trivial.
      exists lebs0. split; [reflexivity | exact Hcb].
    + inversion Hr; subst. repeat split; trivial.
  - destruct (IH st1 log1 plans mask lebs bf ltac:(discriminate) Hrest)
      as [l [last [nl H]]].
    exists l, last, nl. exact H.
Qed.

End OneRun.

Lemma last_range n : (0 < n)%Z -> List.last (range n) 0%Z = (n - 1)%Z.
Proof.
  intros H. unfold range.
  replace (Z.to_nat n) with (S (Z.to_nat (n - 1))) by lia.
  rewrite seq_S, map_app. cbn [map]. rewrite last_last. lia.
Qed.

(** X14. A call to the collaborator that raises, or that returns a plan
    with a [nan], is the last call [fit] makes, and [fit] raises: the
    exception of the collaborator in the first case, the [ValueError]
    "Fine plan contains NaN values" in the second. *)
Theorem fit_failing_call weights_list features_list cfg barycenter_size
  init_barycenter_weights init_barycenter_features nits_barycenter
  callback_barycenter log r idx (e : event) :
  fit coarse_to_fine_fit weights_list features_list cfg barycenter_size
    init_barycenter_weights init_barycenter_features nits_barycenter
    callback_barycenter = (log, r) ->
  In (idx, e) log ->
  (forall err, ev_result e = Raise err ->
     r = Raise err /\ exists pre, log = pre ++ [(idx, e)]) /\
  (forall fine_mapping mask,
     ev_result e = Ok (fine_mapping, mask) ->
     existsb (existsb is_nan) (pi fine_mapping) = true ->
     r = Raise (ValueError fine_plan_nan) /\
     exists pre, log = pre ++ [(idx, e)]).
Proof.
  intros Hfit Hin.
  assert (forall err, call_failure e = Some err ->
            r = Raise err /\ exists pre, log = pre ++ [(idx, e)]) as H.
  { intros err Hfail.
    destruct (fit_unfold _ _ _ _ _ _ _ _ _ _ _ Hfit)
      as [[-> _] | [size [bf0 [r0 [_ [Hloop ->]]]]]]; [contradiction |].
    destruct (fit_loop_failure _ _ _ _ _ _ _ _ _ Hloop) as [Hfail0 _].
    destruct (Hfail0 (idx, e) err Hin Hfail) as [-> Hpre].
    split; [reflexivity | exact Hpre]. }
  split.
  - intros err He. apply H. unfold call_failure. now rewrite He.
  - intros fm m He Hnan. apply H. unfold call_failure. now rewrite He, Hnan.
Qed.

(** X15. When [fit] returns after at least one round, the plans it returns
    are free of [nan], every call it made returned normally with such a
    plan, and the barycenter features it returns are what
    [update_barycenter_features] gives on the plans it returns. *)
Theorem fit_returns_consistent weights_list features_list cfg barycenter_size
  init_barycenter_weights init_barycenter_features nits_barycenter
  callback_barycenter log w f plans losses :
  fit coarse_to_fine_fit weights_list features_list cfg barycenter_size
    init_barycenter_weights init_barycenter_features nits_barycenter
    callback_barycenter = (log, Ok (w, f, plans, losses)) ->
  (0 < nits_barycenter)%Z ->
  (exists l,
     plans = Some l /\ Forall nan_free l /\
     update_barycenter_features l features_list = Ok f) /\
  Forall (fun x : Z * event => ev_ok (snd x) /\ nan_free (ev_pi (snd x))) log.
Proof.
  intros Hfit Hpos.
  destruct (fit_unfold _ _ _ _ _ _ _ _ _ _ _ Hfit)
    as [[_ [err Herr]] | [size [bf0 [r0 [_ [Hloop Hr]]]]]]; [discriminate |].
  destruct r0 as [[[[plans' mask'] lebs'] bf'] | err]; [| discriminate].
  cbn [bind] in Hr. inversion Hr; subst. clear Hr.
  split.
  - assert (range nits_barycenter <> []) as Hne
      by (destruct (range_pos _ Hpos) as [rest ->]; discriminate).
    destruct (fit_loop_last _ _ _ _ _ _ _ _ _ _ _ _ Hne Hloop)
      as [l [last [nl [Hl [Hnan [Hupd _]]]]]].
    exists l. auto.
  - destruct (fit_loop_failure _ _ _ _ _ _ _ _ _ Hloop) as [_ Hok].
    eapply Forall_impl; [| exact (Hok (ex_intro _ _ eq_refl))].
    intros x Hx. now apply call_failure_none.
Qed.

(** X16. A callback is not silenced: when [fit] returns after at least one
    round with a callback registered, the callback returned normally on
    the local variables of the last round, which hold the index of that
    round and the weights, the features, the plans and the losses that
    [fit] returns. *)
Theorem fit_callback_last weights_list features_list cfg barycenter_size
  init_barycenter_weights init_barycenter_features nits_barycenter
  callback log w f plans losses :
  fit coarse_to_fine_fit weights_list features_list cfg barycenter_size
    init_barycenter_weights init_barycenter_features nits_barycenter
    (Some callback) = (log, Ok (w, f, plans, losses)) ->
  (0 < nits_barycenter)%Z ->
  exists locals,
    callback locals = Ok tt /\
    l_idx locals = (nits_barycenter - 1)%Z /\
    l_barycenter_weights locals = w /\
    l_barycenter_features locals = f /\
    Some (l_plans locals) = plans /\
    l_losses_each_bar_step locals = losses.
Proof.
  intros Hfit Hpos.
  destruct (fit_unfold _ _ _ _ _ _ _ _ _ _ _ Hfit)
    as [[_ [err Herr]] | [size [bf0 [r0 [_ [Hloop Hr]]]]]]; [discriminate |].
  destruct r0 as [[[[plans' mask'] lebs'] bf'] | err]; [| discriminate].
  cbn [bind] in Hr. inversion Hr; subst. clear Hr.
  assert (range nits_barycenter <> []) as Hne
    by (destruct (range_pos _ Hpos) as [rest ->]; discriminate).
  destruct (fit_loop_last _ _ _ _ _ _ _ _ _ _ _ _ Hne Hloop)
    as [l [last [nl [Hl [_ [_ [Hlast [lebs0 [Hlebs Hcb]]]]]]]]].
  rewrite last_range in Hlast by exact Hpos. subst last.
  eexists. split; [exact Hcb |]. cbn. auto.
Qed.

End FitterOutcomes.

Lemma fit_failing_call_witness :
  exists log r e,
    fit failing_c2f demo_weights demo_features tt (Some 1%nat)
      (Some [Fin 1]) (Some [[Fin 1]]) 3 None = (log, r) /\
    In (0%Z, e) log /\
    r = Raise (ForeignError "coarse_to_fine.fit failed") /\
    log = [(0%Z, e)].
Proof.
  eexists. eexists. eexists.
  split; [reflexivity |]. split; [left; reflexivity |].
  split; [| reflexivity].
  refine (proj1 (proj1 (fit_failing_call failing_c2f demo_weights demo_features
                          tt (Some 1%nat) (Some [Fin 1]) (Some [[Fin 1]]) 3 None
                          _ _ 0%Z _ eq_refl (or_introl eq_refl)) _ eq_refl)).
Defined.

Lemma fit_returns_consistent_witness :
  exists log f losses,
    fit demo_c2f demo_weights demo_features tt (Some 1%nat) None None 2 None
    = (log, Ok (uniform_weights 1, f, Some [[[Fin 1]]; [[Fin 1]; [Fin 1]]],
            losses)) /\
    Forall nan_free [[[Fin 1]]; [[Fin 1]; [Fin 1]]] /\
    update_barycenter_features [[[Fin 1]]; [[Fin 1]; [Fin 1]]] demo_features
    = Ok f.
Proof.
  destruct demo_fit as [log [f [losses Hfit]]].
  exists log, f, losses. split; [exact Hfit |].
  destruct (fit_returns_consistent demo_c2f _ _ _ _ _ _ _ _ _ _ _ _ _ Hfit
              ltac:(lia)) as [[l [Hl [Hnan Hupd]]] _].
  inversion Hl; subst l. split; [exact Hnan | exact Hupd].
Defined.

Lemma demo_fit_callback :
  exists log f losses,
    fit demo_c2f demo_weights demo_features tt (Some 1%nat) None None 2
      (Some quiet_callback)
    = (log, Ok (uniform_weights 1, f, Some [[[Fin 1]]; [[Fin 1]; [Fin 1]]], losses)).
Proof.
  pose proof demo_update as HU.
  unfold fit, demo_features, demo_weights in *. change (range 2) with [0%Z; 1%Z].
  cbn -[update_barycenter_features fdiv fsqrt fmul fadd].
  rewrite HU.
  cbn -[update_barycenter_features fdiv fsqrt fmul fadd].
  rewrite HU.
  cbn -[update_barycenter_features fdiv fsqrt fmul fadd].
  repeat eexists.
Qed.

Lemma fit_callback_last_witness :
  exists log f losses locals,
    fit demo_c2f demo_weights demo_features tt (Some 1%nat) None None 2
      (Some quiet_callback)
    = (log, Ok (uniform_weights 1, f, Some [[[Fin 1]]; [[Fin 1]; [Fin 1]]],
            losses)) /\
    quiet_callback locals = Ok tt /\
    l_idx locals = 1%Z /\
    l_barycenter_features locals = f /\
    l_losses_each_bar_step locals = losses.
Proof.
  destruct demo_fit_callback as [log [f [losses Hfit]]].
  destruct (fit_callback_last demo_c2f _ _ _ _ _ _ _ _ _ _ _ _ _ Hfit
              ltac:(lia)) as [locals [H1 [H2 [_ [H3 [_ H4]]]]]].
  exists log, f, losses, locals. auto.
Defined.

(** ** The fitter on edge inputs *)

Section FitterEdges.

Context {Mask Loss Steps Times Settings : Type}.
Variable coarse_to_fine_fit :
  c2f_args Mask Settings -> result (FUGWSparse Loss Steps Times * option Mask).

(** X17. With [nits_barycenter <= 0] no round runs: [fit] calls neither
    the collaborator nor the callback, and what it returns -- when the
    initialisation does not raise -- is the initial weights and features
    with [None] for the plans and an empty list of losses. *)
Theorem fit_zero_rounds weights_list features_list (cfg : Settings)
  barycenter_size init_barycenter_weights init_barycenter_features
  nits_barycenter callback_barycenter :
  (nits_barycenter <= 0)%Z ->
  exists r,
    fit coarse_to_fine_fit weights_list features_list cfg barycenter_size
      init_barycenter_weights init_barycenter_features nits_barycenter
      callback_barycenter = ([], r) /\
    (forall size f0,
       match barycenter_size with
       | Some b => size = b
       | None => default_barycenter_size weights_list = Ok size
       end ->
       match init_barycenter_features with
       | Some f => f0 = f
       | None => uniform_features features_list size = Ok f0
       end ->
       r = Ok (match init_barycenter_weights with
               | Some w => w
               | None => uniform_weights size
               end, f0, None, [])) /\
    (forall w f plans losses,
       r = Ok (w, f, plans, losses) -> plans = None /\ losses = []).
Proof.
  intros Hn. unfold fit, _make_tensor. rewrite (range_nonpos _ Hn).
  cbn [fit_loop].
  destruct barycenter_size as [b |].
  - cbn [bind].
    destruct init_barycenter_features as [f |].
    + cbn [bind]. eexists. split; [reflexivity |]. split.
      * intros size f0 -> ->. reflexivity.
      * intros w f' plans losses H. now inversion H.
    + destruct (uniform_features features_list b) as [f |e] eqn:Hf; cbn [bind].
      * eexists. split; [reflexivity |]. split.
        -- intros size f0 -> Hf0. rewrite Hf in Hf0. now inversion Hf0.
        -- intros w f' plans losses H. now inversion H.
      * eexists. split; [reflexivity |]. split.
        -- intros size f0 -> Hf0. congruence.
        -- intros w f' plans losses H. discriminate.
  - destruct (default_barycenter_size weights_list) as [b | e]; cbn [bind].
    + destruct init_barycenter_features as [f |].
      * cbn [bind]. eexists. split; [reflexivity |]. split.
        -- intros size f0 Hs ->. now inversion Hs.
        -- intros w f' plans losses H. now inversion H.
      * destruct (uniform_features features_list b) as [f |e] eqn:Hf; cbn [bind].
        -- eexists. split; [reflexivity |]. split.
           ++ intros size f0 Hs Hf0. inversion Hs; subst.
              rewrite Hf in Hf0. now inversion Hf0.
           ++ intros w f' plans losses H. now inversion H.
        -- eexists. split; [reflexivity |]. split.
           ++ intros size f0 Hs Hf0. inversion Hs; subst. congruence.
           ++ intros w f' plans losses H. discriminate.
    + eexists. split; [reflexivity |]. split.
      * intros size f0 Hs. discriminate.
      * intros w f' plans losses H. discriminate.
Qed.

(** X18. Without individuals [fit] cannot run a round.  With no weights
    and no [barycenter_size] it raises [IndexError] at [weights_list[0]];
    with no features and no initial barycenter features it raises
    [IndexError] at [features_list[0]]; and when both are supplied, an
    empty list of weights or of features makes the first round raise
    [UnboundLocalError] in [update_barycenter_features], whose loop has
    bound no accumulator.  In every case no call is made. *)
Theorem fit_no_individuals weights_list features_list (cfg : Settings)
  size init_barycenter_weights features nits_barycenter callback_barycenter :
  fit coarse_to_fine_fit [] features_list cfg None
    init_barycenter_weights features nits_barycenter callback_barycenter
  = ([], Raise IndexError) /\
  fit coarse_to_fine_fit weights_list [] cfg (Some size)
    init_barycenter_weights None nits_barycenter callback_barycenter
  = ([], Raise IndexError) /\
  forall f0,
    (0 < nits_barycenter)%Z -> weights_list = [] \/ features_list = [] ->
    fit coarse_to_fine_fit weights_list features_list cfg (Some size)
      init_barycenter_weights (Some f0) nits_barycenter callback_barycenter
    = ([], Raise UnboundLocalError).
Proof.
  split; [reflexivity |]. split; [reflexivity |].
  intros f0 Hpos Hempty. unfold fit. cbn [bind].
  destruct (range_pos _ Hpos) as [rest ->]. cbn [fit_loop].
  assert (combine features_list weights_list = []) as Hc.
  { destruct Hempty as [-> | ->]; [| reflexivity].
    now destruct features_list. }
  unfold fit_round, compute_all_ot_plans. rewrite Hc. cbn [ot_plans_loop].
  cbn [bind]. unfold update_barycenter_features. cbn [combine accumulate_features bind].
  reflexivity.
Qed.

End FitterEdges.

Lemma fit_zero_rounds_witness :
  fit demo_c2f demo_weights demo_features tt (Some 1%nat) (Some [Fin 1])
    (Some [[Fin 1]]) 0 (Some quiet_callback)
  = ([], Ok ([Fin 1], [[Fin 1]], None, [])).
Proof.
  destruct (fit_zero_rounds demo_c2f demo_weights demo_features tt
              (Some 1%nat) (Some [Fin 1]) (Some [[Fin 1]]) 0
              (Some quiet_callback) ltac:(lia)) as [r [Hfit [Hr _]]].
  rewrite Hfit. f_equal. exact (Hr 1%nat [[Fin 1]] eq_refl eq_refl).
Defined.

(** ** The default initialisation of the fitter *)

Lemma Rsum_repeat c k : Rsum (repeat c k) = INR k * c.
Proof.
  induction k as [| k IH]; [cbn; lra |].
  rewrite S_INR. cbn [repeat]. unfold Rsum in *. cbn [fold_right].
  rewrite IH. ring.
Qed.

Lemma map_repeat_Fin c k : repeat (Fin c) k = map Fin (repeat c k).
Proof. now rewrite map_repeat. Qed.

(** X19. For a barycenter of [B >= 1] points the default weights are
    [1 / B] each, and the default features are [1 / sqrt B] in every
    entry, one row of length [B] per feature dimension of the first
    individual. *)
Theorem default_initialisation (B : nat) (f0 : mat) (rest : list mat) :
  (0 < B)%nat ->
  uniform_weights B = repeat (Fin (1 / INR B)) B /\
  uniform_features (f0 :: rest) B
  = Ok (repeat (repeat (Fin (1 / sqrt (INR B))) B) (List.length f0)).
Proof.
  intros HB.
  assert (0 < INR B) as HI by (apply lt_0_INR; lia).
  assert (0 < sqrt (INR B)) as HS by now apply sqrt_lt_R0.
  split.
  - unfold uniform_weights. rewrite map_repeat. f_equal.
    apply fdiv_Fin. lra.
  - unfold uniform_features. f_equal. unfold bcast_col_r.
    rewrite map_repeat.
    assert (fsqrt (tsum (map (fun c => fmul c c) (repeat (Fin 1) B)))
            = Fin (sqrt (INR B))) as ->.
    { rewrite map_repeat. cbn [fmul]. rewrite map_repeat_Fin, tsum_Fin.
      rewrite Rsum_repeat. unfold fsqrt.
      replace (INR B * (1 * 1)) with (INR B) by ring.
      now rewrite (Rsign_pos _ HI). }
    generalize (List.length f0) as F. induction F as [| F IH]; cbn [repeat map2];
      trivial.
    rewrite IH. f_equal. rewrite map_repeat. f_equal. apply fdiv_Fin. lra.
Qed.

Lemma default_initialisation_witness :
  uniform_weights 3 = repeat (Fin (1 / INR 3)) 3 /\
  uniform_features ([[Fin 3; Fin 5]; [Fin 1; Fin 2]] :: []) 3
  = Ok (repeat (repeat (Fin (1 / sqrt (INR 3))) 3) 2).
Proof.
  apply (default_initialisation 3). lia.
Defined.

(** ** The shape of the updated features *)

Lemma length_rescale_column c :
  List.length (rescale_column c) = List.length c.
Proof. unfold rescale_column. apply length_map. Qed.

(** X20. When every plan has [B >= 1] columns and every feature matrix
    [F] rows as long as its plan, [update_barycenter_features] returns a
    matrix with one row per feature dimension and one column per
    barycenter point: [F] rows of length [B]. *)
Theorem update_barycenter_features_shape (plans features_list : list mat)
  (B F : nat) :
  plans <> [] -> (0 < B)%nat ->
  Forall2 (fun pi f => ncols pi = B /\ List.length f = F /\
                       Forall (fun row => List.length row = List.length pi) f)
          plans features_list ->
  exists out,
    update_barycenter_features plans features_list = Ok out /\
    has_shape F B out.
Proof.
  intros Hne HB Hshape.
  destruct (update_barycenter_features_rows plans features_list B F
              Hne HB Hshape) as [out [Hout [Hagg [_ [Hform _]]]]].
  exists out. split; [exact Hout |].
  assert (ncols (aggregated_features plans features_list) = F) as Hcols
    by now apply (ncols_has_shape B).
  rewrite Hform. split.
  - now rewrite length_map, length_transpose.
  - apply Forall_map. unfold transpose. apply Forall_map, Forall_forall.
    intros j _. rewrite length_rescale_column, length_col. apply Hagg.
Qed.

Lemma update_barycenter_features_shape_witness :
  exists out,
    update_barycenter_features
      [[[Fin 0; Fin 1]]; [[Fin 0; Fin 1]; [Fin 0; Fin 3]]]
      [[[Fin 2]]; [[Fin 2; Fin 4]]] = Ok out /\
    has_shape 1 2 out.
Proof.
  apply (update_barycenter_features_shape
           [[[Fin 0; Fin 1]]; [[Fin 0; Fin 1]; [Fin 0; Fin 3]]]
           [[[Fin 2]]; [[Fin 2; Fin 4]]] 2 1).
  - discriminate.
  - lia.
  - repeat constructor.
Defined.

(** ** The first round of the fitter *)

Section FirstRound.

Context {Mask Loss Steps Times Settings : Type}.
Variable coarse_to_fine_fit :
  c2f_args Mask Settings -> result (FUGWSparse Loss Steps Times * option Mask).

Lemma fit_unfold_features weights_list features_list (cfg : Settings)
  barycenter_size init_barycenter_weights init_barycenter_features
  nits_barycenter callback_barycenter log r :
  fit coarse_to_fine_fit weights_list features_list cfg barycenter_size
    init_barycenter_weights init_barycenter_features nits_barycenter
    callback_barycenter = (log, r) ->
  log = [] \/
  exists size bf0 r0,
    (match barycenter_size with
     | Some b => size = b
     | None => default_barycenter_size weights_list = Ok size
     end) /\
    (match init_barycenter_features with
     | Some f => bf0 = f
     | None => uniform_features features_list size = Ok bf0
     end) /\
    fit_loop coarse_to_fine_fit weights_list features_list cfg
      (match init_barycenter_weights with
       | None => uniform_weights size
       | Some w => w
       end)
      callback_barycenter (range nits_barycenter) (None, None, [], bf0)
    = (log, r0).
Proof.
  unfold fit, _make_tensor.
  destruct barycenter_size as [b |].
  - cbn [bind]. destruct init_barycenter_features as [f |]; cbn [bind].
    + destruct (fit_loop _ _ _ _ _ _ _ _) as [evs r0] eqn:Hloop.
      intros H. inversion H; subst. right. exists b, f, r0. auto.
    + destruct (uniform_features features_list b) as [f | err] eqn:Hf;
        cbn [bind].
      * destruct (fit_loop _ _ _ _ _ _ _ _) as [evs r0] eqn:Hloop.
        intros H. inversion H; subst. right. exists b, f, r0. auto.
      * intros H. inversion H. now left.
  - destruct (default_barycenter_size weights_list) as [b | err] eqn:Hb;
      cbn [bind].
    2:{ intros H. inversion H. now left. }
    destruct init_barycenter_features as [f |]; cbn [bind].
    + destruct (fit_loop _ _ _ _ _ _ _ _) as [evs r0] eqn:Hloop.
      intros H. inversion H; subst. right. exists b, f, r0. auto.
    + destruct (uniform_features features_list b) as [f | err] eqn:Hf;
        cbn [bind].
      * destruct (fit_loop _ _ _ _ _ _ _ _) as [evs r0] eqn:Hloop.
        intros H. inversion H; subst. right. exists b, f, r0. auto.
      * intros H. inversion H. now left.
Qed.

(** X21. In the first round every call to the collaborator receives, as
    target features, the initial barycenter features: those passed to
    [fit], or else the default ones for the barycenter size in force (the
    one passed, or else the number of weights of the first individual). *)
Theorem fit_first_round_features weights_list features_list (cfg : Settings)
  barycenter_size init_barycenter_weights init_barycenter_features
  nits_barycenter callback_barycenter log r e :
  fit coarse_to_fine_fit weights_list features_list cfg barycenter_size
    init_barycenter_weights init_barycenter_features nits_barycenter
    callback_barycenter = (log, r) ->
  In (0%Z, e) log ->
  match init_barycenter_features with
  | Some f => target_features (ev_args e) = f
  | None =>
      uniform_features features_list
        match barycenter_size with
        | Some b => b
        | None => List.length (hd [] weights_list)
        end
      = Ok (target_features (ev_args e))
  end.
Proof.
  intros Hfit Hin.
  destruct (fit_unfold_features _ _ _ _ _ _ _ _ _ _ Hfit)
    as [-> | [size [bf0 [r0 [Hsize [Hbf Hloop]]]]]]; [contradiction |].
  unfold range in Hloop.
  destruct (fit_loop_features coarse_to_fine_fit _ _ _ _ _ _ _ _ _ _ _ _ _
              Hloop 0%Z e Hin) as [H0 _].
  rewrite (H0 eq_refl).
  destruct init_barycenter_features as [f |]; [exact Hbf |].
  rewrite <- Hbf. f_equal.
  destruct barycenter_size as [b |]; [now subst |].
  destruct weights_list as [| w0 rest]; [discriminate |].
  cbn in Hsize. now inversion Hsize.
Qed.

End FirstRound.

Lemma fit_first_round_features_witness :
  exists log r e,
    fit failing_c2f demo_weights demo_features tt None None None 3 None
    = (log, r) /\
    In (0%Z, e) log /\
    uniform_features demo_features 1 = Ok (target_features (ev_args e)).
Proof.
  destruct (fit failing_c2f demo_weights demo_features tt None None None 3 None)
    as [log r] eqn:Hfit.
  assert (exists e, In (0%Z, e) log) as [e Hin].
  { revert Hfit. unfold fit, demo_weights, demo_features.
    change (range 3) with [0%Z; 1%Z; 2%Z].
    cbn -[fdiv fsqrt fmul fadd]. intros H. inversion H.
    eexists. left. reflexivity. }
  exists log, r, e. split; [reflexivity |]. split; [exact Hin |].
  exact (fit_first_round_features failing_c2f demo_weights demo_features tt
           None None None 3 None log r e Hfit Hin).
Defined.

(** ** Penalties switched off in the dc solver *)

(** What a loop over at least one index returns is what one of its
    iterations left. *)
Lemma for_loop_last_step {St} (body : Z -> St -> result (ctl St)) idxs :
  forall s r,
  idxs <> [] -> for_loop body idxs s = Ok r ->
  exists idx s', body idx s' = Ok (Continue r) \/ body idx s' = Ok (Break r).
Proof.
  induction idxs as [| idx idxs IH]; intros s r Hne Hrun; [congruence |].
  cbn [for_loop] in Hrun.
  destruct (body idx s) as [[s1 | s1] | e] eqn:Hb; try discriminate.
  - destruct idxs as [| idx' idxs'].
    + cbn in Hrun. inversion Hrun; subst. exists idx, s. now left.
    + apply (IH s1 r); [discriminate | exact Hrun].
  - inversion Hrun; subst. exists idx, s. now right.
Qed.

(** X22. A marginal penalty [rho = 0] switches its scaling vector off:
    after at least one iteration [solver_dc] returns [u] with every entry
    [1] when [rho1 = 0], and [v] with every entry [1] when [rho2 = 0],
    whatever the initial scaling vectors. *)
Theorem solver_dc_rho_zero (cost init_pi : mat) (u0 v0 : vec)
  (rho1 rho2 eps : fval) (px py : vec) (pxy : mat)
  (niters : Z) (tol : fval) (eval_freq : Z) (eps_base : fval)
  (u v : vec) (pi : mat) :
  (0 < niters)%Z ->
  solver_dc cost init_pi (u0, v0) (rho1, rho2, eps) (px, py, pxy)
    (niters, tol, eval_freq) eps_base = Ok ((u, v), pi) ->
  (rho1 = Fin 0 -> Forall (fun a => a = Fin 1) u) /\
  (rho2 = Fin 0 -> Forall (fun a => a = Fin 1) v).
Proof.
  intros Hpos Hrun. unfold solver_dc in Hrun.
  destruct (for_loop _ _ _) as [[[[u' v'] pi'] m1] | e] eqn:Hloop;
    [| discriminate].
  cbn [bind] in Hrun. injection Hrun as -> -> <-.
  apply for_loop_last_step in Hloop.
  2:{ destruct (range_pos _ Hpos) as [rest ->]. discriminate. }
  destruct Hloop as [idx [[[[a b] c] d] Hbody]].
  apply dc_body_advance in Hbody. destruct Hbody as [Hupd _].
  cbn [fst] in Hupd. unfold dc_update in Hupd.
  injection Hupd as Hu Hv _.
  assert (forall w : vec, Forall (fun x => x = Fin 1) (ones_like w)) as Hones.
  { intros w. unfold ones_like. apply Forall_map, Forall_forall. trivial. }
  split.
  - intros ->. rewrite feqb_zero in Hu. cbn [negb] in Hu. rewrite Hu.
    apply Hones.
  - intros ->. rewrite feqb_zero in Hv. cbn [negb] in Hv. rewrite Hv.
    apply Hones.
Qed.

Lemma solver_dc_rho_zero_witness :
  exists u v pi,
    solver_dc [[Fin 0]] [[Fin 1]] ([Fin 1], [Fin 1]) (Fin 0, Fin 0, Fin 1)
      ([Fin 1], [Fin 1], [[Fin 1]]) (1%Z, Fin 1, 1%Z) (Fin 1)
    = Ok ((u, v), pi) /\
    Forall (fun a => a = Fin 1) u /\ Forall (fun a => a = Fin 1) v.
Proof.
  destruct solver_dc_one_point as [u [v [pi Hrun]]].
  exists u, v, pi. split; [exact Hrun |].
  assert (0 < 1)%Z as Hpos by lia.
  destruct (solver_dc_rho_zero _ _ _ _ _ _ _ _ _ _ _ _ _ _ _ _ _ Hpos Hrun)
    as [Hu Hv].
  split; [exact (Hu eq_refl) | exact (Hv eq_refl)].
Defined.

(** ** Warm starts out of bounds *)

Section ShortPlans.

Context {Mask Loss Steps Times Settings : Type}.
Variable coarse_to_fine_fit :
  c2f_args Mask Settings -> result (FUGWSparse Loss Steps Times * option Mask).

Lemma ot_plans_loop_short (l : list mat) (cfg : Settings) bw bf :
  (forall args, exists fine_mapping mask,
     coarse_to_fine_fit args = Ok (fine_mapping, mask) /\
     nan_free (pi fine_mapping)) ->
  forall items i new_plans new_losses mask,
  (i <= List.length l)%nat -> (List.length l < i + List.length items)%nat ->
  exists evs,
    ot_plans_loop coarse_to_fine_fit (Some l) cfg bw bf i items
      new_plans new_losses mask = (evs, Raise IndexError) /\
    List.length evs = (List.length l - i)%nat.
Proof.
  intros Hc2f.
  induction items as [| [features weights] rest IH];
    intros i np nl mask Hi Hlen; cbn [List.length] in Hlen; [lia |].
  cbn [ot_plans_loop]. unfold warm_start.
  destruct (nth_error l i) as [p |] eqn:Hnth.
  - assert (i < List.length l)%nat as Hlt
      by (apply nth_error_Some; congruence).
    match goal with
    | |- context [coarse_to_fine_fit ?args] =>
        destruct (Hc2f args) as [fm [mask' [Hout Hnan]]]
    end.
    rewrite Hout. unfold nan_free in Hnan. rewrite Hnan.
    destruct (IH (S i) (np ++ [pi fm])
                (nl ++ [(loss fm, loss_steps fm, loss_times fm)]) mask')
      as [evs [Hrun Hevs]]; [lia | lia |].
    rewrite Hrun. eexists. split; [reflexivity |]. cbn [List.length]. lia.
  - apply nth_error_None in Hnth. exists []. split; [reflexivity |].
    cbn. lia.
Qed.

(** X24. The warm starts are read by position, [plans[i]]: called with a
    list of plans shorter than the number of individuals, and a
    collaborator that returns plans free of [nan],
    [compute_all_ot_plans] makes one call per plan it was given and then
    raises [IndexError] at the first individual without a plan. *)
Theorem compute_all_ot_plans_short_plans (plans : list mat)
  (weights_list : list vec) (features_list : list mat) (cfg : Settings)
  (barycenter_weights : vec) (barycenter_features : mat)
  (mask : option Mask) :
  (forall args, exists fine_mapping mask',
     coarse_to_fine_fit args = Ok (fine_mapping, mask') /\
     nan_free (pi fine_mapping)) ->
  (List.length plans
   < Nat.min (List.length features_list) (List.length weights_list))%nat ->
  exists evs,
    compute_all_ot_plans coarse_to_fine_fit (Some plans) weights_list
      features_list cfg barycenter_weights barycenter_features mask
    = (evs, Raise IndexError) /\
    List.length evs = List.length plans.
Proof.
  intros Hc2f Hlen. unfold compute_all_ot_plans.
  destruct (ot_plans_loop_short plans cfg barycenter_weights
              barycenter_features Hc2f
              (combine features_list weights_list) 0 [] [] mask)
    as [evs [Hrun Hevs]]; [lia | rewrite length_combine; lia |].
  exists evs. split; [exact Hrun | lia].
Qed.

End ShortPlans.

Lemma compute_all_ot_plans_short_plans_witness :
  exists evs,
    compute_all_ot_plans constant_c2f (Some [[[Fin 1]]]) demo_weights
      demo_features tt [Fin 1] [[Fin 1]] None
    = (evs, Raise IndexError) /\
    List.length evs = 1%nat.
Proof.
  apply (compute_all_ot_plans_short_plans constant_c2f [[[Fin 1]]]
           demo_weights demo_features tt [Fin 1] [[Fin 1]] None).
  - intros args. eexists. eexists. split; reflexivity.
  - cbn. lia.
Defined.
